(** * The stack reconciler: composite components, the callback queue and
      the batched-update scheduler.

    A shallow embedding of [ReactCompositeComponent], [CallbackQueue] and
    [ReactUpdates].  JavaScript objects that are mutated in place are
    modelled by explicit state passing; exceptions by an [outcome]; user
    code (constructors, [render], lifecycle hooks, callbacks) by data that
    the embedding interprets. *)

From stdpp Require Import gmap strings list functions sorting.
From Stdlib Require Import ZArith Lia.

Set Warnings "-register-all".
Set Default Proof Using "Type".

(* ================================================================== *)
(** ** JavaScript values *)
(* ================================================================== *)

Module JS.

(** The value of an object property.  Merging state is shallow, so a
    nested object is only ever seen through its identity; a built-in of the
    runtime, such as [Object.prototype.toString], is seen through its
    name. *)
Inductive fval :=
| FUndefined
| FNull
| FBool (b : bool)
| FNum (z : Z)
| FStr (s : string)
| FRef (id : nat)
| FBuiltin (name : string).

(** An object: its identity and its own enumerable properties.  Objects
    are plain: the prototype of each is [Object.prototype], and
    [__proto__] is not the name of an own property. *)
Record objref := ObjRef { oid : nat; ofields : gmap string fval }.

(** The properties that an object inherits from [Object.prototype]; none
    of them is enumerable. *)
Definition Object_prototype : gmap string fval :=
  list_to_map
    [("constructor", FBuiltin "Object");
     ("hasOwnProperty", FBuiltin "Object.prototype.hasOwnProperty");
     ("isPrototypeOf", FBuiltin "Object.prototype.isPrototypeOf");
     ("propertyIsEnumerable", FBuiltin "Object.prototype.propertyIsEnumerable");
     ("toLocaleString", FBuiltin "Object.prototype.toLocaleString");
     ("toString", FBuiltin "Object.prototype.toString");
     ("valueOf", FBuiltin "Object.prototype.valueOf");
     ("__defineGetter__", FBuiltin "Object.prototype.__defineGetter__");
     ("__defineSetter__", FBuiltin "Object.prototype.__defineSetter__");
     ("__lookupGetter__", FBuiltin "Object.prototype.__lookupGetter__");
     ("__lookupSetter__", FBuiltin "Object.prototype.__lookupSetter__");
     ("__proto__", FBuiltin "Object.prototype")].

(** [o[name]], for the own properties [fields] of [o]: the own property,
    or else the inherited one, or else [undefined]. *)
Definition getProperty (fields : gmap string fval) (name : string) : fval :=
  match fields !! name with
  | Some v => v
  | None => default FUndefined (Object_prototype !! name)
  end.

(** [name in o], for the own property names [names] of [o]: an own
    property or an inherited one. *)
Definition hasProperty (names : list string) (name : string) : bool :=
  bool_decide (name ∈ names) || bool_decide (is_Some (Object_prototype !! name)).

(** An updater function [(accumulatedState, props, context) => partial].
    It sees the properties of the accumulator; [None] is a [null] or
    [undefined] result. *)
Definition updater : Type :=
  gmap string fval → objref → objref → option (gmap string fval).

(** What [inst.state] and an entry of [_pendingStateQueue] can hold. *)
Inductive jsval :=
| JUndefined
| JNull
| JObj (o : objref)
| JFun (f : updater).

(** [Object.assign(target, source)]: a [null] or [undefined] source is
    skipped, a function has no own enumerable property, and otherwise
    the source's properties overwrite those of the target. *)
Definition Object_assign (target : gmap string fval) (source : jsval)
  : gmap string fval :=
  match source with
  | JObj o => ofields o ∪ target
  | JUndefined | JNull | JFun _ => target
  end.

(** [emptyObject], the frozen singleton of fbjs. *)
Definition emptyObject : objref := ObjRef 0 ∅.

Inductive error :=
| TypeError (msg : string)
| InvariantViolation (msg : string)
| UserError (code : nat).

(** The result of a call: a normal return or a thrown exception. *)
Inductive outcome (A : Type) :=
| Returns (a : A)
| Throws (e : error).
Arguments Returns {A} a.
Arguments Throws {A} e.

Definition returned {A} (r : outcome A) : bool :=
  match r with Returns _ => true | Throws _ => false end.

End JS.
Export JS.


(* ================================================================== *)
(** ** ReactCompositeComponent: data *)
(* ================================================================== *)

Module ReactCompositeComponent.

Inductive CompositeTypes := ImpureClass | PureClass | StatelessFunctional.

Inductive NodeTypes := HOST | COMPOSITE | EMPTY.

(** What a lifecycle method reads of its receiver [inst]. *)
Record view := View { v_props : objref; v_state : jsval; v_context : objref }.

(** What a lifecycle method may ask of [this.updater] while it runs. *)
Inductive effect :=
| SetState (partialState : jsval)
| ReplaceState (completeState : jsval)
| ForceUpdate.

(** A run of user code: the updater calls it made, in order, and how it
    completed. *)
Record hookResult := HookResult { effects : list effect; completion : outcome unit }.

(** The methods an instance of a class component carries.  [E] is the
    type of elements, which [render] produces. *)
Record methodsOf (E : Type) := {
  render : view → outcome E;
  componentWillMount : option (view → hookResult);
  componentDidMount : option (view → hookResult);
  unstable_handleError : option (error → view → hookResult);
  componentWillReceiveProps : option (objref → objref → view → hookResult);
  shouldComponentUpdate : option (objref → jsval → objref → view → bool);
  componentWillUpdate : option (objref → jsval → objref → view → hookResult);
  componentDidUpdate : option (objref → jsval → objref → view → hookResult);
  componentWillUnmount : option (view → hookResult);
  getChildContext : option (view → option (gmap string fval));
}.
Arguments render {E}.
Arguments componentWillMount {E}.
Arguments componentDidMount {E}.
Arguments unstable_handleError {E}.
Arguments componentWillReceiveProps {E}.
Arguments shouldComponentUpdate {E}.
Arguments componentWillUpdate {E}.
Arguments componentDidUpdate {E}.
Arguments componentWillUnmount {E}.
Arguments getChildContext {E}.

(** What calling [Component] gives.  [BClass] is a component whose call
    yields an object with a [render] method: through [new] when
    [Component.prototype.isReactComponent] is set, as a factory otherwise;
    [ctor] gives the [state] the new object carries ([JUndefined] when the
    constructor sets none).  [BFunctional] is a plain function of
    [(props, context)] that returns an element or [null]. *)
Inductive bodyOf (E : Type) :=
| BClass (isReactComponent : bool) (ctor : objref → objref → outcome jsval)
         (methods : methodsOf E)
| BFunctional (fn : objref → objref → outcome E).
Arguments BClass {E}.
Arguments BFunctional {E}.

(** The [type] of a composite element.  [typeId] stands for the identity of
    the function object; [contextTypes] and [childContextTypes] are the own
    property names of the two objects, when the type declares them. *)
Record componentOf (E : Type) := {
  typeId : nat;
  displayName : string;
  isPureReactComponent : bool;
  contextTypes : option (list string);
  childContextTypes : option (list string);
  body : bodyOf E;
}.
Arguments typeId {E}.
Arguments displayName {E}.
Arguments isPureReactComponent {E}.
Arguments contextTypes {E}.
Arguments childContextTypes {E}.
Arguments body {E}.

(** Elements: [null]/[false], a host element with its children, or a
    composite element; [id] stands for the identity of the element object. *)
Inductive element :=
| EEmpty
| EHost (tag : string) (key : option string) (children : list element)
| EComposite (id : nat) (type : componentOf element) (key : option string)
             (props : objref).

(** A composite element, as [_currentElement] of a composite instance. *)
Record celement := CElement {
  el_id : nat;
  el_type : componentOf element;
  el_key : option string;
  el_props : objref;
}.

Definition element_of (ce : celement) : element :=
  EComposite (el_id ce) (el_type ce) (el_key ce) (el_props ce).

(** Whose methods [inst] has: those of a class, or only the [render] of
    [StatelessComponent.prototype]. *)
Inductive instMethods :=
| OfClass (m : methodsOf element)
| OfStatelessComponent.

(** The public instance [inst]. *)
Record publicInstance := {
  inst_props : objref;
  inst_context : objref;
  inst_state : jsval;
  inst_calledComponentWillUnmount : bool;
  inst_methods : instMethods;
}.

(** The fields [construct] gives a composite instance; [I] is the type of
    instances, for [_renderedComponent]. *)
Record compositeOf (I : Type) := {
  _currentElement : celement;
  _rootNodeID : nat;
  _compositeType : option CompositeTypes;
  _instance : option publicInstance;
  _hostParent : option nat;
  _hostContainerInfo : option nat;
  _updateBatchNumber : option nat;
  _pendingElement : option celement;
  _pendingStateQueue : option (list jsval);
  _pendingReplaceState : bool;
  _pendingForceUpdate : bool;
  _renderedNodeType : option NodeTypes;
  _renderedComponent : option I;
  _context : option objref;
  _mountOrder : nat;
  _topLevelWrapper : option nat;
  _pendingCallbacks : option (list nat);
  _calledComponentWillUnmount : bool;
}.
Arguments _currentElement {I}.
Arguments _rootNodeID {I}.
Arguments _compositeType {I}.
Arguments _instance {I}.
Arguments _hostParent {I}.
Arguments _hostContainerInfo {I}.
Arguments _updateBatchNumber {I}.
Arguments _pendingElement {I}.
Arguments _pendingStateQueue {I}.
Arguments _pendingReplaceState {I}.
Arguments _pendingForceUpdate {I}.
Arguments _renderedNodeType {I}.
Arguments _renderedComponent {I}.
Arguments _context {I}.
Arguments _mountOrder {I}.
Arguments _topLevelWrapper {I}.
Arguments _pendingCallbacks {I}.
Arguments _calledComponentWillUnmount {I}.

(** Internal instances. *)
Inductive instance :=
| IEmpty
| IHost (tag : string) (key : option string) (renderedChildren : list instance)
| IComposite (c : compositeOf instance).

Definition composite : Type := compositeOf instance.

Inductive markup :=
| MEmpty
| MHost (tag : string) (inner : list markup).

(** What the code did, in order.  An instance is named by its
    [_mountOrder]. *)
Inductive event :=
| EvMountOrder (id : nat)
| EvConstruct (id : nat)
| EvComponentWillMount (id : nat)
| EvRender (id : nat)
| EvInstantiateChild (id : nat) (t : NodeTypes)
| EvChildMounted (id : nat)
| EvEnqueueDidMount (id : nat)
| EvCheckpoint (id : nat) (len : nat)
| EvRollback (id : nat) (len : nat)
| EvHandleError (id : nat) (e : error)
| EvUnmount (id : nat) (safely : bool)
| EvComponentWillUnmount (id : nat) (safely : bool)
| EvEnqueueUpdate (id : nat)
| EvComponentWillReceiveProps (id : nat)
| EvShouldComponentUpdate (id : nat) (answer : bool)
| EvComponentWillUpdate (id : nat)
| EvEnqueueDidUpdate (id : nat)
| EvHostMount (tag : string)
| EvHostUnmount (tag : string) (safely : bool).

(** A callback on the transaction's mount-ready queue. *)
Inductive mountReadyCallback :=
| DidMount (id : nat)
| DidUpdate (id : nat) (prevProps : objref) (prevState : jsval) (prevContext : objref).

(** The state outside the instances: the counter [nextMountID], the
    allocator of object identities, the mount-ready queue of the enclosing
    transaction, the errors kept by [ReactErrorUtils], and the trace. *)
Record world := {
  nextMountID : nat;
  nextObjectID : nat;
  reactMountReady : list mountReadyCallback;
  caughtErrors : list error;
  trace : list event;
}.

Definition initialWorld : world :=
  {| nextMountID := 1; nextObjectID := 1; reactMountReady := [];
     caughtErrors := []; trace := [] |}.

(** Field assignment, one function per field. *)

Definition set_currentElement {I} (v : celement) (r : compositeOf I) : compositeOf I :=
  {| _currentElement := v; _rootNodeID := _rootNodeID r;
     _compositeType := _compositeType r; _instance := _instance r;
     _hostParent := _hostParent r;
     _hostContainerInfo := _hostContainerInfo r;
     _updateBatchNumber := _updateBatchNumber r;
     _pendingElement := _pendingElement r;
     _pendingStateQueue := _pendingStateQueue r;
     _pendingReplaceState := _pendingReplaceState r;
     _pendingForceUpdate := _pendingForceUpdate r;
     _renderedNodeType := _renderedNodeType r;
     _renderedComponent := _renderedComponent r; _context := _context r;
     _mountOrder := _mountOrder r; _topLevelWrapper := _topLevelWrapper r;
     _pendingCallbacks := _pendingCallbacks r;
     _calledComponentWillUnmount := _calledComponentWillUnmount r |}.

Definition set_rootNodeID {I} (v : nat) (r : compositeOf I) : compositeOf I :=
  {| _currentElement := _currentElement r; _rootNodeID := v;
     _compositeType := _compositeType r; _instance := _instance r;
     _hostParent := _hostParent r;
     _hostContainerInfo := _hostContainerInfo r;
     _updateBatchNumber := _updateBatchNumber r;
     _pendingElement := _pendingElement r;
     _pendingStateQueue := _pendingStateQueue r;
     _pendingReplaceState := _pendingReplaceState r;
     _pendingForceUpdate := _pendingForceUpdate r;
     _renderedNodeType := _renderedNodeType r;
     _renderedComponent := _renderedComponent r; _context := _context r;
     _mountOrder := _mountOrder r; _topLevelWrapper := _topLevelWrapper r;
     _pendingCallbacks := _pendingCallbacks r;
     _calledComponentWillUnmount := _calledComponentWillUnmount r |}.

Definition set_compositeType {I} (v : option CompositeTypes) (r : compositeOf I) : compositeOf I :=
  {| _currentElement := _currentElement r; _rootNodeID := _rootNodeID r;
     _compositeType := v; _instance := _instance r;
     _hostParent := _hostParent r;
     _hostContainerInfo := _hostContainerInfo r;
     _updateBatchNumber := _updateBatchNumber r;
     _pendingElement := _pendingElement r;
     _pendingStateQueue := _pendingStateQueue r;
     _pendingReplaceState := _pendingReplaceState r;
     _pendingForceUpdate := _pendingForceUpdate r;
     _renderedNodeType := _renderedNodeType r;
     _renderedComponent := _renderedComponent r; _context := _context r;
     _mountOrder := _mountOrder r; _topLevelWrapper := _topLevelWrapper r;
     _pendingCallbacks := _pendingCallbacks r;
     _calledComponentWillUnmount := _calledComponentWillUnmount r |}.

Definition set_instance {I} (v : option publicInstance) (r : compositeOf I) : compositeOf I :=
  {| _currentElement := _currentElement r; _rootNodeID := _rootNodeID r;
     _compositeType := _compositeType r; _instance := v;
     _hostParent := _hostParent r;
     _hostContainerInfo := _hostContainerInfo r;
     _updateBatchNumber := _updateBatchNumber r;
     _pendingElement := _pendingElement r;
     _pendingStateQueue := _pendingStateQueue r;
     _pendingReplaceState := _pendingReplaceState r;
     _pendingForceUpdate := _pendingForceUpdate r;
     _renderedNodeType := _renderedNodeType r;
     _renderedComponent := _renderedComponent r; _context := _context r;
     _mountOrder := _mountOrder r; _topLevelWrapper := _topLevelWrapper r;
     _pendingCallbacks := _pendingCallbacks r;
     _calledComponentWillUnmount := _calledComponentWillUnmount r |}.

Definition set_hostParent {I} (v : option nat) (r : compositeOf I) : compositeOf I :=
  {| _currentElement := _currentElement r; _rootNodeID := _rootNodeID r;
     _compositeType := _compositeType r; _instance := _instance r;
     _hostParent := v; _hostContainerInfo := _hostContainerInfo r;
     _updateBatchNumber := _updateBatchNumber r;
     _pendingElement := _pendingElement r;
     _pendingStateQueue := _pendingStateQueue r;
     _pendingReplaceState := _pendingReplaceState r;
     _pendingForceUpdate := _pendingForceUpdate r;
     _renderedNodeType := _renderedNodeType r;
     _renderedComponent := _renderedComponent r; _context := _context r;
     _mountOrder := _mountOrder r; _topLevelWrapper := _topLevelWrapper r;
     _pendingCallbacks := _pendingCallbacks r;
     _calledComponentWillUnmount := _calledComponentWillUnmount r |}.

Definition set_hostContainerInfo {I} (v : option nat) (r : compositeOf I) : compositeOf I :=
  {| _currentElement := _currentElement r; _rootNodeID := _rootNodeID r;
     _compositeType := _compositeType r; _instance := _instance r;
     _hostParent := _hostParent r; _hostContainerInfo := v;
     _updateBatchNumber := _updateBatchNumber r;
     _pendingElement := _pendingElement r;
     _pendingStateQueue := _pendingStateQueue r;
     _pendingReplaceState := _pendingReplaceState r;
     _pendingForceUpdate := _pendingForceUpdate r;
     _renderedNodeType := _renderedNodeType r;
     _renderedComponent := _renderedComponent r; _context := _context r;
     _mountOrder := _mountOrder r; _topLevelWrapper := _topLevelWrapper r;
     _pendingCallbacks := _pendingCallbacks r;
     _calledComponentWillUnmount := _calledComponentWillUnmount r |}.

Definition set_updateBatchNumber {I} (v : option nat) (r : compositeOf I) : compositeOf I :=
  {| _currentElement := _currentElement r; _rootNodeID := _rootNodeID r;
     _compositeType := _compositeType r; _instance := _instance r;
     _hostParent := _hostParent r;
     _hostContainerInfo := _hostContainerInfo r; _updateBatchNumber := v;
     _pendingElement := _pendingElement r;
     _pendingStateQueue := _pendingStateQueue r;
     _pendingReplaceState := _pendingReplaceState r;
     _pendingForceUpdate := _pendingForceUpdate r;
     _renderedNodeType := _renderedNodeType r;
     _renderedComponent := _renderedComponent r; _context := _context r;
     _mountOrder := _mountOrder r; _topLevelWrapper := _topLevelWrapper r;
     _pendingCallbacks := _pendingCallbacks r;
     _calledComponentWillUnmount := _calledComponentWillUnmount r |}.

Definition set_pendingElement {I} (v : option celement) (r : compositeOf I) : compositeOf I :=
  {| _currentElement := _currentElement r; _rootNodeID := _rootNodeID r;
     _compositeType := _compositeType r; _instance := _instance r;
     _hostParent := _hostParent r;
     _hostContainerInfo := _hostContainerInfo r;
     _updateBatchNumber := _updateBatchNumber r; _pendingElement := v;
     _pendingStateQueue := _pendingStateQueue r;
     _pendingReplaceState := _pendingReplaceState r;
     _pendingForceUpdate := _pendingForceUpdate r;
     _renderedNodeType := _renderedNodeType r;
     _renderedComponent := _renderedComponent r; _context := _context r;
     _mountOrder := _mountOrder r; _topLevelWrapper := _topLevelWrapper r;
     _pendingCallbacks := _pendingCallbacks r;
     _calledComponentWillUnmount := _calledComponentWillUnmount r |}.

Definition set_pendingStateQueue {I} (v : option (list jsval)) (r : compositeOf I) : compositeOf I :=
  {| _currentElement := _currentElement r; _rootNodeID := _rootNodeID r;
     _compositeType := _compositeType r; _instance := _instance r;
     _hostParent := _hostParent r;
     _hostContainerInfo := _hostContainerInfo r;
     _updateBatchNumber := _updateBatchNumber r;
     _pendingElement := _pendingElement r; _pendingStateQueue := v;
     _pendingReplaceState := _pendingReplaceState r;
     _pendingForceUpdate := _pendingForceUpdate r;
     _renderedNodeType := _renderedNodeType r;
     _renderedComponent := _renderedComponent r; _context := _context r;
     _mountOrder := _mountOrder r; _topLevelWrapper := _topLevelWrapper r;
     _pendingCallbacks := _pendingCallbacks r;
     _calledComponentWillUnmount := _calledComponentWillUnmount r |}.

Definition set_pendingReplaceState {I} (v : bool) (r : compositeOf I) : compositeOf I :=
  {| _currentElement := _currentElement r; _rootNodeID := _rootNodeID r;
     _compositeType := _compositeType r; _instance := _instance r;
     _hostParent := _hostParent r;
     _hostContainerInfo := _hostContainerInfo r;
     _updateBatchNumber := _updateBatchNumber r;
     _pendingElement := _pendingElement r;
     _pendingStateQueue := _pendingStateQueue r; _pendingReplaceState := v;
     _pendingForceUpdate := _pendingForceUpdate r;
     _renderedNodeType := _renderedNodeType r;
     _renderedComponent := _renderedComponent r; _context := _context r;
     _mountOrder := _mountOrder r; _topLevelWrapper := _topLevelWrapper r;
     _pendingCallbacks := _pendingCallbacks r;
     _calledComponentWillUnmount := _calledComponentWillUnmount r |}.

Definition set_pendingForceUpdate {I} (v : bool) (r : compositeOf I) : compositeOf I :=
  {| _currentElement := _currentElement r; _rootNodeID := _rootNodeID r;
     _compositeType := _compositeType r; _instance := _instance r;
     _hostParent := _hostParent r;
     _hostContainerInfo := _hostContainerInfo r;
     _updateBatchNumber := _updateBatchNumber r;
     _pendingElement := _pendingElement r;
     _pendingStateQueue := _pendingStateQueue r;
     _pendingReplaceState := _pendingReplaceState r;
     _pendingForceUpdate := v; _renderedNodeType := _renderedNodeType r;
     _renderedComponent := _renderedComponent r; _context := _context r;
     _mountOrder := _mountOrder r; _topLevelWrapper := _topLevelWrapper r;
     _pendingCallbacks := _pendingCallbacks r;
     _calledComponentWillUnmount := _calledComponentWillUnmount r |}.

Definition set_renderedNodeType {I} (v : option NodeTypes) (r : compositeOf I) : compositeOf I :=
  {| _currentElement := _currentElement r; _rootNodeID := _rootNodeID r;
     _compositeType := _compositeType r; _instance := _instance r;
     _hostParent := _hostParent r;
     _hostContainerInfo := _hostContainerInfo r;
     _updateBatchNumber := _updateBatchNumber r;
     _pendingElement := _pendingElement r;
     _pendingStateQueue := _pendingStateQueue r;
     _pendingReplaceState := _pendingReplaceState r;
     _pendingForceUpdate := _pendingForceUpdate r; _renderedNodeType := v;
     _renderedComponent := _renderedComponent r; _context := _context r;
     _mountOrder := _mountOrder r; _topLevelWrapper := _topLevelWrapper r;
     _pendingCallbacks := _pendingCallbacks r;
     _calledComponentWillUnmount := _calledComponentWillUnmount r |}.

Definition set_renderedComponent {I} (v : option I) (r : compositeOf I) : compositeOf I :=
  {| _currentElement := _currentElement r; _rootNodeID := _rootNodeID r;
     _compositeType := _compositeType r; _instance := _instance r;
     _hostParent := _hostParent r;
     _hostContainerInfo := _hostContainerInfo r;
     _updateBatchNumber := _updateBatchNumber r;
     _pendingElement := _pendingElement r;
     _pendingStateQueue := _pendingStateQueue r;
     _pendingReplaceState := _pendingReplaceState r;
     _pendingForceUpdate := _pendingForceUpdate r;
     _renderedNodeType := _renderedNodeType r; _renderedComponent := v;
     _context := _context r; _mountOrder := _mountOrder r;
     _topLevelWrapper := _topLevelWrapper r;
     _pendingCallbacks := _pendingCallbacks r;
     _calledComponentWillUnmount := _calledComponentWillUnmount r |}.

Definition set_context {I} (v : option objref) (r : compositeOf I) : compositeOf I :=
  {| _currentElement := _currentElement r; _rootNodeID := _rootNodeID r;
     _compositeType := _compositeType r; _instance := _instance r;
     _hostParent := _hostParent r;
     _hostContainerInfo := _hostContainerInfo r;
     _updateBatchNumber := _updateBatchNumber r;
     _pendingElement := _pendingElement r;
     _pendingStateQueue := _pendingStateQueue r;
     _pendingReplaceState := _pendingReplaceState r;
     _pendingForceUpdate := _pendingForceUpdate r;
     _renderedNodeType := _renderedNodeType r;
     _renderedComponent := _renderedComponent r; _context := v;
     _mountOrder := _mountOrder r; _topLevelWrapper := _topLevelWrapper r;
     _pendingCallbacks := _pendingCallbacks r;
     _calledComponentWillUnmount := _calledComponentWillUnmount r |}.

Definition set_mountOrder {I} (v : nat) (r : compositeOf I) : compositeOf I :=
  {| _currentElement := _currentElement r; _rootNodeID := _rootNodeID r;
     _compositeType := _compositeType r; _instance := _instance r;
     _hostParent := _hostParent r;
     _hostContainerInfo := _hostContainerInfo r;
     _updateBatchNumber := _updateBatchNumber r;
     _pendingElement := _pendingElement r;
     _pendingStateQueue := _pendingStateQueue r;
     _pendingReplaceState := _pendingReplaceState r;
     _pendingForceUpdate := _pendingForceUpdate r;
     _renderedNodeType := _renderedNodeType r;
     _renderedComponent := _renderedComponent r; _context := _context r;
     _mountOrder := v; _topLevelWrapper := _topLevelWrapper r;
     _pendingCallbacks := _pendingCallbacks r;
     _calledComponentWillUnmount := _calledComponentWillUnmount r |}.

Definition set_topLevelWrapper {I} (v : option nat) (r : compositeOf I) : compositeOf I :=
  {| _currentElement := _currentElement r; _rootNodeID := _rootNodeID r;
     _compositeType := _compositeType r; _instance := _instance r;
     _hostParent := _hostParent r;
     _hostContainerInfo := _hostContainerInfo r;
     _updateBatchNumber := _updateBatchNumber r;
     _pendingElement := _pendingElement r;
     _pendingStateQueue := _pendingStateQueue r;
     _pendingReplaceState := _pendingReplaceState r;
     _pendingForceUpdate := _pendingForceUpdate r;
     _renderedNodeType := _renderedNodeType r;
     _renderedComponent := _renderedComponent r; _context := _context r;
     _mountOrder := _mountOrder r; _topLevelWrapper := v;
     _pendingCallbacks := _pendingCallbacks r;
     _calledComponentWillUnmount := _calledComponentWillUnmount r |}.

Definition set_pendingCallbacks {I} (v : option (list nat)) (r : compositeOf I) : compositeOf I :=
  {| _currentElement := _currentElement r; _rootNodeID := _rootNodeID r;
     _compositeType := _compositeType r; _instance := _instance r;
     _hostParent := _hostParent r;
     _hostContainerInfo := _hostContainerInfo r;
     _updateBatchNumber := _updateBatchNumber r;
     _pendingElement := _pendingElement r;
     _pendingStateQueue := _pendingStateQueue r;
     _pendingReplaceState := _pendingReplaceState r;
     _pendingForceUpdate := _pendingForceUpdate r;
     _renderedNodeType := _renderedNodeType r;
     _renderedComponent := _renderedComponent r; _context := _context r;
     _mountOrder := _mountOrder r; _topLevelWrapper := _topLevelWrapper r;
     _pendingCallbacks := v;
     _calledComponentWillUnmount := _calledComponentWillUnmount r |}.

Definition set_calledComponentWillUnmount {I} (v : bool) (r : compositeOf I) : compositeOf I :=
  {| _currentElement := _currentElement r; _rootNodeID := _rootNodeID r;
     _compositeType := _compositeType r; _instance := _instance r;
     _hostParent := _hostParent r;
     _hostContainerInfo := _hostContainerInfo r;
     _updateBatchNumber := _updateBatchNumber r;
     _pendingElement := _pendingElement r;
     _pendingStateQueue := _pendingStateQueue r;
     _pendingReplaceState := _pendingReplaceState r;
     _pendingForceUpdate := _pendingForceUpdate r;
     _renderedNodeType := _renderedNodeType r;
     _renderedComponent := _renderedComponent r; _context := _context r;
     _mountOrder := _mountOrder r; _topLevelWrapper := _topLevelWrapper r;
     _pendingCallbacks := _pendingCallbacks r;
     _calledComponentWillUnmount := v |}.

Definition set_inst_props (v : objref) (r : publicInstance) : publicInstance :=
  {| inst_props := v; inst_context := inst_context r;
     inst_state := inst_state r;
     inst_calledComponentWillUnmount := inst_calledComponentWillUnmount r;
     inst_methods := inst_methods r |}.

Definition set_inst_context (v : objref) (r : publicInstance) : publicInstance :=
  {| inst_props := inst_props r; inst_context := v;
     inst_state := inst_state r;
     inst_calledComponentWillUnmount := inst_calledComponentWillUnmount r;
     inst_methods := inst_methods r |}.

Definition set_inst_state (v : jsval) (r : publicInstance) : publicInstance :=
  {| inst_props := inst_props r; inst_context := inst_context r;
     inst_state := v;
     inst_calledComponentWillUnmount := inst_calledComponentWillUnmount r;
     inst_methods := inst_methods r |}.

Definition set_inst_calledComponentWillUnmount (v : bool) (r : publicInstance) : publicInstance :=
  {| inst_props := inst_props r; inst_context := inst_context r;
     inst_state := inst_state r; inst_calledComponentWillUnmount := v;
     inst_methods := inst_methods r |}.

Definition set_inst_methods (v : instMethods) (r : publicInstance) : publicInstance :=
  {| inst_props := inst_props r; inst_context := inst_context r;
     inst_state := inst_state r;
     inst_calledComponentWillUnmount := inst_calledComponentWillUnmount r;
     inst_methods := v |}.

Definition set_nextMountID (v : nat) (r : world) : world :=
  {| nextMountID := v; nextObjectID := nextObjectID r;
     reactMountReady := reactMountReady r; caughtErrors := caughtErrors r;
     trace := trace r |}.

Definition set_nextObjectID (v : nat) (r : world) : world :=
  {| nextMountID := nextMountID r; nextObjectID := v;
     reactMountReady := reactMountReady r; caughtErrors := caughtErrors r;
     trace := trace r |}.

Definition set_reactMountReady (v : list mountReadyCallback) (r : world) : world :=
  {| nextMountID := nextMountID r; nextObjectID := nextObjectID r;
     reactMountReady := v; caughtErrors := caughtErrors r; trace := trace r |}.

Definition set_caughtErrors (v : list error) (r : world) : world :=
  {| nextMountID := nextMountID r; nextObjectID := nextObjectID r;
     reactMountReady := reactMountReady r; caughtErrors := v;
     trace := trace r |}.

Definition set_trace (v : list event) (r : world) : world :=
  {| nextMountID := nextMountID r; nextObjectID := nextObjectID r;
     reactMountReady := reactMountReady r; caughtErrors := caughtErrors r;
     trace := v |}.


(* ------------------------------------------------------------------ *)
(** *** The monad of a method call *)

(** A method of a composite instance runs on [this] and the world, and
    returns or throws; what it assigned before it threw stays assigned. *)
Definition M (A : Type) : Type :=
  composite * world → (composite * world) * outcome A.

Definition ret {A} (a : A) : M A := λ s, (s, Returns a).

Definition throw {A} (e : error) : M A := λ s, (s, Throws e).

Definition bind {A B} (m : M A) (k : A → M B) : M B :=
  λ s, match m s with
       | (s', Returns a) => k a s'
       | (s', Throws e) => (s', Throws e)
       end.

(** [try { m } catch (e) { handler e }] *)
Definition tryCatch {A} (m : M A) (handler : error → M A) : M A :=
  λ s, match m s with
       | (s', Returns a) => (s', Returns a)
       | (s', Throws e) => handler e s'
       end.

Notation "'let*' x ':=' m 'in' k" := (bind m (λ x, k))
  (at level 10, x name, m at level 100, k at level 200).
Notation "'do' m1 ';;;' m2" := (bind m1 (λ _, m2))
  (at level 10, m1 at level 100, m2 at level 200).

Definition getThis : M composite := λ s, (s, Returns (fst s)).

Definition getWorld : M world := λ s, (s, Returns (snd s)).

(** [this.f = v], as the function that sets the field. *)
Definition assign (f : composite → composite) : M unit :=
  λ s, ((f (fst s), snd s), Returns tt).

Definition modifyWorld (f : world → world) : M unit :=
  λ s, ((fst s, f (snd s)), Returns tt).

Definition emit (ev : event) : M unit :=
  modifyWorld (λ w, set_trace (trace w ++ [ev]) w).

Definition when (b : bool) (m : M unit) : M unit := if b then m else ret tt.

Definition liftOutcome {A} (r : outcome A) : M A :=
  match r with Returns a => ret a | Throws e => throw e end.

(** [inst.p] for [var inst = this._instance]: a [TypeError] on [null]. *)
Definition thisInstance : M publicInstance :=
  let* this := getThis in
  match _instance this with
  | Some inst => ret inst
  | None => throw (TypeError "Cannot read property of null")
  end.

(** [inst.f = v] *)
Definition assignInst (f : publicInstance → publicInstance) : M unit :=
  assign (λ this, set_instance (f <$> _instance this) this).

(** An object literal [{}], given its properties: a fresh identity. *)
Definition newObject (fields : gmap string fval) : M objref :=
  let* w := getWorld in
  do modifyWorld (set_nextObjectID (S (nextObjectID w))) ;;;
  ret (ObjRef (nextObjectID w) fields).

Definition view_of (inst : publicInstance) : view :=
  View (inst_props inst) (inst_state inst) (inst_context inst).

Definition methods_of (inst : publicInstance) : option (methodsOf element) :=
  match inst_methods inst with
  | OfClass m => Some m
  | OfStatelessComponent => None
  end.

(** [inst.h], for a lifecycle method [h]: absent on a stateless instance. *)
Definition method {H} (h : methodsOf element → option H) (inst : publicInstance)
  : option H :=
  methods_of inst ≫= h.

(* ------------------------------------------------------------------ *)
(** *** Collaborators that are not part of [ReactCompositeComponent] *)

(** Modelled from the spec: [ReactUpdateQueue], the [updateQueue] handle
    bound onto the instance, "the capability by which the unit may later
    call enqueueUpdate/enqueueState on itself".  A state request appends
    to [_pendingStateQueue]; a replace request makes its state the only
    entry and sets the replace flag ("a replace entry, if present, must be
    the first entry"); each marks the instance dirty. *)
Definition enqueueUpdate : M unit :=
  let* this := getThis in
  emit (EvEnqueueUpdate (_mountOrder this)).

Definition applyEffect (eff : effect) : M unit :=
  match eff with
  | SetState partialState =>
      do assign (λ this,
           set_pendingStateQueue
             (Some (default [] (_pendingStateQueue this) ++ [partialState])) this) ;;;
      enqueueUpdate
  | ReplaceState completeState =>
      do assign (set_pendingStateQueue (Some [completeState])) ;;;
      do assign (set_pendingReplaceState true) ;;;
      enqueueUpdate
  | ForceUpdate =>
      do assign (set_pendingForceUpdate true) ;;;
      enqueueUpdate
  end.

Fixpoint applyEffects (effs : list effect) : M unit :=
  match effs with
  | [] => ret tt
  | eff :: effs' => do applyEffect eff ;;; applyEffects effs'
  end.

(** A call of user code: what it asked of the updater, then its
    completion. *)
Definition runHook (h : hookResult) : M unit :=
  do applyEffects (effects h) ;;;
  liftOutcome (completion h).

(** Modelled from the spec: [ReactErrorUtils.invokeGuardedCallback], "a
    guarded call that captures and defers any thrown error rather than
    letting it abort". *)
Definition invokeGuardedCallback (name : string) (func : M unit) : M unit :=
  tryCatch func
    (λ e, modifyWorld (λ w, set_caughtErrors (caughtErrors w ++ [e]) w)).

(** Modelled from the spec: the transaction's [checkpoint] and [rollback],
    which "forward to an internally held callback-queue-like wrapper";
    [checkpoint] "returns current length" and [rollback(n)] "truncates back
    to length n". *)
Definition transaction_checkpoint : M nat :=
  let* w := getWorld in
  let* this := getThis in
  do emit (EvCheckpoint (_mountOrder this) (length (reactMountReady w))) ;;;
  ret (length (reactMountReady w)).

Definition transaction_rollback (checkpoint : nat) : M unit :=
  let* this := getThis in
  do modifyWorld (λ w, set_reactMountReady (take checkpoint (reactMountReady w)) w) ;;;
  emit (EvRollback (_mountOrder this) checkpoint).

(** [transaction.getReactMountReady().enqueue(callback, inst)] *)
Definition getReactMountReady_enqueue (cb : mountReadyCallback) : M unit :=
  modifyWorld (λ w, set_reactMountReady (reactMountReady w ++ [cb]) w).

(** Modelled from the spec: [ReactNodeTypes.getType], which classifies "the
    child descriptor's node kind (empty/null, host, composite)". *)
Definition getType (node : element) : NodeTypes :=
  match node with
  | EEmpty => EMPTY
  | EHost _ _ _ => HOST
  | EComposite _ _ _ _ => COMPOSITE
  end.

(* ------------------------------------------------------------------ *)
(** *** [construct] and the small helpers *)

Definition shouldConstruct {E} (Component : componentOf E) : bool :=
  match body Component with
  | BClass isReactComponent _ _ => isReactComponent
  | BFunctional _ => false
  end.

Definition isPureComponent {E} (Component : componentOf E) : bool :=
  isPureReactComponent Component.

Definition construct (element : celement) : composite :=
  {| _currentElement := element;
     _rootNodeID := 0;
     _compositeType := None;
     _instance := None;
     _hostParent := None;
     _hostContainerInfo := None;
     _updateBatchNumber := None;
     _pendingElement := None;
     _pendingStateQueue := None;
     _pendingReplaceState := false;
     _pendingForceUpdate := false;
     _renderedNodeType := None;
     _renderedComponent := None;
     _context := None;
     _mountOrder := 0;
     _topLevelWrapper := None;
     _pendingCallbacks := None;
     _calledComponentWillUnmount := false |}.

(** Modelled from the spec: [instantiateReactComponent], which
    "instantiates a corresponding child instance" for the node kind; a
    composite one is built by [construct]. *)
Definition instantiateReactComponent (node : element) : instance :=
  match node with
  | EEmpty => IEmpty
  | EHost tag key _ => IHost tag key []
  | EComposite id type key props =>
      IComposite (construct (CElement id type key props))
  end.

Definition getName (this : composite) : string :=
  displayName (el_type (_currentElement this)).

(* ------------------------------------------------------------------ *)
(** *** [_processPendingState] *)

(** One round of the loop: [Object.assign(nextState, typeof partial ===
    'function' ? partial.call(inst, nextState, props, context) : partial)].
    The updater is taken as a function of its three arguments. *)
Definition mergePartial (props context : objref)
    (nextState : gmap string fval) (partial : jsval) : gmap string fval :=
  match partial with
  | JFun f =>
      match f nextState props context with
      | Some fields => fields ∪ nextState
      | None => nextState
      end
  | _ => Object_assign nextState partial
  end.

Definition _processPendingState (props context : objref) : M jsval :=
  let* this := getThis in
  let queue := _pendingStateQueue this in
  let replace := _pendingReplaceState this in
  do assign (set_pendingReplaceState false) ;;;
  do assign (set_pendingStateQueue None) ;;;
  match queue with
  | None =>
      let* inst := thisInstance in
      ret (inst_state inst)
  | Some queue =>
      match replace, queue with
      | true, [entry] => ret entry
      | _, _ =>
          let* w := getWorld in
          do modifyWorld (set_nextObjectID (S (nextObjectID w))) ;;;
          let* base :=
            (if replace then ret (default JUndefined (queue !! 0))
             else let* inst := thisInstance in ret (inst_state inst)) in
          let nextState :=
            foldl (mergePartial props context) (Object_assign ∅ base)
                  (drop (if replace then 1 else 0) queue) in
          ret (JObj (ObjRef (nextObjectID w) nextState))
      end
  end.

(** [if (this._pendingStateQueue) inst.state = this._processPendingState(
    inst.props, inst.context)] *)
Definition mergePendingStateIfAny : M unit :=
  let* this := getThis in
  match _pendingStateQueue this with
  | Some _ =>
      let* inst := thisInstance in
      let* nextState := _processPendingState (inst_props inst) (inst_context inst) in
      assignInst (set_inst_state nextState)
  | None => ret tt
  end.

(* ------------------------------------------------------------------ *)
(** *** Context *)

(** An unmasked context is an object or [null].  [contextTypes] is given
    by the names a [for-in] over it goes through. *)
Definition _maskContext (context : option objref) : M objref :=
  let* this := getThis in
  match contextTypes (el_type (_currentElement this)) with
  | None => ret emptyObject
  | Some names =>
      let* maskedContext := newObject ∅ in
      match names, context with
      | [], _ => ret maskedContext
      | _ :: _, None => throw (TypeError "Cannot read property of null")
      | _ :: _, Some context =>
          ret (ObjRef (oid maskedContext)
                 (list_to_map
                    ((λ name, (name, getProperty (ofields context) name))
                       <$> names)))
      end
  end.

Definition _processContext (context : option objref) : M objref :=
  _maskContext context.

Definition _processChildContext (currentContext : option objref)
  : M (option objref) :=
  let* this := getThis in
  let Component := el_type (_currentElement this) in
  let* inst := thisInstance in
  match method getChildContext inst ≫= (λ g, g (view_of inst)) with
  | Some childContext =>
      match childContextTypes Component with
      | None =>
          throw (InvariantViolation
                   "getChildContext(): childContextTypes must be defined")
      | Some declared =>
          (* name in Component.childContextTypes, for each name *)
          if forallb (hasProperty declared) (map fst (map_to_list childContext))
          then
            let* merged :=
              newObject (childContext ∪ from_option ofields ∅ currentContext) in
            ret (Some merged)
          else throw (InvariantViolation
                        "getChildContext(): key is not defined in childContextTypes")
      end
  | None => ret currentContext
  end.

(* ------------------------------------------------------------------ *)
(** *** [unmountComponent] *)

(** The result of a call on an instance: the instance as the call left it,
    the world, and the outcome. *)
Definition result (A : Type) : Type := instance * world * outcome A.

(** An operation on a child instance that is already bound to the child. *)
Definition childOp (A : Type) : Type := world → result A.

(** Modelled from the spec: the reconciler's polymorphic [unmount(instance,
    safely)], run on [this._renderedComponent]; the child is left as its own
    [unmountComponent] left it. *)
Definition ReactReconciler_unmountComponent (unmountChild : option (childOp unit))
  : M unit :=
  λ s, match unmountChild with
       | Some unmount =>
           let '(child, w, r) := unmount (snd s) in
           ((set_renderedComponent (Some child) (fst s), w), r)
       | None => (s, Returns tt)
       end.

(** [unmountComponent(safely)] of a composite instance.  [unmountChild] is
    the unmount of the instance that [_renderedComponent] holds when the
    method is entered. *)
Definition unmountComposite (safely : bool) (unmountChild : option (childOp unit))
  : M unit :=
  let* this := getThis in
  do emit (EvUnmount (_mountOrder this) safely) ;;;
  if negb (bool_decide (is_Some (_renderedComponent this))) then ret tt else
  let* inst := thisInstance in
  do match method componentWillUnmount inst with
     | Some hook =>
         if negb (inst_calledComponentWillUnmount inst) then
           do assignInst (set_inst_calledComponentWillUnmount true) ;;;
           do emit (EvComponentWillUnmount (_mountOrder this) safely) ;;;
           if safely then
             let name := (getName this +:+ ".componentWillUnmount()")%string in
             invokeGuardedCallback name (runHook (hook (view_of inst)))
           else
             runHook (hook (view_of inst))
         else ret tt
     | None => ret tt
     end ;;;
  let* this := getThis in
  do when (bool_decide (is_Some (_renderedComponent this)))
       (do ReactReconciler_unmountComponent unmountChild ;;;
        do assign (set_renderedNodeType None) ;;;
        do assign (set_renderedComponent None) ;;;
        assign (set_instance None)) ;;;
  do assign (set_pendingStateQueue None) ;;;
  do assign (set_pendingReplaceState false) ;;;
  do assign (set_pendingForceUpdate false) ;;;
  do assign (set_pendingCallbacks None) ;;;
  do assign (set_pendingElement None) ;;;
  do assign (set_context None) ;;;
  do assign (set_rootNodeID 0) ;;;
  assign (set_topLevelWrapper None).

(** Modelled from the spec: the host instance's side of [unmount(instance,
    safely)], which unmounts its children in order with the same flag. *)
Definition unmountChildren (unmountChild : instance → childOp unit)
  : list instance → world → list instance * world * outcome unit :=
  fix go (children : list instance) (w : world) :=
    match children with
    | [] => ([], w, Returns tt)
    | child :: rest =>
        match unmountChild child w with
        | (child', w1, Returns _) =>
            let '(rest', w2, r) := go rest w1 in (child' :: rest', w2, r)
        | (child', w1, Throws e) => (child' :: rest, w1, Throws e)
        end
    end.

Fixpoint unmountComponent (safely : bool) (i : instance) (w : world) {struct i}
  : result unit :=
  match i with
  | IEmpty => (IEmpty, w, Returns tt)
  | IHost tag key children =>
      match unmountChildren (unmountComponent safely) children
              (set_trace (trace w ++ [EvHostUnmount tag safely]) w) with
      | (_, w', Returns _) => (IHost tag key [], w', Returns tt)
      | (children', w', Throws e) => (IHost tag key children', w', Throws e)
      end
  | IComposite this =>
      let unmountChild :=
        match _renderedComponent this with
        | Some child => Some (unmountComponent safely child)
        | None => None
        end in
      let '((this', w'), r) := unmountComposite safely unmountChild (this, w) in
      (IComposite this', w', r)
  end.

(** [this._renderedComponent.unmountComponent(safely)], as the recovery of
    a failed mount calls it: a [TypeError] when the field is [null]. *)
Definition renderedComponent_unmountComponent (safely : bool) : M unit :=
  λ s, match _renderedComponent (fst s) with
       | Some child =>
           let '(child', w, r) := unmountComponent safely child (snd s) in
           ((set_renderedComponent (Some child') (fst s), w), r)
       | None =>
           (s, Throws (TypeError "Cannot read property 'unmountComponent' of null"))
       end.

(* ------------------------------------------------------------------ *)
(** *** [mountComponent] *)

(** The mount of an instance that is already bound to the instance:
    [(hostParent, hostContainerInfo, context)] give the call. *)
Definition mounter : Type :=
  option nat → option nat → option objref → childOp markup.

(** An element that user code produced, with the mount of the instance
    [instantiateReactComponent] makes of it.  Carrying the two together
    makes the recursion of [mountComponent] through [render] structural. *)
Definition rendered : Type := element * mounter.

Definition methods_map {E F} (f : E → F) (m : methodsOf E) : methodsOf F :=
  {| render := λ v, match render m v with
                    | Returns e => Returns (f e)
                    | Throws x => Throws x
                    end;
     componentWillMount := componentWillMount m;
     componentDidMount := componentDidMount m;
     unstable_handleError := unstable_handleError m;
     componentWillReceiveProps := componentWillReceiveProps m;
     shouldComponentUpdate := shouldComponentUpdate m;
     componentWillUpdate := componentWillUpdate m;
     componentDidUpdate := componentDidUpdate m;
     componentWillUnmount := componentWillUnmount m;
     getChildContext := getChildContext m |}.

Definition component_map {E F} (f : E → F) (c : componentOf E) : componentOf F :=
  {| typeId := typeId c;
     displayName := displayName c;
     isPureReactComponent := isPureReactComponent c;
     contextTypes := contextTypes c;
     childContextTypes := childContextTypes c;
     body := match body c with
             | BClass isReactComponent ctor m =>
                 BClass isReactComponent ctor (methods_map f m)
             | BFunctional fn =>
                 BFunctional (λ props context,
                   match fn props context with
                   | Returns e => Returns (f e)
                   | Throws x => Throws x
                   end)
             end |}.

(** What [_constructComponent] returns: an object with a [render] method,
    of which [state] is kept, or what a plain function returned. *)
Inductive constructed :=
| ConstructedInstance (state : jsval)
| ConstructedElement (r : rendered).

(** [new Component(publicProps, publicContext, updateQueue)] when
    [doConstruct], and [Component(publicProps, publicContext, updateQueue)]
    otherwise. *)
Definition _constructComponentWithoutOwner (Component : componentOf rendered)
    (doConstruct : bool) (publicProps publicContext : objref) : M constructed :=
  let* this := getThis in
  do emit (EvConstruct (_mountOrder this)) ;;;
  match body Component with
  | BClass _ ctor _ =>
      let* state := liftOutcome (ctor publicProps publicContext) in
      ret (ConstructedInstance state)
  | BFunctional fn =>
      let* r := liftOutcome (fn publicProps publicContext) in
      ret (ConstructedElement r)
  end.

Definition _constructComponent (Component : componentOf rendered)
    (doConstruct : bool) (publicProps publicContext : objref) : M constructed :=
  _constructComponentWithoutOwner Component doConstruct publicProps publicContext.

(** [inst.render()]: the class's [render], or that of
    [StatelessComponent.prototype], which calls the function. *)
Definition _renderValidatedComponentWithoutOwnerOrContext
    (Component : componentOf rendered) : M rendered :=
  let* this := getThis in
  let* inst := thisInstance in
  do emit (EvRender (_mountOrder this)) ;;;
  match body Component with
  | BClass _ _ m => liftOutcome (render m (view_of inst))
  | BFunctional fn => liftOutcome (fn (inst_props inst) (inst_context inst))
  end.

Definition _renderValidatedComponent (Component : componentOf rendered)
  : M rendered :=
  _renderValidatedComponentWithoutOwnerOrContext Component.

(** Modelled from the spec: the reconciler's polymorphic [mount(instance,
    transaction, hostParent, hostContext, context)], run on the child that
    [_renderedComponent] holds; the child is left as its own
    [mountComponent] left it. *)
Definition ReactReconciler_mountComponent (mountChild : mounter)
    (hostParent hostContainerInfo : option nat) (context : option objref) : M markup :=
  λ s, let '(child, w, r) := mountChild hostParent hostContainerInfo context (snd s) in
       ((set_renderedComponent (Some child) (fst s), w), r).

Definition performInitialMount (Component : componentOf rendered)
    (renderedElement : option rendered)
    (hostParent hostContainerInfo : option nat) (context : option objref) : M markup :=
  let* this := getThis in
  let* inst := thisInstance in
  do match method componentWillMount inst with
     | Some hook =>
         do emit (EvComponentWillMount (_mountOrder this)) ;;;
         do runHook (hook (view_of inst)) ;;;
         mergePendingStateIfAny
     | None => ret tt
     end ;;;
  let* renderedElement :=
    match renderedElement with
    | None => _renderValidatedComponent Component
    | Some r => ret r
    end in
  let nodeType := getType (fst renderedElement) in
  do assign (set_renderedNodeType (Some nodeType)) ;;;
  let child := instantiateReactComponent (fst renderedElement) in
  do assign (set_renderedComponent (Some child)) ;;;
  do emit (EvInstantiateChild (_mountOrder this) nodeType) ;;;
  let* childContext := _processChildContext context in
  let* markup :=
    ReactReconciler_mountComponent (snd renderedElement)
      hostParent hostContainerInfo childContext in
  do emit (EvChildMounted (_mountOrder this)) ;;;
  ret markup.

Definition performInitialMountWithErrorHandling (Component : componentOf rendered)
    (renderedElement : option rendered)
    (hostParent hostContainerInfo : option nat) (context : option objref) : M markup :=
  let* checkpoint := transaction_checkpoint in
  tryCatch
    (performInitialMount Component renderedElement
       hostParent hostContainerInfo context)
    (λ e,
      do transaction_rollback checkpoint ;;;
      let* this := getThis in
      let* inst := thisInstance in
      do match method unstable_handleError inst with
         | Some hook =>
             do emit (EvHandleError (_mountOrder this) e) ;;;
             runHook (hook e (view_of inst))
         | None => throw (TypeError "unstable_handleError is not a function")
         end ;;;
      do mergePendingStateIfAny ;;;
      let* checkpoint := transaction_checkpoint in
      do renderedComponent_unmountComponent true ;;;
      do transaction_rollback checkpoint ;;;
      performInitialMount Component renderedElement
        hostParent hostContainerInfo context).

(** [mountComponent] of a composite instance.  [Component] is
    [this._currentElement.type], with the mount of each element it can
    produce. *)
Definition mountComposite (Component : componentOf rendered) : option nat →
    option nat → option objref → M markup :=
  λ hostParent hostContainerInfo context,
  do assign (set_context context) ;;;
  let* w := getWorld in
  do modifyWorld (set_nextMountID (S (nextMountID w))) ;;;
  do assign (set_mountOrder (nextMountID w)) ;;;
  do emit (EvMountOrder (nextMountID w)) ;;;
  do assign (set_hostParent hostParent) ;;;
  do assign (set_hostContainerInfo hostContainerInfo) ;;;
  let* this := getThis in
  let publicProps := el_props (_currentElement this) in
  let* publicContext := _processContext context in
  let doConstruct := shouldConstruct Component in
  let* inst :=
    _constructComponent Component doConstruct publicProps publicContext in
  let methods :=
    match body (el_type (_currentElement this)) with
    | BClass _ _ m => OfClass m
    | BFunctional _ => OfStatelessComponent
    end in
  let* renderedElement :=
    match inst with
    | ConstructedElement r =>
        (* a plain function: [inst = new StatelessComponent(Component)] *)
        do assign (set_compositeType (Some StatelessFunctional)) ;;;
        do assign (set_instance (Some
             {| inst_props := publicProps; inst_context := publicContext;
                inst_state := JUndefined;
                inst_calledComponentWillUnmount := false;
                inst_methods := OfStatelessComponent |})) ;;;
        ret (Some r)
    | ConstructedInstance state =>
        do assign (set_compositeType
             (Some (if isPureComponent Component then PureClass else ImpureClass))) ;;;
        do assign (set_instance (Some
             {| inst_props := publicProps; inst_context := publicContext;
                inst_state := state;
                inst_calledComponentWillUnmount := false;
                inst_methods := methods |})) ;;;
        ret None
    end in
  let* inst := thisInstance in
  do when (match inst_state inst with JUndefined => true | _ => false end)
       (assignInst (set_inst_state JNull)) ;;;
  do assign (set_pendingStateQueue None) ;;;
  do assign (set_pendingReplaceState false) ;;;
  do assign (set_pendingForceUpdate false) ;;;
  let* markup :=
    (if bool_decide (is_Some (method unstable_handleError inst)) then
       performInitialMountWithErrorHandling Component renderedElement
         hostParent hostContainerInfo context
     else
       performInitialMount Component renderedElement
         hostParent hostContainerInfo context) in
  do match method componentDidMount inst with
     | Some _ =>
         let* this := getThis in
         do getReactMountReady_enqueue (DidMount (_mountOrder this)) ;;;
         emit (EvEnqueueDidMount (_mountOrder this))
     | None => ret tt
     end ;;;
  ret markup.

(** Modelled from the spec: the host instance's side of [mount], which
    mounts the element's children in order. *)
Definition mountChildren (hostParent hostContainerInfo : option nat)
    (context : option objref)
  : list mounter → world → list instance * world * outcome (list markup) :=
  fix go (children : list mounter) (w : world) :=
    match children with
    | [] => ([], w, Returns [])
    | mountChild :: rest =>
        match mountChild hostParent hostContainerInfo context w with
        | (child, w1, Returns m) =>
            match go rest w1 with
            | (rest', w2, Returns ms) => (child :: rest', w2, Returns (m :: ms))
            | (rest', w2, Throws e) => (child :: rest', w2, Throws e)
            end
        | (child, w1, Throws e) => ([child], w1, Throws e)
        end
    end.

Definition mountHost (tag : string) (key : option string)
    (children : list mounter) : mounter :=
  λ hostParent hostContainerInfo context w,
  match mountChildren hostParent hostContainerInfo context children
          (set_trace (trace w ++ [EvHostMount tag]) w) with
  | (children', w', Returns ms) => (IHost tag key children', w', Returns (MHost tag ms))
  | (children', w', Throws e) => (IHost tag key children', w', Throws e)
  end.

(** [instantiateReactComponent(node)] followed by the reconciler's mount of
    the new instance. *)
Fixpoint mountComponent (node : element) {struct node} : mounter :=
  match node with
  | EEmpty => λ _ _ _ w, (IEmpty, w, Returns MEmpty)
  | EHost tag key children => mountHost tag key (map mountComponent children)
  | EComposite id type key props =>
      λ hostParent hostContainerInfo context w,
      let '((this, w'), r) :=
        mountComposite (component_map (λ e, (e, mountComponent e)) type)
          hostParent hostContainerInfo context
          (construct (CElement id type key props), w) in
      (IComposite this, w', r)
  end.

(* ------------------------------------------------------------------ *)
(** *** [receiveComponent], [performUpdateIfNecessary], [updateComponent] *)

(** [a === b] on objects or [null]. *)
Definition sameObject (a b : option objref) : bool :=
  match a, b with
  | Some x, Some y => oid x =? oid y
  | None, None => true
  | _, _ => false
  end.

(** [_currentElement] of any instance. *)
Definition currentElement_of (i : instance) : element :=
  match i with
  | IEmpty => EEmpty
  | IHost tag key _ => EHost tag key []
  | IComposite c => element_of (_currentElement c)
  end.

(** Modelled from the spec: [shouldUpdateReactComponent], the
    "same-type-and-key test" on the previous and next child descriptor. *)
Definition shouldUpdateReactComponent (prevElement nextElement : element) : bool :=
  match prevElement, nextElement with
  | EEmpty, EEmpty => true
  | EHost tag1 key1 _, EHost tag2 key2 _ =>
      bool_decide (tag1 = tag2) && bool_decide (key1 = key2)
  | EComposite _ type1 key1 _, EComposite _ type2 key2 _ =>
      (typeId type1 =? typeId type2) && bool_decide (key1 = key2)
  | _, _ => false
  end.

(** [inst.render()] on a mounted instance. *)
Definition _renderValidatedComponent_mounted : M element :=
  let* this := getThis in
  let* inst := thisInstance in
  do emit (EvRender (_mountOrder this)) ;;;
  match inst_methods inst with
  | OfClass m => liftOutcome (render m (view_of inst))
  | OfStatelessComponent =>
      match body (el_type (_currentElement this)) with
      | BFunctional fn => liftOutcome (fn (inst_props inst) (inst_context inst))
      | BClass _ _ _ => throw (TypeError "Cannot call a class as a function")
      end
  end.

Section Update.

(** [shallowEqual] of fbjs. *)
Variable shallowEqual : jsval → jsval → bool.

(** The reconciler's polymorphic [receiveComponent(instance, nextElement,
    transaction, context)] on a child, whatever its kind. *)
Variable ReactReconciler_receiveComponent :
  instance → element → option objref → childOp unit.

(** [ReactComponentEnvironment.replaceNodeWithMarkup(oldHostNode, nextMarkup,
    prevInstance)], the host mutation. *)
Variable replaceNodeWithMarkup : instance → markup → world → world.

Definition _updateRenderedComponent (context : option objref) : M unit :=
  let* this := getThis in
  match _renderedComponent this with
  | None => throw (TypeError "Cannot read property '_currentElement' of null")
  | Some prevComponentInstance =>
      let prevRenderedElement := currentElement_of prevComponentInstance in
      let* nextRenderedElement := _renderValidatedComponent_mounted in
      if shouldUpdateReactComponent prevRenderedElement nextRenderedElement then
        let* childContext := _processChildContext context in
        λ s, let '(child, w, r) :=
               ReactReconciler_receiveComponent prevComponentInstance
                 nextRenderedElement childContext (snd s) in
             ((set_renderedComponent (Some child) (fst s), w), r)
      else
        let* _ :=
          (λ s, let '(old, w, r) := unmountComponent false prevComponentInstance (snd s) in
                ((set_renderedComponent (Some old) (fst s), w), r)) in
        let* this := getThis in
        let oldInstance := default prevComponentInstance (_renderedComponent this) in
        let nodeType := getType nextRenderedElement in
        do assign (set_renderedNodeType (Some nodeType)) ;;;
        let child := instantiateReactComponent nextRenderedElement in
        do assign (set_renderedComponent (Some child)) ;;;
        let* childContext := _processChildContext context in
        let* nextMarkup :=
          ReactReconciler_mountComponent (mountComponent nextRenderedElement)
            (_hostParent this) (_hostContainerInfo this) childContext in
        modifyWorld (replaceNodeWithMarkup oldInstance nextMarkup)
  end.

Definition _performComponentUpdate (nextElement : celement) (nextProps : objref)
    (nextState : jsval) (nextContext : objref) (unmaskedContext : option objref)
  : M unit :=
  let* this := getThis in
  let* inst := thisInstance in
  let hasComponentDidUpdate := bool_decide (is_Some (method componentDidUpdate inst)) in
  let prevProps := inst_props inst in
  let prevState := inst_state inst in
  let prevContext := inst_context inst in
  do match method componentWillUpdate inst with
     | Some hook =>
         do emit (EvComponentWillUpdate (_mountOrder this)) ;;;
         runHook (hook nextProps nextState nextContext (view_of inst))
     | None => ret tt
     end ;;;
  do assign (set_currentElement nextElement) ;;;
  do assign (set_context unmaskedContext) ;;;
  do assignInst (set_inst_props nextProps) ;;;
  do assignInst (set_inst_state nextState) ;;;
  do assignInst (set_inst_context nextContext) ;;;
  do _updateRenderedComponent unmaskedContext ;;;
  when hasComponentDidUpdate
    (do getReactMountReady_enqueue
          (DidUpdate (_mountOrder this) prevProps prevState prevContext) ;;;
     emit (EvEnqueueDidUpdate (_mountOrder this))).

(** The value [shouldUpdate] has when [updateComponent] tests it. *)
Definition shouldUpdate_of (this : composite) (inst : publicInstance)
    (prevProps nextProps : objref) (nextState : jsval) (nextContext : objref)
  : bool :=
  let shouldUpdate := true in
  if negb (_pendingForceUpdate this) then
    match method shouldComponentUpdate inst with
    | Some hook => hook nextProps nextState nextContext (view_of inst)
    | None =>
        match _compositeType this with
        | Some PureClass =>
            negb (shallowEqual (JObj prevProps) (JObj nextProps))
            || negb (shallowEqual (inst_state inst) nextState)
        | _ => shouldUpdate
        end
    end
  else shouldUpdate.

(** [updateComponent], up to the merge of the pending state: it gives
    [(nextProps, nextState, nextContext)]. *)
Definition updateComponent_nextState (prevParentElement nextParentElement : celement)
    (prevUnmaskedContext nextUnmaskedContext : option objref)
  : M (objref * jsval * objref) :=
  let* this := getThis in
  let* inst := thisInstance in
  let* contextChange :=
    (if sameObject (_context this) nextUnmaskedContext
     then ret (false, inst_context inst)
     else let* nextContext := _processContext nextUnmaskedContext in
          ret (true, nextContext)) in
  let nextContext := snd contextChange in
  let nextProps := el_props nextParentElement in
  let willReceive :=
    fst contextChange || negb (el_id prevParentElement =? el_id nextParentElement) in
  do match willReceive, method componentWillReceiveProps inst with
     | true, Some hook =>
         do emit (EvComponentWillReceiveProps (_mountOrder this)) ;;;
         runHook (hook nextProps nextContext (view_of inst))
     | _, _ => ret tt
     end ;;;
  let* nextState := _processPendingState nextProps nextContext in
  ret (nextProps, nextState, nextContext).

(** What [updateComponent] does when [shouldUpdate] is false. *)
Definition updateComponent_skip (nextParentElement : celement)
    (nextUnmaskedContext : option objref) (nextProps : objref)
    (nextState : jsval) (nextContext : objref) : M unit :=
  do assign (set_currentElement nextParentElement) ;;;
  do assign (set_context nextUnmaskedContext) ;;;
  do assignInst (set_inst_props nextProps) ;;;
  do assignInst (set_inst_state nextState) ;;;
  assignInst (set_inst_context nextContext).

Definition updateComponent (prevParentElement nextParentElement : celement)
    (prevUnmaskedContext nextUnmaskedContext : option objref) : M unit :=
  let* next :=
    updateComponent_nextState prevParentElement nextParentElement
      prevUnmaskedContext nextUnmaskedContext in
  let '(nextProps, nextState, nextContext) := next in
  let prevProps := el_props prevParentElement in
  let* this := getThis in
  let* inst := thisInstance in
  let shouldUpdate :=
    shouldUpdate_of this inst prevProps nextProps nextState nextContext in
  do assign (set_updateBatchNumber None) ;;;
  if shouldUpdate then
    do assign (set_pendingForceUpdate false) ;;;
    _performComponentUpdate nextParentElement nextProps nextState nextContext
      nextUnmaskedContext
  else
    updateComponent_skip nextParentElement nextUnmaskedContext
      nextProps nextState nextContext.

Definition receiveComponent (nextElement : celement)
    (nextContext : option objref) : M unit :=
  let* this := getThis in
  let prevElement := _currentElement this in
  let prevContext := _context this in
  do assign (set_pendingElement None) ;;;
  updateComponent prevElement nextElement prevContext nextContext.

Definition performUpdateIfNecessary : M unit :=
  let* this := getThis in
  match _pendingElement this with
  | Some pendingElement => receiveComponent pendingElement (_context this)
  | None =>
      if bool_decide (is_Some (_pendingStateQueue this)) || _pendingForceUpdate this
      then updateComponent (_currentElement this) (_currentElement this)
             (_context this) (_context this)
      else assign (set_updateBatchNumber None)
  end.

End Update.
End ReactCompositeComponent.


(* ================================================================== *)
(** ** CallbackQueue *)
(* ================================================================== *)

Module CallbackQueue.

(** A callback is a name and what it does when called; what the queue is
    concerned with is that it can call [enqueue] on the queue that is
    calling it. *)
Inductive callback :=
| Callback (name : nat) (body : list action)
with action :=
| Enqueue (cb : callback) (context : nat).

Definition name_of (cb : callback) : nat :=
  match cb with Callback name _ => name end.

Definition body_of (cb : callback) : list action :=
  match cb with Callback _ body => body end.

(** A call [callback.call(context, arg)] that was made; a context read
    beyond the end of [_contexts] is [undefined]. *)
Inductive call :=
| Called (name : nat) (context : option nat) (arg : option nat).

(** The fields of a queue.  An array is held by reference. *)
Record t := {
  _callbacks : option nat;
  _contexts : option nat;
  _arg : option nat;
}.

(** The queue [this], the arrays there are, and the calls made so far.  An
    array slot is [None] where the array has a hole. *)
Record state := {
  this : t;
  callbackArrays : gmap nat (list (option callback));
  contextArrays : gmap nat (list (option nat));
  calls : list call;
}.

Definition set_this (v : t) (s : state) : state :=
  {| this := v; callbackArrays := callbackArrays s;
     contextArrays := contextArrays s; calls := calls s |}.

Definition set_callbackArrays (v : gmap nat (list (option callback))) (s : state)
  : state :=
  {| this := this s; callbackArrays := v;
     contextArrays := contextArrays s; calls := calls s |}.

Definition set_contextArrays (v : gmap nat (list (option nat))) (s : state)
  : state :=
  {| this := this s; callbackArrays := callbackArrays s;
     contextArrays := v; calls := calls s |}.

Definition set_calls (v : list call) (s : state) : state :=
  {| this := this s; callbackArrays := callbackArrays s;
     contextArrays := contextArrays s; calls := v |}.

Definition set_callbacks (v : option nat) (q : t) : t :=
  {| _callbacks := v; _contexts := _contexts q; _arg := _arg q |}.

Definition set_contexts (v : option nat) (q : t) : t :=
  {| _callbacks := _callbacks q; _contexts := v; _arg := _arg q |}.

(** The array a reference denotes. *)
Definition array {A} (arrays : gmap nat (list A)) (ref : nat) : list A :=
  default [] (arrays !! ref).

(** [array.length = len]: a shorter length truncates, a longer one leaves
    holes. *)
Definition set_length {A} (len : nat) (l : list (option A)) : list (option A) :=
  take len l ++ replicate (len - length l) None.

Definition constructor (arg : option nat) : t :=
  {| _callbacks := None; _contexts := None; _arg := arg |}.

Definition enqueue (callback : callback) (context : nat) (s : state) : state :=
  (* this._callbacks = this._callbacks || []; *)
  let s :=
    match _callbacks (this s) with
    | Some _ => s
    | None =>
        let ref := fresh (dom (callbackArrays s)) in
        set_this (set_callbacks (Some ref) (this s))
          (set_callbackArrays (<[ref := []]> (callbackArrays s)) s)
    end in
  (* this._callbacks.push(callback); *)
  let s :=
    match _callbacks (this s) with
    | Some ref =>
        set_callbackArrays
          (<[ref := array (callbackArrays s) ref ++ [Some callback]]> (callbackArrays s)) s
    | None => s
    end in
  (* this._contexts = this._contexts || []; *)
  let s :=
    match _contexts (this s) with
    | Some _ => s
    | None =>
        let ref := fresh (dom (contextArrays s)) in
        set_this (set_contexts (Some ref) (this s))
          (set_contextArrays (<[ref := []]> (contextArrays s)) s)
    end in
  (* this._contexts.push(context); *)
  match _contexts (this s) with
  | Some ref =>
      set_contextArrays
        (<[ref := array (contextArrays s) ref ++ [Some context]]> (contextArrays s)) s
  | None => s
  end.

(** [callback.call(context, arg)] *)
Definition invoke (cb : callback) (context arg : option nat) (s : state) : state :=
  foldl (λ s a, match a with Enqueue cb' context' => enqueue cb' context' s end)
        (set_calls (calls s ++ [Called (name_of cb) context arg]) s)
        (body_of cb).

(** The loop of [notifyAll]: [i] is its index, [callbacks] and [contexts]
    are its two local references, and the length is read anew at each
    turn. *)
Fixpoint notifyAll_loop (fuel : nat) (callbacks contexts : nat) (arg : option nat)
    (i : nat) (s : state) : option (state * outcome unit) :=
  match fuel with
  | 0 => None
  | S fuel =>
      if bool_decide (i < length (array (callbackArrays s) callbacks)) then
        match array (callbackArrays s) callbacks !! i with
        | Some (Some cb) =>
            let context := mjoin (array (contextArrays s) contexts !! i) in
            notifyAll_loop fuel callbacks contexts arg (S i) (invoke cb context arg s)
        | _ => Some (s, Throws (TypeError "Cannot read property 'call' of undefined"))
        end
      else Some (s, Returns tt)
  end.

Definition notifyAll (fuel : nat) (s : state) : option (state * outcome unit) :=
  let arg := _arg (this s) in
  match _callbacks (this s), _contexts (this s) with
  | Some callbacks, Some contexts =>
      let s := set_this (set_callbacks None (this s)) s in
      let s := set_this (set_contexts None (this s)) s in
      match notifyAll_loop fuel callbacks contexts arg 0 s with
      | Some (s, Returns _) =>
          let s :=
            set_callbackArrays
              (<[callbacks := set_length 0 (array (callbackArrays s) callbacks)]>
                 (callbackArrays s)) s in
          let s :=
            set_contextArrays
              (<[contexts := set_length 0 (array (contextArrays s) contexts)]>
                 (contextArrays s)) s in
          Some (s, Returns tt)
      | r => r
      end
  | _, _ => Some (s, Returns tt)
  end.

Definition checkpoint (s : state) : nat :=
  match _callbacks (this s) with
  | Some callbacks => length (array (callbackArrays s) callbacks)
  | None => 0
  end.

Definition rollback (len : nat) (s : state) : state :=
  match _callbacks (this s), _contexts (this s) with
  | Some callbacks, Some contexts =>
      set_contextArrays
        (<[contexts := set_length len (array (contextArrays s) contexts)]>
           (contextArrays s))
        (set_callbackArrays
           (<[callbacks := set_length len (array (callbackArrays s) callbacks)]>
              (callbackArrays s)) s)
  | _, _ => s
  end.

Definition reset (s : state) : state :=
  set_this (set_contexts None (set_callbacks None (this s))) s.

Definition destructor (s : state) : state := reset s.

(** What the queue holds, read as pairs: [this] holds [entries] when it has
    no arrays and [entries] is empty, or when its two arrays are their
    callbacks and their contexts. *)
Definition holds (s : state) (entries : list (callback * nat)) : Prop :=
  match _callbacks (this s), _contexts (this s) with
  | Some callbacks, Some contexts =>
      callbackArrays s !! callbacks = Some (Some ∘ fst <$> entries)
      ∧ contextArrays s !! contexts = Some (Some ∘ snd <$> entries)
  | None, None => entries = []
  | _, _ => False
  end.

(** The pairs a callback enqueues when it is called. *)
Definition enqueued_by (cb : callback) : list (callback * nat) :=
  (λ a, match a with Enqueue cb' context' => (cb', context') end) <$> body_of cb.

(** The state a new queue is in, with no array allocated yet. *)
Definition initial (arg : option nat) : state :=
  {| this := constructor arg; callbackArrays := ∅; contextArrays := ∅; calls := [] |}.

End CallbackQueue.


(* ================================================================== *)
(** ** ReactUpdates *)
(* ================================================================== *)

Module ReactUpdates.

(** User code, as far as the scheduler is concerned: the calls it makes
    back into the scheduler.  A component is named by a number, which
    stands for the identity of the instance. *)
Inductive callback :=
| Callback (name : nat) (body : list action)
with action :=
| EnqueueUpdate (component : nat)
| EnqueueCallback (component : nat) (cb : callback)
| Asap (cb : callback) (context : nat).

Definition name_of (cb : callback) : nat :=
  match cb with Callback name _ => name end.

Definition body_of (cb : callback) : list action :=
  match cb with Callback _ body => body end.

(** A [CallbackQueue], by value: in this module a queue that is being
    drained is a local of the code that drains it, out of the reach of the
    callbacks it calls. *)
Record queue := {
  _callbacks : option (list callback);
  _contexts : option (list nat);
}.

Definition emptyQueue : queue := {| _callbacks := None; _contexts := None |}.

Definition queue_enqueue (cb : callback) (context : nat) (q : queue) : queue :=
  {| _callbacks := Some (default [] (_callbacks q) ++ [cb]);
     _contexts := Some (default [] (_contexts q) ++ [context]) |}.

Definition queue_reset (q : queue) : queue := emptyQueue.

(** What a composite instance is to the scheduler.  [updates] is what
    reconciling it does, update after update: the calls its [render] and
    lifecycle methods make into the scheduler. *)
Record component := {
  _mountOrder : nat;
  _pendingCallbacks : option (list callback);
  _updateBatchNumber : option nat;
  updates : list (list action);
}.

Definition set_pendingCallbacks (v : option (list callback)) (c : component)
  : component :=
  {| _mountOrder := _mountOrder c; _pendingCallbacks := v;
     _updateBatchNumber := _updateBatchNumber c; updates := updates c |}.

Definition set_updateBatchNumber (v : option nat) (c : component) : component :=
  {| _mountOrder := _mountOrder c; _pendingCallbacks := _pendingCallbacks c;
     _updateBatchNumber := v; updates := updates c |}.

Definition set_updates (v : list (list action)) (c : component) : component :=
  {| _mountOrder := _mountOrder c; _pendingCallbacks := _pendingCallbacks c;
     _updateBatchNumber := _updateBatchNumber c; updates := v |}.

(** Which queue a callback was called from. *)
Inductive origin := FromAsap | FromFlushTransaction.

Inductive event :=
| Reconciled (component : nat) (batch : nat)
| AsapScheduled (cb : callback) (context : nat)
| Called (from : origin) (cb : callback) (context : option nat).

(** The variables of the module, the instances, which are shared by
    reference, and the trace. *)
Record state := {
  components : gmap nat component;
  dirtyComponents : list nat;
  updateBatchNumber : nat;
  asapCallbackQueue : queue;
  asapEnqueued : bool;
  isBatchingUpdates : bool;
  log : list event;
}.

Definition set_components (v : gmap nat component) (s : state) : state :=
  {| components := v; dirtyComponents := dirtyComponents s;
     updateBatchNumber := updateBatchNumber s;
     asapCallbackQueue := asapCallbackQueue s; asapEnqueued := asapEnqueued s;
     isBatchingUpdates := isBatchingUpdates s; log := log s |}.

Definition set_dirtyComponents (v : list nat) (s : state) : state :=
  {| components := components s; dirtyComponents := v;
     updateBatchNumber := updateBatchNumber s;
     asapCallbackQueue := asapCallbackQueue s; asapEnqueued := asapEnqueued s;
     isBatchingUpdates := isBatchingUpdates s; log := log s |}.

Definition set_updateBatchNumber_ (v : nat) (s : state) : state :=
  {| components := components s; dirtyComponents := dirtyComponents s;
     updateBatchNumber := v;
     asapCallbackQueue := asapCallbackQueue s; asapEnqueued := asapEnqueued s;
     isBatchingUpdates := isBatchingUpdates s; log := log s |}.

Definition set_asapCallbackQueue (v : queue) (s : state) : state :=
  {| components := components s; dirtyComponents := dirtyComponents s;
     updateBatchNumber := updateBatchNumber s;
     asapCallbackQueue := v; asapEnqueued := asapEnqueued s;
     isBatchingUpdates := isBatchingUpdates s; log := log s |}.

Definition set_asapEnqueued (v : bool) (s : state) : state :=
  {| components := components s; dirtyComponents := dirtyComponents s;
     updateBatchNumber := updateBatchNumber s;
     asapCallbackQueue := asapCallbackQueue s; asapEnqueued := v;
     isBatchingUpdates := isBatchingUpdates s; log := log s |}.

Definition set_isBatchingUpdates (v : bool) (s : state) : state :=
  {| components := components s; dirtyComponents := dirtyComponents s;
     updateBatchNumber := updateBatchNumber s;
     asapCallbackQueue := asapCallbackQueue s; asapEnqueued := asapEnqueued s;
     isBatchingUpdates := v; log := log s |}.

Definition set_log (v : list event) (s : state) : state :=
  {| components := components s; dirtyComponents := dirtyComponents s;
     updateBatchNumber := updateBatchNumber s;
     asapCallbackQueue := asapCallbackQueue s; asapEnqueued := asapEnqueued s;
     isBatchingUpdates := isBatchingUpdates s; log := v |}.

(** An instance the scheduler has not met yet. *)
Definition unmetComponent : component :=
  {| _mountOrder := 0; _pendingCallbacks := None; _updateBatchNumber := None;
     updates := [] |}.

(** The instance a reference denotes. *)
Definition component_of (s : state) (c : nat) : component :=
  default unmetComponent (components s !! c).

(** [component.f = v] *)
Definition assignComponent (c : nat) (f : component → component) (s : state)
  : state :=
  set_components (<[c := f (component_of s c)]> (components s)) s.

(** A run: [None] when the fuel is out, and otherwise the state and how
    the run completed. *)
Definition run : Type := option (state * outcome unit).

Definition done (s : state) : run := Some (s, Returns tt).

Definition andThen (r : run) (k : state → run) : run :=
  match r with
  | Some (s, Returns _) => k s
  | other => other
  end.

(** [try { r } finally { k }], for a [k] that does not throw. *)
Definition andFinally (r : run) (k : state → run) : run :=
  match r with
  | Some (s, Returns _) => k s
  | Some (s, Throws e) =>
      match k s with
      | Some (s', _) => Some (s', Throws e)
      | None => None
      end
  | None => None
  end.

(** The flush is run by whoever calls [batchedUpdates] first; the code
    below takes it as [flush]. *)
Section Flush.

Variable flush : state → run.

(** Modelled from the spec: the injected batching strategy, which "must
    set/restore isBatchingUpdates around fn and, on the outermost call only,
    invoke the Update Scheduler's flush after fn returns". *)
Definition batchingStrategy_batchedUpdates (fn : state → run) (s : state) : run :=
  let alreadyBatchingUpdates := isBatchingUpdates s in
  let s := set_isBatchingUpdates true s in
  if alreadyBatchingUpdates then fn s
  else
    andFinally (andThen (fn s) flush)
               (λ s, done (set_isBatchingUpdates false s)).

Definition batchedUpdates (callback : state → run) (s : state) : run :=
  batchingStrategy_batchedUpdates callback s.

Definition enqueueUpdate_batching (component : nat) (s : state) : state :=
  let s := set_dirtyComponents (dirtyComponents s ++ [component]) s in
  match _updateBatchNumber (component_of s component) with
  | None =>
      assignComponent component
        (set_updateBatchNumber (Some (updateBatchNumber s + 1))) s
  | Some _ => s
  end.

Definition enqueueUpdate (component : nat) (s : state) : run :=
  if negb (isBatchingUpdates s) then
    (* batchingStrategy.batchedUpdates(enqueueUpdate, component), where the
       inner call finds the batch open *)
    batchingStrategy_batchedUpdates
      (λ s, done (enqueueUpdate_batching component s)) s
  else
    done (enqueueUpdate_batching component s).

Definition asap (callback : callback) (context : nat) (s : state) : state :=
  let s := set_log (log s ++ [AsapScheduled callback context]) s in
  let s :=
    set_asapCallbackQueue (queue_enqueue callback context (asapCallbackQueue s)) s in
  set_asapEnqueued true s.

(** Modelled from the spec: [ReactUpdateQueue.enqueueCallback], which puts a
    post-commit callback on the instance's [pendingCallbacks] and marks the
    instance dirty. *)
Definition enqueueCallback (component : nat) (cb : callback) (s : state) : run :=
  let s :=
    assignComponent component
      (λ c, set_pendingCallbacks (Some (default [] (_pendingCallbacks c) ++ [cb])) c)
      s in
  enqueueUpdate component s.

Definition runAction (a : action) (s : state) : run :=
  match a with
  | EnqueueUpdate component => enqueueUpdate component s
  | EnqueueCallback component cb => enqueueCallback component cb s
  | Asap cb context => done (asap cb context s)
  end.

Fixpoint runActions (body : list action) (s : state) : run :=
  match body with
  | [] => done s
  | a :: body' => andThen (runAction a s) (runActions body')
  end.

(** [callback.call(context, arg)] *)
Definition invoke (from : origin) (cb : callback) (context : option nat)
    (s : state) : run :=
  runActions (body_of cb) (set_log (log s ++ [Called from cb context]) s).

(** [queue.notifyAll()] on a queue that only the caller holds. *)
Fixpoint notifyAll_loop (from : origin) (callbacks : list callback)
    (contexts : list nat) (i : nat) (s : state) : run :=
  match callbacks with
  | [] => done s
  | cb :: callbacks' =>
      andThen (invoke from cb (contexts !! i) s)
              (notifyAll_loop from callbacks' contexts (S i))
  end.

Definition notifyAll (from : origin) (q : queue) (s : state) : run :=
  match _callbacks q, _contexts q with
  | Some callbacks, Some contexts => notifyAll_loop from callbacks contexts 0 s
  | _, _ => done s
  end.

(** Modelled from the spec: the reconciler's "reconcile-if-necessary" on a
    dirty instance, which runs the instance's update and "may mark further
    instances dirty". *)
Definition ReactReconciler_performUpdateIfNecessary (component : nat)
    (updateBatchNumber : nat) (s : state) : run :=
  let s := set_log (log s ++ [Reconciled component updateBatchNumber]) s in
  let s := assignComponent component (set_updateBatchNumber None) s in
  match updates (component_of s component) with
  | [] => done s
  | update :: rest =>
      runActions update (assignComponent component (set_updates rest) s)
  end.

(** The flush transaction: its two fields that matter. *)
Record transaction := {
  dirtyComponentsLength : option nat;
  callbackQueue : queue;
}.

Definition mountOrderComparator (c1 c2 : component) : Z :=
  Z.of_nat (_mountOrder c1) - Z.of_nat (_mountOrder c2).

(** [Array.prototype.sort(comparator)], as a merge sort on the order the
    comparator gives. *)
Definition sortsBefore (comparator : nat → nat → Z) (x y : nat) : Prop :=
  (comparator x y ≤ 0)%Z.

Definition sortsBefore_dec (comparator : nat → nat → Z) (x y : nat)
  : Decision (sortsBefore comparator x y) :=
  Z.le_dec (comparator x y) 0%Z.

Definition sortBy (comparator : nat → nat → Z) (l : list nat) : list nat :=
  @merge_sort nat (sortsBefore comparator) (sortsBefore_dec comparator) l.

(** The loop of [runBatchedUpdates], from index [i], with [n] turns to go. *)
Fixpoint runBatchedUpdates_loop (n i : nat) (tr : transaction) (s : state)
  : option (transaction * state * outcome unit) :=
  match n with
  | 0 => Some (tr, s, Returns tt)
  | S n =>
      match dirtyComponents s !! i with
      | None =>
          Some (tr, s, Throws (TypeError "Cannot read property of undefined"))
      | Some component =>
          let callbacks := _pendingCallbacks (component_of s component) in
          let s := assignComponent component (set_pendingCallbacks None) s in
          match ReactReconciler_performUpdateIfNecessary component
                  (updateBatchNumber s) s with
          | Some (s, Returns _) =>
              let tr :=
                {| dirtyComponentsLength := dirtyComponentsLength tr;
                   callbackQueue :=
                     foldl (λ q cb, queue_enqueue cb component q)
                           (callbackQueue tr) (default [] callbacks) |} in
              runBatchedUpdates_loop n (S i) tr s
          | Some (s, Throws e) => Some (tr, s, Throws e)
          | None => None
          end
      end
  end.

Definition runBatchedUpdates (tr : transaction) (s : state)
  : option (transaction * state * outcome unit) :=
  let len := default 0 (dirtyComponentsLength tr) in
  let s :=
    set_dirtyComponents
      (sortBy (λ c1 c2, mountOrderComparator (component_of s c1) (component_of s c2))
              (dirtyComponents s)) s in
  let s := set_updateBatchNumber_ (updateBatchNumber s + 1) s in
  runBatchedUpdates_loop len 0 tr s.

(** [transaction.perform(runBatchedUpdates, null, transaction)] on a
    transaction from the pool.  Modelled from the spec: [perform] runs
    every [initialize] in order, the method, and then every [close] in the
    same order, "even if" the method threw, and then propagates the error.
    [flushAgain] is [flushBatchedUpdates], which [NESTED_UPDATES.close]
    calls. *)
Definition perform_runBatchedUpdates (flushAgain : state → run) (s : state) : run :=
  (* NESTED_UPDATES.initialize *)
  let tr := {| dirtyComponentsLength := Some (length (dirtyComponents s));
               callbackQueue := emptyQueue |} in
  (* UPDATE_QUEUEING.initialize *)
  let tr := {| dirtyComponentsLength := dirtyComponentsLength tr;
               callbackQueue := queue_reset (callbackQueue tr) |} in
  match runBatchedUpdates tr s with
  | None => None
  | Some (tr, s, r) =>
      let close :=
        λ s,
          (* NESTED_UPDATES.close *)
          andThen
            (if bool_decide (default 0 (dirtyComponentsLength tr)
                             ≠ length (dirtyComponents s))
             then
               flushAgain
                 (set_dirtyComponents
                    (drop (default 0 (dirtyComponentsLength tr)) (dirtyComponents s)) s)
             else done (set_dirtyComponents [] s))
            (* UPDATE_QUEUEING.close *)
            (notifyAll FromFlushTransaction (callbackQueue tr)) in
      andFinally (Some (s, r)) close
  end.

End Flush.

Fixpoint flushBatchedUpdates (fuel : nat) (s : state) : run :=
  match fuel with
  | 0 => None
  | S fuel =>
      if bool_decide (dirtyComponents s ≠ []) || asapEnqueued s then
        andThen
          (if bool_decide (dirtyComponents s ≠ []) then
             perform_runBatchedUpdates (flushBatchedUpdates fuel)
               (flushBatchedUpdates fuel) s
           else done s)
          (λ s,
            andThen
              (if asapEnqueued s then
                 let s := set_asapEnqueued false s in
                 let queue := asapCallbackQueue s in
                 let s := set_asapCallbackQueue emptyQueue s in
                 notifyAll (flushBatchedUpdates fuel) FromAsap queue s
               else done s)
              (flushBatchedUpdates fuel))
      else done s
  end.

End ReactUpdates.


(* ================================================================== *)
(** ** ReactMount *)
(* ================================================================== *)

Module ReactMount.

(** A string, as its UTF-16 code units. *)
Definition jsstring : Type := list nat.

(** [string.charAt(i)]: the string of the one unit at [i], or the empty
    string beyond the end. *)
Definition charAt (string : jsstring) (i : nat) : jsstring :=
  match string !! i with
  | Some unit => [unit]
  | None => []
  end.

(** The loop of [firstDifferenceIndex], from index [i], with [turns] turns
    to go before [i] reaches [minLen]: the index it returns at, if any. *)
Fixpoint firstDifferenceIndex_loop (turns i : nat) (string1 string2 : jsstring)
  : option nat :=
  match turns with
  | 0 => None
  | S turns' =>
      if bool_decide (charAt string1 i ≠ charAt string2 i) then Some i
      else firstDifferenceIndex_loop turns' (S i) string1 string2
  end.

Definition firstDifferenceIndex (string1 string2 : jsstring) : Z :=
  let minLen := Nat.min (length string1) (length string2) in
  match firstDifferenceIndex_loop minLen 0 string1 string2 with
  | Some i => Z.of_nat i
  | None =>
      if bool_decide (length string1 = length string2) then (-1)%Z
      else Z.of_nat minLen
  end.

End ReactMount.


(* ================================================================== *)
(** ** What the specification says, as definitions *)
(* ================================================================== *)

Module CompositeSpec.
Import ReactCompositeComponent.

(** The decision of the update, in the words of the specification: "if
    pendingForceFlag is set, always true; else if the unit defines a
    shouldUpdate hook, its boolean result is authoritative; else if the unit
    is a pure variant, true iff a shallow comparison finds prevProps or
    nextState unequal to current; else default true". *)
Definition shouldUpdate_spec (pendingForceFlag : bool) (hookResult : option bool)
    (isPure : bool) (propsEqual stateEqual : bool) : bool :=
  if pendingForceFlag then true
  else match hookResult with
       | Some answer => answer
       | None => if isPure then negb propsEqual || negb stateEqual else true
       end.

(** The replace-state law: the properties of the merged state when the
    queue begins with a replace entry [entry] and goes on with [rest];
    nothing of the state before enters. *)
Definition replaced (props context : objref) (entry : jsval) (rest : list jsval)
  : gmap string fval :=
  foldl (mergePartial props context) (Object_assign ∅ entry) rest.

(** The events of a run from [w] to [w']. *)
Definition newEvents (w w' : world) : list event :=
  drop (length (trace w)) (trace w').

(** The [_mountOrder] of the composite instances of a tree, parents first. *)
Fixpoint mountOrders (i : instance) : list nat :=
  match i with
  | IEmpty => []
  | IHost _ _ children => flat_map mountOrders children
  | IComposite c =>
      _mountOrder c ::
      match _renderedComponent c with
      | Some child => mountOrders child
      | None => []
      end
  end.

(** Every composite instance of the tree has a [_mountOrder] below those of
    the instances of its rendered subtree. *)
Fixpoint parentsFirst (i : instance) : Prop :=
  match i with
  | IEmpty => True
  | IHost _ _ children => fold_right (λ child P, parentsFirst child ∧ P) True children
  | IComposite c =>
      match _renderedComponent c with
      | Some child =>
          (∀ k, k ∈ mountOrders child → _mountOrder c < k) ∧ parentsFirst child
      | None => True
      end
  end.

(** [child] is held by [parent]: as its rendered component, or as a child of
    a host instance. *)
Inductive child_of : instance → instance → Prop :=
| child_rendered (c : composite) (child : instance) :
    _renderedComponent c = Some child → child_of (IComposite c) child
| child_host (tag : string) (key : option string) (children : list instance)
    (child : instance) :
    child ∈ children → child_of (IHost tag key children) child.

(** [d] is in the subtree that [a] rendered. *)
Definition descendant_of (a d : instance) : Prop := tc child_of a d.

(** [i] is [root] or in the tree below it. *)
Definition in_tree (root i : instance) : Prop := rtc child_of root i.

(** C7, as the specification has it: in a trace, the stamp of the instance
    [id] comes after its render, after the mount of its child and after its
    [componentDidMount] is enqueued. *)
Definition stampedLast (id : nat) (t : list event) : Prop :=
  ∀ i j, t !! i = Some (EvMountOrder id) →
         t !! j = Some (EvRender id) ∨ t !! j = Some (EvChildMounted id)
         ∨ t !! j = Some (EvEnqueueDidMount id) →
         j < i.

(** What the code does instead: the stamp is the first event of the mount,
    and every other event of the mount comes after it. *)
Definition stampedFirst (id : nat) (t : list event) : Prop :=
  ∃ rest, t = EvMountOrder id :: rest ∧ EvMountOrder id ∉ rest.

(** The number of times [componentWillUnmount] of the instance [id] was
    called in a trace. *)

Definition isWillUnmount (id : nat) (ev : event) : bool :=
  match ev with
  | EvComponentWillUnmount id' _ => id' =? id
  | _ => false
  end.

Fixpoint willUnmountCalls (id : nat) (t : list event) : nat :=
  match t with
  | [] => 0
  | ev :: t' => (if isWillUnmount id ev then 1 else 0) + willUnmountCalls id t'
  end.

(** Whether the public instance [inst] of a composite stamped [mountOrder]
    is the one named [id], defines [componentWillUnmount] and has not had it
    called. *)
Definition awaits (id mountOrder : nat) (inst : publicInstance) : nat :=
  if bool_decide (mountOrder = id)
     && bool_decide (is_Some (method componentWillUnmount inst))
     && negb (inst_calledComponentWillUnmount inst)
  then 1 else 0.

(** The number of composite instances of a tree that are named [id], are
    mounted, define [componentWillUnmount] and have not had it called. *)
Fixpoint awaitingWillUnmount (id : nat) (i : instance) : nat :=
  match i with
  | IEmpty => 0
  | IHost _ _ children =>
      fold_right (λ child n, awaitingWillUnmount id child + n) 0 children
  | IComposite c =>
      match _renderedComponent c with
      | Some child =>
          (match _instance c with
           | Some inst => awaits id (_mountOrder c) inst
           | None => 0
           end) + awaitingWillUnmount id child
      | None => 0
      end
  end.

(** A sequence of [unmountComponent] calls on one instance, each with its
    own flag, whatever the outcome of the call before. *)
Fixpoint unmountRepeatedly (flags : list bool) (i : instance) (w : world)
  : instance * world :=
  match flags with
  | [] => (i, w)
  | safely :: flags' =>
      let '(i', w', _) := unmountComponent safely i w in
      unmountRepeatedly flags' i' w'
  end.

(** The first half of an unmount, in the words of the specification: "if an
    onWillUnmount hook exists and has not already fired for this instance:
    if safely, invoke it through a guarded call that captures and defers any
    thrown error; if not safely, invoke it directly (errors propagate
    immediately)". *)
Definition willUnmountStep (safely : bool) (this : composite)
    (inst : publicInstance) (w : world) : (composite * world) * outcome unit :=
  match method componentWillUnmount inst with
  | Some hook =>
      if inst_calledComponentWillUnmount inst then ((this, w), Returns tt)
      else
        let called :=
          (applyEffects (effects (hook (view_of inst)))
             (set_instance (Some (set_inst_calledComponentWillUnmount true inst)) this,
              set_trace
                (trace w ++ [EvComponentWillUnmount (_mountOrder this) safely]) w)).1 in
        match completion (hook (view_of inst)) with
        | Returns _ => (called, Returns tt)
        | Throws e =>
            if safely then
              ((called.1, set_caughtErrors (caughtErrors called.2 ++ [e]) called.2),
               Returns tt)
            else (called, Throws e)
        end
  | None => ((this, w), Returns tt)
  end.

(** The instance once its child is unmounted: "clear all instance
    fields". *)
Definition released (this : composite) : composite :=
  set_topLevelWrapper None
    (set_rootNodeID 0
       (set_context None
          (set_pendingElement None
             (set_pendingCallbacks None
                (set_pendingForceUpdate false
                   (set_pendingReplaceState false
                      (set_pendingStateQueue None
                         (set_instance None
                            (set_renderedComponent None
                               (set_renderedNodeType None this)))))))))).

(** The second half: "recursively unmount renderedChild with the same safely
    flag", and release the instance when that returns. *)
Definition unmountSpec (safely : bool) (this : composite) (inst : publicInstance)
    (child : instance) (w : world) : result unit :=
  match willUnmountStep safely this inst
          (set_trace (trace w ++ [EvUnmount (_mountOrder this) safely]) w) with
  | ((this1, w1), Throws e) => (IComposite this1, w1, Throws e)
  | ((this1, w1), Returns _) =>
      match unmountComponent safely child w1 with
      | (child', w2, Returns _) => (IComposite (released this1), w2, Returns tt)
      | (child', w2, Throws e) =>
          (IComposite (set_renderedComponent (Some child') this1), w2, Throws e)
      end
  end.

End CompositeSpec.


(* ================================================================== *)
(** ** Relations between the states of a run *)
(* ================================================================== *)

Module CompositeLogic.
Import ReactCompositeComponent CompositeSpec.

(** [Q] holds of the state and outcome of [m] run from [s]. *)
Definition wp {A} (m : M A) (Q : composite * world → outcome A → Prop)
    (s : composite * world) : Prop :=
  Q (m s).1 (m s).2.

Definition noStamp (rest : list event) : Prop := ∀ k, EvMountOrder k ∉ rest.

(** From [w] to [w'] no instance was stamped: the counter is where it was
    and the trace went on without a stamp. *)
Definition quiet_world (w w' : world) : Prop :=
  nextMountID w' = nextMountID w
  ∧ ∃ rest, trace w' = trace w ++ rest ∧ noStamp rest.

(** From [w] to [w'] the counter only went up, and the stamps in between
    are the values it went through. *)
Definition advance_world (w w' : world) : Prop :=
  nextMountID w ≤ nextMountID w'
  ∧ ∃ rest, trace w' = trace w ++ rest
            ∧ ∀ k, EvMountOrder k ∈ rest → nextMountID w ≤ k < nextMountID w'.

(** [this] kept its stamp, and the world is quiet. *)
Definition calm (s s' : composite * world) : Prop :=
  _mountOrder s'.1 = _mountOrder s.1 ∧ quiet_world s.2 s'.2.

(** Moreover [this] kept its rendered component. *)
Definition quiet (s s' : composite * world) : Prop :=
  _renderedComponent s'.1 = _renderedComponent s.1 ∧ calm s s'.

Definition advance (s s' : composite * world) : Prop :=
  _mountOrder s'.1 = _mountOrder s.1 ∧ advance_world s.2 s'.2.

(** [m] stamps nothing, whatever the state and the outcome. *)
Definition Calm {A} (m : M A) : Prop := ∀ s, calm s (m s).1.

Definition Quiet {A} (m : M A) : Prop := ∀ s, quiet s (m s).1.

(** The [_mountOrder] of the composite instances of [i] are in [lo, hi). *)
Definition within (lo hi : nat) (i : instance) : Prop :=
  ∀ k, k ∈ mountOrders i → lo ≤ k < hi.

(** What user code can hand to [mountComponent]: an element that the
    component's function or its [render] returns. *)
Definition produces {E} (Component : componentOf E) (e : E) : Prop :=
  match body Component with
  | BClass _ _ m => ∃ v, render m v = Returns e
  | BFunctional fn => ∃ props context, fn props context = Returns e
  end.

(** A mount that only stamps with the values the counter goes through and,
    when it returns, leaves a tree with its parents first. *)
Definition goodMounter (mount : mounter) : Prop :=
  ∀ hostParent hostContainerInfo context w,
    advance_world w (mount hostParent hostContainerInfo context w).1.2
    ∧ (returned (mount hostParent hostContainerInfo context w).2 = true →
       within (nextMountID w)
              (nextMountID (mount hostParent hostContainerInfo context w).1.2)
              (mount hostParent hostContainerInfo context w).1.1
       ∧ parentsFirst (mount hostParent hostContainerInfo context w).1.1).

Definition goodComponent (Component : componentOf rendered) : Prop :=
  ∀ r, produces Component r → goodMounter r.2.

(** From [s] to [s'] the run is an [advance], and when it returns, [this]
    holds a rendered component that was mounted in between, parents
    first. *)
Definition mounted {A} (s s' : composite * world) (r : outcome A) : Prop :=
  advance s s'
  ∧ (returned r = true →
     ∃ child, _renderedComponent s'.1 = Some child
              ∧ within (nextMountID s.2) (nextMountID s'.2) child
              ∧ parentsFirst child).

(** What [mountComposite] does to the counter, the trace and the tree, from
    a world whose counter is at [n]. *)
Definition stampedAt (n : nat) (w : world) {A} (s' : composite * world)
    (r : outcome A) : Prop :=
  _mountOrder s'.1 = n
  ∧ n < nextMountID s'.2
  ∧ (∃ rest, trace s'.2 = trace w ++ EvMountOrder n :: rest
             ∧ ∀ k, EvMountOrder k ∈ rest → n < k < nextMountID s'.2)
  ∧ (returned r = true →
     ∃ child, _renderedComponent s'.1 = Some child
              ∧ within (S n) (nextMountID s'.2) child
              ∧ parentsFirst child).

End CompositeLogic.

(* ================================================================== *)
(** ** What the specification says of the callback queue *)
(* ================================================================== *)

Module CallbackQueueSpec.
Import CallbackQueue.

(** The calls that a drain of [entries] is to make, in order, each with its
    own context and the argument of the queue. *)
Definition callsOf (arg : option nat) (entries : list (callback * nat))
  : list call :=
  (λ e, Called (name_of e.1) (Some e.2) arg) <$> entries.

(** What the callbacks of [entries] enqueue when they are called, in
    order. *)
Definition reentrant (entries : list (callback * nat)) : list (callback * nat) :=
  entries ≫= enqueued_by ∘ fst.

(** C6, as the specification has it: what was enqueued during the drain
    from [s] to [s'] was "appended to the same underlying buffer", the
    arrays that the queue had when the drain began. *)
Definition appendedToSameBuffer (s s' : state) : Prop :=
  _callbacks (this s') = _callbacks (this s)
  ∧ _contexts (this s') = _contexts (this s).

(** While [notifyAll] runs on the arrays [callbacks] and [contexts], which
    hold [entries], the queue holds [pending] in arrays of its own. *)
Definition draining (callbacks contexts : nat) (entries : list (callback * nat))
    (s : state) (pending : list (callback * nat)) : Prop :=
  callbackArrays s !! callbacks = Some (Some ∘ fst <$> entries)
  ∧ contextArrays s !! contexts = Some (Some ∘ snd <$> entries)
  ∧ holds s pending
  ∧ _callbacks (this s) ≠ Some callbacks
  ∧ _contexts (this s) ≠ Some contexts.

(** A queue with one callback, which enqueues another when it is called. *)
Definition reentrantQueue : state :=
  enqueue (Callback 1 [Enqueue (Callback 2 []) 7]) 5 (initial (Some 3)).

(** The same, for arrays of any content, holes included. *)
Definition drainingArrays (callbacks contexts : nat)
    (callbackArray : list (option callback)) (contextArray : list (option nat))
    (s : state) (pending : list (callback * nat)) : Prop :=
  callbackArrays s !! callbacks = Some callbackArray
  ∧ contextArrays s !! contexts = Some contextArray
  ∧ holds s pending
  ∧ _callbacks (this s) ≠ Some callbacks
  ∧ _contexts (this s) ≠ Some contexts.

End CallbackQueueSpec.

(* ================================================================== *)
(** ** What the specification says of the update scheduler *)
(* ================================================================== *)

Module ReactUpdatesSpec.
Import ReactUpdates.

(** The instances reconciled in a log, in order. *)
Fixpoint reconciled (evs : list event) : list nat :=
  match evs with
  | [] => []
  | Reconciled component _ :: evs' => component :: reconciled evs'
  | _ :: evs' => reconciled evs'
  end.

(** The callbacks passed to [asap] in a log, in order. *)
Fixpoint scheduled (evs : list event) : list (callback * nat) :=
  match evs with
  | [] => []
  | AsapScheduled cb context :: evs' => (cb, context) :: scheduled evs'
  | _ :: evs' => scheduled evs'
  end.

(** The calls made from the drain of an asap queue in a log, in order. *)
Fixpoint asapCalls (evs : list event) : list (callback * option nat) :=
  match evs with
  | [] => []
  | Called FromAsap cb context :: evs' => (cb, context) :: asapCalls evs'
  | _ :: evs' => asapCalls evs'
  end.

(** The calls of [asap] that a piece of user code makes itself, in
    order. *)
Definition asapsOf (body : list action) : list (callback * nat) :=
  omap (λ a, match a with
             | Asap cb context => Some (cb, context)
             | _ => None
             end) body.

(** The instances that a piece of user code marks dirty itself, by
    [enqueueUpdate] or by [enqueueCallback]. *)
Definition marked (body : list action) : list nat :=
  omap (λ a, match a with
             | EnqueueUpdate c => Some c
             | EnqueueCallback c _ => Some c
             | Asap _ _ => None
             end) body.

(** The updates that each instance has still to run. *)
Definition pendingUpdates (s : state) (c : nat) : list (list action) :=
  updates (component_of s c).

(** The callbacks that the user code of a log passes to [asap], in order,
    as the user code has them: a callback that is called runs its body,
    and an instance that is reconciled runs the first of the updates it has
    still to run. *)
Fixpoint requested (pending : nat → list (list action)) (evs : list event)
  : list (callback * nat) :=
  match evs with
  | [] => []
  | Reconciled c _ :: evs' =>
      asapsOf (default [] (head (pending c)))
      ++ requested (<[c := tail (pending c)]> pending) evs'
  | Called _ cb _ :: evs' => asapsOf (body_of cb) ++ requested pending evs'
  | AsapScheduled _ _ :: evs' => requested pending evs'
  end.

(** The updates that are still to run after a log. *)
Fixpoint remaining (pending : nat → list (list action)) (evs : list event)
  : nat → list (list action) :=
  match evs with
  | [] => pending
  | Reconciled c _ :: evs' => remaining (<[c := tail (pending c)]> pending) evs'
  | _ :: evs' => remaining pending evs'
  end.

(** The events of user code that passes [pairs] to [asap]. *)
Definition scheduling (pairs : list (callback * nat)) : list event :=
  (λ e, AsapScheduled e.1 e.2) <$> pairs.

(** The events of a run from [s] to [s']. *)
Definition newLog (s s' : state) : list event :=
  drop (length (log s)) (log s').

(** The pairs a queue holds. *)
Definition entries (q : queue) : list (callback * nat) :=
  zip (default [] (_callbacks q)) (default [] (_contexts q)).

(** The calls that are due for pairs of a queue. *)
Definition due (pairs : list (callback * nat)) : list (callback * option nat) :=
  (λ e, (e.1, Some e.2)) <$> pairs.

(** The calls of a drain that are from an asap queue. *)
Definition callsFrom (from : origin) (calls : list (callback * option nat))
  : list (callback * option nat) :=
  match from with
  | FromAsap => calls
  | FromFlushTransaction => []
  end.

(** A queue as [enqueue] and [reset] leave it: both arrays or none, of one
    length. *)
Definition wfQueue (q : queue) : Prop :=
  match _callbacks q, _contexts q with
  | Some callbacks, Some contexts => length callbacks = length contexts
  | None, None => True
  | _, _ => False
  end.

(** The state between two calls of the scheduler within a batch: the batch
    is open, and [asapEnqueued] is set whenever the asap queue has an
    entry. *)
Definition batching (s : state) : Prop :=
  isBatchingUpdates s = true
  ∧ wfQueue (asapCallbackQueue s)
  ∧ (asapEnqueued s = true ∨ entries (asapCallbackQueue s) = []).

(** The work that calling a callback, or running an action, can still
    cause: one for the call or for the entry it makes, and the work of what
    it holds. *)
Fixpoint callbackWeight (cb : callback) : nat :=
  match cb with
  | Callback _ body =>
      S ((fix actionsWeight (body : list action) : nat :=
            match body with
            | [] => 0
            | a :: body' => actionWeight a + actionsWeight body'
            end) body)
  end
with actionWeight (a : action) : nat :=
  match a with
  | EnqueueUpdate _ => 1
  | EnqueueCallback _ cb => S (callbackWeight cb)
  | Asap cb _ => S (callbackWeight cb)
  end.

Definition actionsWeight (body : list action) : nat :=
  sum_list_with actionWeight body.

Definition callbacksWeight (callbacks : option (list callback)) : nat :=
  sum_list_with callbackWeight (default [] callbacks).

Definition componentWeight (c : component) : nat :=
  sum_list_with actionsWeight (updates c) + callbacksWeight (_pendingCallbacks c).

Definition componentsWeight (m : gmap nat component) : nat :=
  map_fold (λ _ c n, componentWeight c + n) 0 m.

(** The work a state holds: a bound on the calls and reconciliations that
    are still to come. *)
Definition potential (s : state) : nat :=
  length (dirtyComponents s)
  + componentsWeight (components s)
  + callbacksWeight (_callbacks (asapCallbackQueue s))
  + (if asapEnqueued s then 1 else 0).

(** A run of user code within a batch, from [s] to [s']: it reconciles
    [recs], makes the calls [calls] from an asap queue, only adds to the
    dirty instances and to the asap queue, and adds at most [pot] to the
    potential while it leaves [gain] of it. *)
Definition within_batch (recs : list nat) (calls : list (callback * option nat))
    (pot gain : nat) (s s' : state) : Prop :=
  isBatchingUpdates s' = true
  ∧ updateBatchNumber s' = updateBatchNumber s
  ∧ (∀ c, _mountOrder (component_of s' c) = _mountOrder (component_of s c))
  ∧ (∃ more, dirtyComponents s' = dirtyComponents s ++ more)
  ∧ potential s' + gain ≤ potential s + pot
  ∧ ∃ evs, log s' = log s ++ evs
           ∧ reconciled evs = recs
           ∧ asapCalls evs = calls
           ∧ (wfQueue (asapCallbackQueue s) →
              wfQueue (asapCallbackQueue s')
              ∧ entries (asapCallbackQueue s')
                = entries (asapCallbackQueue s) ++ scheduled evs)
           ∧ (asapEnqueued s' = true
              ∨ asapEnqueued s' = asapEnqueued s ∧ scheduled evs = []).

(** The account of the asap callbacks over a log from [s] to [s']: those
    that were queued and those that were scheduled are those that were
    called and those that are queued. *)
Definition accounted (s s' : state) (evs : list event) : Prop :=
  due (entries (asapCallbackQueue s)) ++ due (scheduled evs)
  = asapCalls evs ++ due (entries (asapCallbackQueue s')).

(** A part of a flush, from [s] to [s']: the batch stays open, the asap
    callbacks are accounted for, and the potential went from [pot] above to
    [gain] below. *)
Definition progress (pot gain : nat) (s s' : state) : Prop :=
  batching s'
  ∧ potential s' + gain ≤ potential s + pot
  ∧ ∃ evs, log s' = log s ++ evs ∧ accounted s s' evs.

(** A run within a batch, from [s] to [s'], in which [asap] was called with
    what the user code that ran passes to it, and with nothing else, and
    in which the instances ran their updates in turn. *)
Definition traced (s s' : state) : Prop :=
  isBatchingUpdates s' = true
  ∧ ∃ evs, log s' = log s ++ evs
           ∧ scheduled evs = requested (pendingUpdates s) evs
           ∧ ∀ c, pendingUpdates s' c = remaining (pendingUpdates s) evs c.

(** The order of the flush: by [_mountOrder], as the instances are in
    [s]. *)
Definition byMountOrder (s : state) (c1 c2 : nat) : Prop :=
  _mountOrder (component_of s c1) ≤ _mountOrder (component_of s c2).

(** [x] comes before [y] in [l], wherever they occur. *)
Definition precedes (l : list nat) (x y : nat) : Prop :=
  ∀ i j, l !! i = Some x → l !! j = Some y → i < j.

(** An instance with no update pending. *)
Definition idle (mountOrder : nat) : component :=
  {| _mountOrder := mountOrder; _pendingCallbacks := None;
     _updateBatchNumber := None; updates := [] |}.

(** A batch in which the instances [1] and [2], stamped [1] and [2], were
    marked dirty, [2] first. *)
Definition childFirst : state :=
  {| components := {[1 := idle 1; 2 := idle 2]};
     dirtyComponents := [2; 1];
     updateBatchNumber := 0;
     asapCallbackQueue := emptyQueue;
     asapEnqueued := false;
     isBatchingUpdates := true;
     log := [] |}.

(** A batch in which [asap] was called with a callback that calls [asap]
    itself and marks the instance [0] dirty, whose update calls [asap]
    too. *)
Definition asapPending : state :=
  asap (Callback 1 [Asap (Callback 2 []) 8; EnqueueUpdate 0]) 7
    {| components :=
         {[0 := {| _mountOrder := 1; _pendingCallbacks := None;
                   _updateBatchNumber := None;
                   updates := [[Asap (Callback 3 []) 9]] |}]};
       dirtyComponents := [];
       updateBatchNumber := 0;
       asapCallbackQueue := emptyQueue;
       asapEnqueued := false;
       isBatchingUpdates := true;
       log := [] |}.

End ReactUpdatesSpec.


(* ================================================================== *)
(** ** Components to run the code on *)
(* ================================================================== *)

Module Examples.
Import ReactCompositeComponent CompositeSpec.

Definition noHooks (r : view → outcome element) : methodsOf element :=
  {| render := r;
     componentWillMount := None;
     componentDidMount := None;
     unstable_handleError := None;
     componentWillReceiveProps := None;
     shouldComponentUpdate := None;
     componentWillUpdate := None;
     componentDidUpdate := None;
     componentWillUnmount := None;
     getChildContext := None |}.

Definition class (id : nat) (name : string) (m : methodsOf element)
  : componentOf element :=
  {| typeId := id; displayName := name; isPureReactComponent := false;
     contextTypes := None; childContextTypes := None;
     body := BClass true (λ _ _, Returns JUndefined) m |}.

Definition noProps : objref := ObjRef 100 ∅.

Definition div : element := EHost "div" None [].

Definition mount (node : element) : result markup :=
  mountComponent node None None (Some emptyObject) initialWorld.

(** [this.state.error] is set. *)
Definition hasError (state : jsval) : bool :=
  match state with
  | JObj o => bool_decide (is_Some (ofields o !! "error"))
  | _ => false
  end.

(** [unstable_handleError(e) { this.setState({error: true}) }] *)
Definition rememberError : error → view → hookResult :=
  λ _ _, HookResult [SetState (JObj (ObjRef 50 {["error" := FBool true]}))] (Returns tt).

(** A unit with [componentDidMount] that renders a [div]. *)
Definition Plain : componentOf element :=
  class 1 "Plain"
    {| render := λ _, Returns div;
       componentWillMount := None;
       componentDidMount := Some (λ _, HookResult [] (Returns tt));
       unstable_handleError := None;
       componentWillReceiveProps := None;
       shouldComponentUpdate := None;
       componentWillUpdate := None;
       componentDidUpdate := None;
       componentWillUnmount := None;
       getChildContext := None |}.

(** The unit of the scenario: it declares the error hook, its [render]
    throws until the hook has recorded the error, and then gives a [div]. *)
Definition Boundary : componentOf element :=
  class 2 "Boundary"
    {| render := λ v, if hasError (v_state v) then Returns div
                      else Throws (UserError 7);
       componentWillMount := None;
       componentDidMount := Some (λ _, HookResult [] (Returns tt));
       unstable_handleError := Some rememberError;
       componentWillReceiveProps := None;
       shouldComponentUpdate := None;
       componentWillUpdate := None;
       componentDidUpdate := None;
       componentWillUnmount := None;
       getChildContext := None |}.

(** A unit whose [render] always throws. *)
Definition Broken : componentOf element :=
  class 3 "Broken" (noHooks (λ _, Throws (UserError 9))).

(** A unit that declares the error hook and renders [Broken] until the hook
    has recorded the error. *)
Definition BoundaryOfChild : componentOf element :=
  class 4 "BoundaryOfChild"
    {| render := λ v, if hasError (v_state v) then Returns div
                      else Returns (EComposite 11 Broken None noProps);
       componentWillMount := None;
       componentDidMount := Some (λ _, HookResult [] (Returns tt));
       unstable_handleError := Some rememberError;
       componentWillReceiveProps := None;
       shouldComponentUpdate := None;
       componentWillUpdate := None;
       componentDidUpdate := None;
       componentWillUnmount := None;
       getChildContext := None |}.

(** A unit that declares the error hook and whose [componentWillMount]
    throws until the hook has recorded the error. *)
Definition BoundaryWillMount : componentOf element :=
  class 5 "BoundaryWillMount"
    {| render := λ _, Returns div;
       componentWillMount :=
         Some (λ v, HookResult []
                      (if hasError (v_state v) then Returns tt
                       else Throws (UserError 8)));
       componentDidMount := None;
       unstable_handleError := Some rememberError;
       componentWillReceiveProps := None;
       shouldComponentUpdate := None;
       componentWillUpdate := None;
       componentDidUpdate := None;
       componentWillUnmount := None;
       getChildContext := None |}.

(** A unit whose [componentWillUnmount] throws. *)
Definition Grumpy : componentOf element :=
  class 6 "Grumpy"
    {| render := λ _, Returns div;
       componentWillMount := None;
       componentDidMount := None;
       unstable_handleError := None;
       componentWillReceiveProps := None;
       shouldComponentUpdate := None;
       componentWillUpdate := None;
       componentDidUpdate := None;
       componentWillUnmount := Some (λ _, HookResult [] (Throws (UserError 5)));
       getChildContext := None |}.

(** A unit that renders [Grumpy]. *)
Definition Outer : componentOf element :=
  class 7 "Outer" (noHooks (λ _, Returns (EComposite 12 Grumpy None noProps))).

(** [type], with the mount of each element it can produce, as
    [mountComponent] hands it to [mountComposite]. *)
Definition withMounts (type : componentOf element) : componentOf rendered :=
  component_map (λ e, (e, mountComponent e)) type.

(** The instance and the world of [mount (EComposite 10 type None noProps)]
    at the call of [performInitialMountWithErrorHandling], for a class [type]
    with methods [m]. *)
Definition atInitialMount (type : componentOf element) (m : methodsOf element)
  : composite * world :=
  (set_instance
     (Some {| inst_props := noProps; inst_context := emptyObject;
              inst_state := JNull; inst_calledComponentWillUnmount := false;
              inst_methods := OfClass m |})
     (set_compositeType (Some ImpureClass)
        (set_mountOrder 1
           (set_context (Some emptyObject)
              (construct (CElement 10 type None noProps))))),
   set_trace [EvMountOrder 1; EvConstruct 1] (set_nextMountID 2 initialWorld)).

Definition methods_of_class (type : componentOf element) : methodsOf element :=
  match body type with
  | BClass _ _ m => m
  | BFunctional fn => noHooks (λ v, fn (v_props v) (v_context v))
  end.

(** [Grumpy] once mounted. *)
Definition mountedGrumpy : composite :=
  Eval lazy in
    match (mount (EComposite 12 Grumpy None noProps)).1.1 with
    | IComposite this => this
    | _ => construct (CElement 12 Grumpy None noProps)
    end.

(** [Outer] once mounted, and the instance of [Grumpy] that it rendered. *)
Definition mountedOuter : composite :=
  Eval lazy in
    match (mount (EComposite 10 Outer None noProps)).1.1 with
    | IComposite this => this
    | _ => construct (CElement 10 Outer None noProps)
    end.

Definition worldOuter : world :=
  Eval lazy in (mount (EComposite 10 Outer None noProps)).1.2.

Definition mountedOuterChild : composite :=
  Eval lazy in
    match _renderedComponent mountedOuter with
    | Some (IComposite this) => this
    | _ => construct (CElement 12 Grumpy None noProps)
    end.

(** [Grumpy], mounted in [worldOuter], once unmounted with the safe
    flag. *)
Definition unmountedGrumpy : instance :=
  Eval lazy in (unmountComponent true (IComposite mountedGrumpy) worldOuter).1.1.

Definition worldUnmountedGrumpy : world :=
  Eval lazy in (unmountComponent true (IComposite mountedGrumpy) worldOuter).1.2.

End Examples.

(* ================================================================== *)
(** ** Further notions for the composite component *)
(* ================================================================== *)

Module CompositeNotions.
Import ReactCompositeComponent CompositeSpec.

(** The value of the property [key] after the objects [partials] were
    assigned in order onto an object that had [base] for it: that of the
    last object that has the property. *)
Definition lastAssigned (key : string) (base : option fval) (partials : list objref)
  : option fval :=
  foldl (λ value partial, match ofields partial !! key with
                          | Some v => Some v
                          | None => value
                          end) base partials.


(** The name is declared in the object whose own property names are
    [declared], as [in] sees it: as an own property or as one of
    [Object.prototype]. *)
Definition declaredIn (declared : list string) (key : string) : Prop :=
  key ∈ declared ∨ is_Some (Object_prototype !! key).

(** The value, if it is an object, has an identity that was given out
    before the counter of [w] reached its present value. *)
Definition allocated (w : world) (v : jsval) : bool :=
  match v with
  | JObj o => bool_decide (oid o < nextObjectID w)
  | _ => true
  end.

(** A unit with a state, a context and a child context whose
    [componentWillMount] calls [setState] with an updater. *)
Definition noRender : methodsOf element :=
  {| render := λ _, Returns EEmpty;
     componentWillMount := None;
     componentDidMount := None;
     unstable_handleError := None;
     componentWillReceiveProps := None;
     shouldComponentUpdate := None;
     componentWillUpdate := None;
     componentDidUpdate := None;
     componentWillUnmount := None;
     getChildContext := Some (λ _, Some {["theme" := FStr "dark"]}) |}.

Definition Provider : componentOf element :=
  {| typeId := 20; displayName := "Provider"; isPureReactComponent := false;
     contextTypes := Some ["locale"; "user"];
     childContextTypes := Some ["theme"];
     body := BClass true (λ _ _, Returns JUndefined) noRender |}.

(** An instance of [Provider] as [construct] and the constructor leave
    it, with a state of its own. *)
Definition providerInstance : publicInstance :=
  {| inst_props := ObjRef 100 ∅;
     inst_context := emptyObject;
     inst_state := JObj (ObjRef 7 {["count" := FNum 1; "name" := FStr "a"]});
     inst_calledComponentWillUnmount := false;
     inst_methods := OfClass noRender |}.

Definition provider : composite :=
  set_instance (Some providerInstance)
    (construct (CElement 30 Provider None (ObjRef 100 ∅))).

(** A unit that names properties of [Object.prototype]: it declares
    [toString] in its [contextTypes], and its child context has a
    [valueOf] that its [childContextTypes] does not declare. *)
Definition inheritorMethods : methodsOf element :=
  {| render := λ _, Returns EEmpty;
     componentWillMount := None;
     componentDidMount := None;
     unstable_handleError := None;
     componentWillReceiveProps := None;
     shouldComponentUpdate := None;
     componentWillUpdate := None;
     componentDidUpdate := None;
     componentWillUnmount := None;
     getChildContext :=
       Some (λ _, Some {["theme" := FStr "dark"; "valueOf" := FNum 0]}) |}.

Definition Inheritor : componentOf element :=
  {| typeId := 21; displayName := "Inheritor"; isPureReactComponent := false;
     contextTypes := Some ["locale"; "toString"];
     childContextTypes := Some ["theme"];
     body := BClass true (λ _ _, Returns JUndefined) inheritorMethods |}.

Definition inheritor : composite :=
  set_instance
    (Some {| inst_props := ObjRef 100 ∅;
             inst_context := emptyObject;
             inst_state := JNull;
             inst_calledComponentWillUnmount := false;
             inst_methods := OfClass inheritorMethods |})
    (construct (CElement 31 Inheritor None (ObjRef 100 ∅))).

(** A unit whose child context has a key that is neither declared nor
    inherited. *)
Definition strayMethods : methodsOf element :=
  {| render := λ _, Returns EEmpty;
     componentWillMount := None;
     componentDidMount := None;
     unstable_handleError := None;
     componentWillReceiveProps := None;
     shouldComponentUpdate := None;
     componentWillUpdate := None;
     componentDidUpdate := None;
     componentWillUnmount := None;
     getChildContext :=
       Some (λ _, Some {["theme" := FStr "dark"; "stray" := FNum 0]}) |}.

Definition Stray : componentOf element :=
  {| typeId := 22; displayName := "Stray"; isPureReactComponent := false;
     contextTypes := None;
     childContextTypes := Some ["theme"];
     body := BClass true (λ _ _, Returns JUndefined) strayMethods |}.

Definition stray : composite :=
  set_instance
    (Some {| inst_props := ObjRef 100 ∅;
             inst_context := emptyObject;
             inst_state := JNull;
             inst_calledComponentWillUnmount := false;
             inst_methods := OfClass strayMethods |})
    (construct (CElement 32 Stray None (ObjRef 100 ∅))).

End CompositeNotions.

(* ================================================================== *)
(** ** Notions for ReactMount *)
(* ================================================================== *)

Module ReactMountSpec.
Import ReactMount.

(** The length of the longest common prefix of two strings. *)
Fixpoint commonPrefix (string1 string2 : jsstring) : nat :=
  match string1, string2 with
  | unit1 :: rest1, unit2 :: rest2 =>
      if bool_decide (unit1 = unit2) then S (commonPrefix rest1 rest2) else 0
  | _, _ => 0
  end.

End ReactMountSpec.


(* ================================================================== *)
(** ** Facts: ReactCompositeComponent *)
(* ================================================================== *)

Module CompositeFacts.
Import ReactCompositeComponent CompositeSpec.

(** Runs the monadic primitives of a method on an explicit state. *)
Ltac exec :=
  repeat first
    [ progress cbn [fst snd]
    | progress unfold bind, thisInstance, getThis, getWorld, ret, throw, assign,
        modifyWorld, emit, when, liftOutcome, assignInst, tryCatch ].

(** *** The state merge *)

(** C8.  With no pending queue, [_processPendingState] returns [inst.state]
    itself, the same object, and allocates nothing: the world is unchanged
    and [this] only has its two pending fields reset. *)
Theorem processPendingState_no_queue (this : composite) (inst : publicInstance)
    (w : world) (props context : objref) :
  let this0 := set_pendingStateQueue None (set_instance (Some inst) this) in
  _processPendingState props context (this0, w)
  = ((set_pendingStateQueue None (set_pendingReplaceState false this0), w),
     Returns (inst_state inst)).
Proof. reflexivity. Qed.

Lemma processPendingState_replace_run (this : composite) (w : world)
    (props context : objref) (entry : jsval) (rest : list jsval) :
  let this0 :=
    set_pendingReplaceState true (set_pendingStateQueue (Some (entry :: rest)) this) in
  _processPendingState props context (this0, w)
  = match rest with
    | [] =>
        ((set_pendingStateQueue None (set_pendingReplaceState false this0), w),
         Returns entry)
    | _ :: _ =>
        ((set_pendingStateQueue None (set_pendingReplaceState false this0),
          set_nextObjectID (S (nextObjectID w)) w),
         Returns (JObj (ObjRef (nextObjectID w) (replaced props context entry rest))))
    end.
Proof. destruct rest; reflexivity. Qed.

(** C3.  With the replace flag set: a queue of one entry gives that entry
    itself; a longer queue gives a new object that is accumulated from the
    first entry on, whatever the instance's state was. *)
Theorem processPendingState_replace (this : composite) (w : world)
    (props context : objref) (entry : jsval) (rest : list jsval) :
  let queued (this : composite) :=
    set_pendingReplaceState true (set_pendingStateQueue (Some (entry :: rest)) this) in
  snd (_processPendingState props context (queued this, w))
  = Returns (match rest with
             | [] => entry
             | _ :: _ =>
                 JObj (ObjRef (nextObjectID w) (replaced props context entry rest))
             end)
  ∧ ∀ state : jsval,
      snd (_processPendingState props context
             (queued (set_instance (set_inst_state state <$> _instance this) this), w))
      = snd (_processPendingState props context (queued this, w)).
Proof.
  cbv zeta. split.
  - rewrite processPendingState_replace_run. destruct rest; reflexivity.
  - intros state.
    rewrite !processPendingState_replace_run. destruct rest; reflexivity.
Qed.

(** *** The decision of an update *)

(** C4.  [updateComponent] merges the pending state and then renders again
    exactly when the decision of the specification says so, on the force
    flag, the answer of the [shouldComponentUpdate] hook, the pure variant
    and the two shallow comparisons (previous against next props, current
    against merged state), as they are once the state is merged; otherwise
    it only commits the next element, props, state and context. *)
Theorem updateComponent_shouldUpdate
    (shallowEqual : jsval → jsval → bool)
    (receiveChild : instance → element → option objref → childOp unit)
    (replaceNode : instance → markup → world → world)
    (prevParentElement nextParentElement : celement)
    (prevUnmaskedContext nextUnmaskedContext : option objref)
    (s : composite * world) :
  updateComponent shallowEqual receiveChild replaceNode
    prevParentElement nextParentElement prevUnmaskedContext nextUnmaskedContext s
  = match updateComponent_nextState prevParentElement nextParentElement
            prevUnmaskedContext nextUnmaskedContext s with
    | (s1, Throws e) => (s1, Throws e)
    | ((this1, w1), Returns (nextProps, nextState, nextContext)) =>
        match _instance this1 with
        | None => ((this1, w1), Throws (TypeError "Cannot read property of null"))
        | Some inst =>
            if shouldUpdate_spec
                 (_pendingForceUpdate this1)
                 ((λ hook, hook nextProps nextState nextContext (view_of inst))
                    <$> method shouldComponentUpdate inst)
                 (match _compositeType this1 with Some PureClass => true | _ => false end)
                 (shallowEqual (JObj (el_props prevParentElement)) (JObj nextProps))
                 (shallowEqual (inst_state inst) nextState)
            then
              _performComponentUpdate receiveChild replaceNode
                nextParentElement nextProps nextState nextContext nextUnmaskedContext
                (set_pendingForceUpdate false (set_updateBatchNumber None this1), w1)
            else
              (({| _currentElement := nextParentElement;
                   _rootNodeID := _rootNodeID this1;
                   _compositeType := _compositeType this1;
                   _instance :=
                     Some {| inst_props := nextProps; inst_context := nextContext;
                             inst_state := nextState;
                             inst_calledComponentWillUnmount :=
                               inst_calledComponentWillUnmount inst;
                             inst_methods := inst_methods inst |};
                   _hostParent := _hostParent this1;
                   _hostContainerInfo := _hostContainerInfo this1;
                   _updateBatchNumber := None;
                   _pendingElement := _pendingElement this1;
                   _pendingStateQueue := _pendingStateQueue this1;
                   _pendingReplaceState := _pendingReplaceState this1;
                   _pendingForceUpdate := _pendingForceUpdate this1;
                   _renderedNodeType := _renderedNodeType this1;
                   _renderedComponent := _renderedComponent this1;
                   _context := nextUnmaskedContext;
                   _mountOrder := _mountOrder this1;
                   _topLevelWrapper := _topLevelWrapper this1;
                   _pendingCallbacks := _pendingCallbacks this1;
                   _calledComponentWillUnmount := _calledComponentWillUnmount this1 |},
                w1), Returns tt)
        end
    end.
Proof.
  unfold updateComponent at 1. unfold bind at 1.
  destruct (updateComponent_nextState _ _ _ _ s)
    as [[this1 w1] [[[nextProps nextState] nextContext]|e]]; [|reflexivity].
  exec. destruct this1 as [? ? ctype [inst|] ? ? ? ? ? ? force ? ? ? ? ? ? ?];
    cbn [_instance]; [|reflexivity].
  unfold shouldUpdate_of, shouldUpdate_spec, updateComponent_skip.
  cbn [_pendingForceUpdate _compositeType].
  destruct force; cbn [negb fmap option_fmap option_map]; [reflexivity|].
  destruct (method shouldComponentUpdate inst) as [hook|];
    cbn [fmap option_fmap option_map].
  - destruct (hook _ _ _ _); reflexivity.
  - destruct ctype as [[]|]; try reflexivity.
    destruct (negb _ || negb _); reflexivity.
Qed.

(** *** Induction on elements and on instances *)

Import CompositeLogic.

Lemma element_ind' (P : element → Prop) :
  P EEmpty →
  (∀ tag key children, Forall P children → P (EHost tag key children)) →
  (∀ id type key props, (∀ e, produces type e → P e) →
                        P (EComposite id type key props)) →
  ∀ e, P e.
Proof.
  intros Hempty Hhost Hcomposite.
  fix IH 1. intros [|tag key children|id type key props].
  - exact Hempty.
  - apply Hhost. revert children. fix IHchildren 1. intros [|child children].
    + constructor.
    + constructor; [apply IH | apply IHchildren].
  - apply Hcomposite. intros e. unfold produces.
    destruct type as [? ? ? ? ? [isReactComponent ctor m|fn]]; cbn [body].
    + intros [v Hv]. destruct m as [r ? ? ? ? ? ? ? ? ?]; cbn [render] in Hv.
      revert Hv. destruct (r v) as [e'|x]; intros Hv; [|discriminate].
      injection Hv as Heq. rewrite <- Heq. apply IH.
    + intros (props' & context & Hfn). revert Hfn.
      destruct (fn props' context) as [e'|x]; intros Hfn; [|discriminate].
      injection Hfn as Heq. rewrite <- Heq. apply IH.
Qed.

Lemma instance_ind' (P : instance → Prop) :
  P IEmpty →
  (∀ tag key children, Forall P children → P (IHost tag key children)) →
  (∀ c, (∀ child, _renderedComponent c = Some child → P child) →
        P (IComposite c)) →
  ∀ i, P i.
Proof.
  intros Hempty Hhost Hcomposite.
  fix IH 1. intros [|tag key children|c].
  - exact Hempty.
  - apply Hhost. revert children. fix IHchildren 1. intros [|child children].
    + constructor.
    + constructor; [apply IH | apply IHchildren].
  - apply Hcomposite. intros child.
    destruct c as [? ? ? ? ? ? ? ? ? ? ? ? [child'|] ? ? ? ? ?];
      cbn [_renderedComponent]; intros Hchild; [|discriminate].
    injection Hchild as Heq. rewrite <- Heq. apply IH.
Qed.

(** *** The weakest precondition of a method *)

Lemma wp_bind {A B} (m : M A) (k : A → M B) Q s :
  wp m (λ s1 r, match r with
                | Returns a => wp (k a) Q s1
                | Throws e => Q s1 (Throws e)
                end) s →
  wp (bind m k) Q s.
Proof. unfold wp, bind. destruct (m s) as [s1 [a|e]]; auto. Qed.

Lemma wp_tryCatch {A} (m : M A) (h : error → M A) Q s :
  wp m (λ s1 r, match r with
                | Returns a => Q s1 (Returns a)
                | Throws e => wp (h e) Q s1
                end) s →
  wp (tryCatch m h) Q s.
Proof. unfold wp, tryCatch. destruct (m s) as [s1 [a|e]]; auto. Qed.

Lemma wp_mono {A} (m : M A) (Q Q' : composite * world → outcome A → Prop) s :
  wp m Q s → (∀ s1 r, Q s1 r → Q' s1 r) → wp m Q' s.
Proof. unfold wp. auto. Qed.

Lemma wp_quiet {A} (m : M A) Q s :
  Quiet m → (∀ s1 r, quiet s s1 → Q s1 r) → wp m Q s.
Proof. unfold wp. intros Hm HQ. apply HQ, Hm. Qed.

Lemma wp_calm {A} (m : M A) Q s :
  Calm m → (∀ s1 r, calm s s1 → Q s1 r) → wp m Q s.
Proof. unfold wp. intros Hm HQ. apply HQ, Hm. Qed.

Lemma wp_run {A} (m : M A) Q s s1 r : m s = (s1, r) → wp m Q s → Q s1 r.
Proof. unfold wp. intros ->. auto. Qed.

(** *** The relations are preorders *)

Lemma noStamp_nil : noStamp [].
Proof. intros k Hk. inversion Hk. Qed.

Lemma noStamp_app l1 l2 : noStamp l1 → noStamp l2 → noStamp (l1 ++ l2).
Proof. intros H1 H2 k Hk. apply elem_of_app in Hk as [Hk|Hk]; [eapply H1|eapply H2]; eauto. Qed.

Lemma quiet_world_refl w : quiet_world w w.
Proof.
  split; [reflexivity|]. exists []. split; [by rewrite app_nil_r|apply noStamp_nil].
Qed.

Lemma quiet_world_trans w1 w2 w3 :
  quiet_world w1 w2 → quiet_world w2 w3 → quiet_world w1 w3.
Proof.
  intros (Hn1 & rest1 & Ht1 & Hs1) (Hn2 & rest2 & Ht2 & Hs2).
  split; [congruence|]. exists (rest1 ++ rest2). split.
  - by rewrite Ht2, Ht1, app_assoc.
  - by apply noStamp_app.
Qed.

Lemma advance_world_refl w : advance_world w w.
Proof.
  split; [reflexivity|]. exists []. split; [by rewrite app_nil_r|].
  intros k Hk. inversion Hk.
Qed.

Lemma advance_world_trans w1 w2 w3 :
  advance_world w1 w2 → advance_world w2 w3 → advance_world w1 w3.
Proof.
  intros (Hn1 & rest1 & Ht1 & Hs1) (Hn2 & rest2 & Ht2 & Hs2).
  split; [lia|]. exists (rest1 ++ rest2). split.
  - by rewrite Ht2, Ht1, app_assoc.
  - intros k Hk. apply elem_of_app in Hk as [Hk|Hk].
    + apply Hs1 in Hk. lia.
    + apply Hs2 in Hk. lia.
Qed.

Lemma quiet_advance_world w w' : quiet_world w w' → advance_world w w'.
Proof.
  intros (Hn & rest & Ht & Hs). split; [lia|]. exists rest. split; [done|].
  intros k Hk. by apply Hs in Hk.
Qed.

Lemma calm_refl s : calm s s.
Proof. split; [reflexivity|apply quiet_world_refl]. Qed.

Lemma calm_trans s1 s2 s3 : calm s1 s2 → calm s2 s3 → calm s1 s3.
Proof.
  intros [Ho1 Hw1] [Ho2 Hw2]. split; [congruence|by eapply quiet_world_trans].
Qed.

Lemma quiet_refl s : quiet s s.
Proof. split; [reflexivity|apply calm_refl]. Qed.

Lemma quiet_trans s1 s2 s3 : quiet s1 s2 → quiet s2 s3 → quiet s1 s3.
Proof.
  intros [Ho1 Hw1] [Ho2 Hw2]. split; [congruence|by eapply calm_trans].
Qed.

Lemma quiet_calm s s' : quiet s s' → calm s s'.
Proof. by intros [_ H]. Qed.

Lemma advance_refl s : advance s s.
Proof. split; [reflexivity|apply advance_world_refl]. Qed.

Lemma advance_trans s1 s2 s3 : advance s1 s2 → advance s2 s3 → advance s1 s3.
Proof.
  intros [Ho1 Hw1] [Ho2 Hw2]. split; [congruence|by eapply advance_world_trans].
Qed.

Lemma calm_advance s s' : calm s s' → advance s s'.
Proof. intros [Ho Hw]. split; [done|by apply quiet_advance_world]. Qed.

Lemma quiet_advance s s' : quiet s s' → advance s s'.
Proof. intros H. by apply calm_advance, quiet_calm. Qed.

(** *** Methods that stamp nothing *)

Lemma Quiet_ret {A} (a : A) : Quiet (ret a).
Proof. intros s. apply quiet_refl. Qed.

Lemma Quiet_throw {A} (e : error) : Quiet (@throw A e).
Proof. intros s. apply quiet_refl. Qed.

Lemma Quiet_getThis : Quiet getThis.
Proof. intros s. apply quiet_refl. Qed.

Lemma Quiet_getWorld : Quiet getWorld.
Proof. intros s. apply quiet_refl. Qed.

Lemma Quiet_bind {A B} (m : M A) (k : A → M B) :
  Quiet m → (∀ a, Quiet (k a)) → Quiet (bind m k).
Proof.
  intros Hm Hk s. unfold bind. specialize (Hm s).
  destruct (m s) as [s1 [a|e]]; [|done].
  eapply quiet_trans; [exact Hm|apply Hk].
Qed.

Lemma Quiet_tryCatch {A} (m : M A) (h : error → M A) :
  Quiet m → (∀ e, Quiet (h e)) → Quiet (tryCatch m h).
Proof.
  intros Hm Hh s. unfold tryCatch. specialize (Hm s).
  destruct (m s) as [s1 [a|e]]; [done|].
  eapply quiet_trans; [exact Hm|apply Hh].
Qed.

Lemma Quiet_assign (f : composite → composite) :
  (∀ this, _renderedComponent (f this) = _renderedComponent this
           ∧ _mountOrder (f this) = _mountOrder this) →
  Quiet (assign f).
Proof.
  intros Hf s. split; [apply Hf|]. split; [apply Hf|apply quiet_world_refl].
Qed.

Lemma Quiet_modifyWorld (f : world → world) :
  (∀ w, quiet_world w (f w)) → Quiet (modifyWorld f).
Proof. intros Hf s. split; [reflexivity|]. split; [reflexivity|apply Hf]. Qed.

Lemma Quiet_emit (ev : event) :
  (∀ k, ev ≠ EvMountOrder k) → Quiet (emit ev).
Proof.
  intros Hev. apply Quiet_modifyWorld. intros w. split; [reflexivity|].
  exists [ev]. split; [reflexivity|].
  intros k Hk. apply list_elem_of_singleton in Hk. by eapply Hev.
Qed.

Lemma Quiet_when (b : bool) (m : M unit) : Quiet m → Quiet (when b m).
Proof. destruct b; [done|intros _; apply Quiet_ret]. Qed.

Lemma Quiet_liftOutcome {A} (r : outcome A) : Quiet (liftOutcome r).
Proof. destruct r; [apply Quiet_ret|apply Quiet_throw]. Qed.

Lemma quiet_world_set_nextObjectID n w : quiet_world w (set_nextObjectID n w).
Proof.
  split; [reflexivity|]. exists []. split; [cbn; by rewrite app_nil_r|apply noStamp_nil].
Qed.

Lemma quiet_world_set_reactMountReady q w : quiet_world w (set_reactMountReady q w).
Proof.
  split; [reflexivity|]. exists []. split; [cbn; by rewrite app_nil_r|apply noStamp_nil].
Qed.

Lemma quiet_world_set_caughtErrors l w : quiet_world w (set_caughtErrors l w).
Proof.
  split; [reflexivity|]. exists []. split; [cbn; by rewrite app_nil_r|apply noStamp_nil].
Qed.

Create HintDb quiet.

#[export] Hint Resolve Quiet_ret Quiet_throw Quiet_getThis Quiet_getWorld
  Quiet_liftOutcome quiet_world_set_nextObjectID quiet_world_set_reactMountReady
  quiet_world_set_caughtErrors : quiet.

(** Proves [Quiet m] for a method made of the primitives and of methods
    that are known to be quiet. *)
Ltac quiet :=
  repeat first
    [ assumption
    | solve [auto with quiet]
    | apply Quiet_bind; [|intros ?]
    | apply Quiet_tryCatch; [|intros ?]
    | apply Quiet_when
    | apply Quiet_assign; intros ?; split; reflexivity
    | apply Quiet_emit; intros ?; discriminate
    | apply Quiet_modifyWorld; intros ?; auto with quiet
    | match goal with
      | |- Quiet (match ?x with _ => _ end) => destruct x
      | |- Quiet (if ?x then _ else _) => destruct x
      | |- Quiet (let '(_, _) := ?x in _) => destruct x
      end ].

Lemma Quiet_thisInstance : Quiet thisInstance.
Proof. unfold thisInstance. quiet. Qed.

Lemma Quiet_assignInst f : Quiet (assignInst f).
Proof. unfold assignInst. quiet. Qed.

Lemma Quiet_newObject fields : Quiet (newObject fields).
Proof. unfold newObject. quiet. Qed.

#[export] Hint Resolve Quiet_thisInstance Quiet_assignInst Quiet_newObject : quiet.

Lemma Quiet_enqueueUpdate : Quiet enqueueUpdate.
Proof. unfold enqueueUpdate. quiet. Qed.

#[export] Hint Resolve Quiet_enqueueUpdate : quiet.

Lemma Quiet_applyEffect eff : Quiet (applyEffect eff).
Proof. unfold applyEffect. quiet. Qed.

#[export] Hint Resolve Quiet_applyEffect : quiet.

Lemma Quiet_applyEffects effs : Quiet (applyEffects effs).
Proof. induction effs; cbn [applyEffects]; quiet. Qed.

#[export] Hint Resolve Quiet_applyEffects : quiet.

Lemma Quiet_runHook h : Quiet (runHook h).
Proof. unfold runHook. quiet. Qed.

#[export] Hint Resolve Quiet_runHook : quiet.

Lemma Quiet_invokeGuardedCallback name func :
  Quiet func → Quiet (invokeGuardedCallback name func).
Proof. intros Hf. unfold invokeGuardedCallback. quiet. Qed.

Lemma Quiet_transaction_checkpoint : Quiet transaction_checkpoint.
Proof. unfold transaction_checkpoint. quiet. Qed.

Lemma Quiet_transaction_rollback n : Quiet (transaction_rollback n).
Proof. unfold transaction_rollback. quiet. Qed.

Lemma Quiet_getReactMountReady_enqueue cb : Quiet (getReactMountReady_enqueue cb).
Proof. unfold getReactMountReady_enqueue. quiet. Qed.

#[export] Hint Resolve Quiet_invokeGuardedCallback Quiet_transaction_checkpoint
  Quiet_transaction_rollback Quiet_getReactMountReady_enqueue : quiet.

Lemma Quiet_processPendingState props context :
  Quiet (_processPendingState props context).
Proof. unfold _processPendingState. quiet. Qed.

#[export] Hint Resolve Quiet_processPendingState : quiet.

Lemma Quiet_mergePendingStateIfAny : Quiet mergePendingStateIfAny.
Proof. unfold mergePendingStateIfAny. quiet. Qed.

Lemma Quiet_processContext context : Quiet (_processContext context).
Proof. unfold _processContext, _maskContext. quiet. Qed.

Lemma Quiet_processChildContext context : Quiet (_processChildContext context).
Proof. unfold _processChildContext. quiet. Qed.

Lemma Quiet_constructComponent C doConstruct props context :
  Quiet (_constructComponent C doConstruct props context).
Proof. unfold _constructComponent, _constructComponentWithoutOwner. quiet. Qed.

Lemma Quiet_renderValidatedComponent C : Quiet (_renderValidatedComponent C).
Proof.
  unfold _renderValidatedComponent, _renderValidatedComponentWithoutOwnerOrContext.
  quiet.
Qed.

#[export] Hint Resolve Quiet_mergePendingStateIfAny Quiet_processContext
  Quiet_processChildContext Quiet_constructComponent
  Quiet_renderValidatedComponent : quiet.

(** *** Primitive steps of the weakest precondition *)

Lemma wp_ret {A} (a : A) Q s : Q s (Returns a) → wp (ret a) Q s.
Proof. done. Qed.

Lemma wp_throw {A} (e : error) (Q : _ → outcome A → Prop) s :
  Q s (Throws e) → wp (throw e) Q s.
Proof. done. Qed.

Lemma wp_getThis Q s : Q s (Returns s.1) → wp getThis Q s.
Proof. done. Qed.

Lemma wp_getWorld Q s : Q s (Returns s.2) → wp getWorld Q s.
Proof. done. Qed.

Lemma wp_assign f Q s : Q (f s.1, s.2) (Returns tt) → wp (assign f) Q s.
Proof. done. Qed.

Lemma wp_modifyWorld f Q s : Q (s.1, f s.2) (Returns tt) → wp (modifyWorld f) Q s.
Proof. done. Qed.

Lemma wp_emit ev Q s :
  Q (s.1, set_trace (trace s.2 ++ [ev]) s.2) (Returns tt) → wp (emit ev) Q s.
Proof. done. Qed.

(** One step of a method on the goal [wp m Q s]. *)
Ltac wp_step :=
  lazymatch goal with
  | |- wp (bind _ _) _ _ => apply wp_bind
  | |- wp (tryCatch _ _) _ _ => apply wp_tryCatch
  | |- wp getThis _ _ => apply wp_getThis
  | |- wp getWorld _ _ => apply wp_getWorld
  | |- wp (assign _) _ _ => apply wp_assign
  | |- wp (modifyWorld _) _ _ => apply wp_modifyWorld
  | |- wp (emit _) _ _ => apply wp_emit
  | |- wp (ret _) _ _ => apply wp_ret
  | |- wp (throw _) _ _ => apply wp_throw
  | |- wp (when ?b _) _ _ => destruct b eqn:?; cbn [when]
  | |- wp (match ?x with _ => _ end) _ _ => destruct x eqn:?
  | |- wp (if ?x then _ else _) _ _ => destruct x eqn:?
  end; cbn [fst snd].

(** A step over a method that is known to be quiet. *)
Ltac wp_over :=
  apply wp_quiet; [solve [quiet] | intros [? ?] [?|?] ?]; cbn [fst snd].

(** *** Unmounting stamps nothing *)

Lemma Calm_bind {A B} (m : M A) (k : A → M B) :
  Calm m → (∀ a, Calm (k a)) → Calm (bind m k).
Proof.
  intros Hm Hk s. unfold bind. specialize (Hm s).
  destruct (m s) as [s1 [a|e]]; [|done].
  eapply calm_trans; [exact Hm|apply Hk].
Qed.

Lemma Quiet_Calm {A} (m : M A) : Quiet m → Calm m.
Proof. intros Hm s. apply quiet_calm, Hm. Qed.

Lemma Calm_assign (f : composite → composite) :
  (∀ this, _mountOrder (f this) = _mountOrder this) → Calm (assign f).
Proof. intros Hf s. split; [apply Hf|apply quiet_world_refl]. Qed.

Create HintDb calm.

(** Proves [Calm m]. *)
Ltac calm :=
  repeat first
    [ assumption
    | solve [auto with calm]
    | apply Quiet_Calm; solve [quiet]
    | apply Calm_bind; [|intros ?]
    | apply Calm_assign; intros ?; reflexivity
    | match goal with
      | |- Calm (when ?x _) => destruct x; cbn [when]
      | |- Calm (match ?x with _ => _ end) => destruct x
      | |- Calm (if ?x then _ else _) => destruct x
      end ].

Lemma Calm_ReactReconciler_unmountComponent (unmountChild : option (childOp unit)) :
  (∀ unmount, unmountChild = Some unmount → ∀ w, quiet_world w (unmount w).1.2) →
  Calm (ReactReconciler_unmountComponent unmountChild).
Proof.
  intros Hchild [this w]. unfold ReactReconciler_unmountComponent.
  destruct unmountChild as [unmount|]; [|apply calm_refl].
  specialize (Hchild unmount eq_refl w). cbn [fst snd].
  destruct (unmount w) as [[child w'] r]. split; [reflexivity|exact Hchild].
Qed.

Lemma Calm_unmountComposite safely (unmountChild : option (childOp unit)) :
  (∀ unmount, unmountChild = Some unmount → ∀ w, quiet_world w (unmount w).1.2) →
  Calm (unmountComposite safely unmountChild).
Proof.
  intros Hchild. pose proof (Calm_ReactReconciler_unmountComponent _ Hchild).
  unfold unmountComposite. calm.
Qed.

Lemma unmountChildren_quiet (unmountChild : instance → childOp unit) children :
  Forall (λ child, ∀ w, quiet_world w (unmountChild child w).1.2) children →
  ∀ w, quiet_world w (unmountChildren unmountChild children w).1.2.
Proof.
  induction 1 as [|child children Hchild _ IH]; intros w; cbn [unmountChildren].
  - apply quiet_world_refl.
  - specialize (Hchild w). destruct (unmountChild child w) as [[child' w1] [[]|e]].
    + specialize (IH w1).
      destruct (unmountChildren unmountChild children w1) as [[rest' w2] r].
      eapply quiet_world_trans; [exact Hchild|exact IH].
    + exact Hchild.
Qed.

Lemma unmountComponent_quiet safely i :
  ∀ w, quiet_world w (unmountComponent safely i w).1.2.
Proof.
  induction i as [|tag key children IH|c IH] using instance_ind'; intros w.
  - apply quiet_world_refl.
  - cbn [unmountComponent].
    pose proof (unmountChildren_quiet _ _ IH
                  (set_trace (trace w ++ [EvHostUnmount tag safely]) w)) as Hq.
    destruct (unmountChildren _ _ _) as [[children' w'] [[]|e]]; cbn [fst snd] in *.
    all: eapply quiet_world_trans; [|exact Hq].
    all: split; [reflexivity|]; exists [EvHostUnmount tag safely].
    all: split; [reflexivity|]; intros k Hk.
    all: apply list_elem_of_singleton in Hk; discriminate.
  - cbn [unmountComponent].
    assert (Calm (unmountComposite safely
              match _renderedComponent c with
              | Some child => Some (unmountComponent safely child)
              | None => None
              end)) as Hq.
    { apply Calm_unmountComposite. intros unmount Hu w0.
      destruct (_renderedComponent c) as [child|] eqn:Hc; [|discriminate].
      injection Hu as <-. by apply IH. }
    specialize (Hq (c, w)).
    destruct (unmountComposite _ _ _) as [[this' w'] r]. apply Hq.
Qed.

Lemma Calm_renderedComponent_unmountComponent safely :
  Calm (renderedComponent_unmountComponent safely).
Proof.
  intros [this w]. unfold renderedComponent_unmountComponent. cbn [fst snd].
  destruct (_renderedComponent this) as [child|]; [|apply calm_refl].
  pose proof (unmountComponent_quiet safely child w) as Hq.
  destruct (unmountComponent safely child w) as [[child' w'] r].
  split; [reflexivity|exact Hq].
Qed.

#[export] Hint Resolve Calm_renderedComponent_unmountComponent : calm.

(** *** Mounting stamps parents first *)

Lemma within_weaken lo lo' hi hi' i :
  within lo hi i → lo' ≤ lo → hi ≤ hi' → within lo' hi' i.
Proof. intros H ? ? k Hk. apply H in Hk. lia. Qed.

Lemma mounted_advance {A} (s0 s s' : composite * world) (r : outcome A) :
  advance s0 s → mounted s s' r → mounted s0 s' r.
Proof.
  intros Ha [Ha' Hr]. split; [by eapply advance_trans|].
  intros Hret. destruct (Hr Hret) as (child & Hc & Hw & Hp).
  exists child. split_and!; [done| |done].
  eapply within_weaken; [exact Hw| |lia]. apply Ha.
Qed.

Lemma mounted_quiet {A B} (s s1 s2 : composite * world) (a : A) (r : outcome B) :
  mounted s s1 (Returns a) → quiet s1 s2 → mounted s s2 r.
Proof.
  intros [Ha Hr] Hq. split.
  - eapply advance_trans; [exact Ha|by apply quiet_advance].
  - intros _. destruct (Hr eq_refl) as (child & Hch & Hw & Hp).
    exists child. destruct Hq as (Hc & _ & Hn & _).
    split_and!; [congruence| |done]. by rewrite Hn.
Qed.

Lemma mounted_throws {A} (s s' : composite * world) (e : error) :
  advance s s' → mounted (A := A) s s' (Throws e).
Proof. intros Ha. split; [done|]. discriminate. Qed.

Lemma mounted_is_advance {A} (s s' : composite * world) (r : outcome A) :
  mounted s s' r → advance s s'.
Proof. by intros [H _]. Qed.

Lemma wp_quiet_advance {A} (m : M A) Q s0 s :
  Quiet m → advance s0 s → (∀ s1 r, advance s0 s1 → Q s1 r) → wp m Q s.
Proof.
  intros Hm Ha HQ. apply wp_quiet; [done|]. intros s1 r Hq. apply HQ.
  eapply advance_trans; [exact Ha|by apply quiet_advance].
Qed.

Lemma wp_calm_advance {A} (m : M A) Q s0 s :
  Calm m → advance s0 s → (∀ s1 r, advance s0 s1 → Q s1 r) → wp m Q s.
Proof.
  intros Hm Ha HQ. apply wp_calm; [done|]. intros s1 r Hq. apply HQ.
  eapply advance_trans; [exact Ha|by apply calm_advance].
Qed.

Lemma wp_quiet_mounted {A B} (m : M A) Q s0 s (b : B) :
  Quiet m → mounted s0 s (Returns b) →
  (∀ s1 r, mounted (A := A) s0 s1 r → Q s1 r) → wp m Q s.
Proof.
  intros Hm Hb HQ. apply wp_quiet; [done|]. intros s1 r Hq. apply HQ.
  by eapply mounted_quiet.
Qed.

(** A quiet step that keeps the hypothesis [advance s0 _] up to date. *)
Ltac adv :=
  lazymatch goal with
  | |- wp (bind _ _) _ _ => apply wp_bind
  | _ => idtac
  end;
  lazymatch goal with
  | Ha : advance ?s0 ?s |- wp _ _ ?s =>
      first
        [ eapply (wp_quiet_advance _ _ s0 s); [solve [quiet] | exact Ha |]
        | eapply (wp_calm_advance _ _ s0 s); [solve [calm] | exact Ha |] ];
      clear Ha; intros ? [?|?] Ha; cbv beta iota;
      [|try (apply mounted_throws; exact Ha)]
  end.

(** The same, once the child is mounted. *)
Ltac adm :=
  lazymatch goal with
  | |- wp (bind _ _) _ _ => apply wp_bind
  | _ => idtac
  end;
  lazymatch goal with
  | Hm : mounted ?s0 ?s (Returns _) |- wp _ _ ?s =>
      eapply (wp_quiet_mounted _ _ s0 s); [solve [quiet] | exact Hm |];
      clear Hm; intros ? [?|?] Hm; cbv beta iota;
      [|try exact Hm]
  end.

(** Splits the code on what it tests. *)
Ltac branch :=
  lazymatch goal with
  | |- wp (bind (match ?x with _ => _ end) _) _ _ => destruct x eqn:?
  | |- wp (bind (if ?x then _ else _) _) _ _ => destruct x eqn:?
  | |- wp (match ?x with _ => _ end) _ _ => destruct x eqn:?
  | |- wp (if ?x then _ else _) _ _ => destruct x eqn:?
  end.

Lemma wp_renderValidatedComponent (C : componentOf rendered) s :
  wp (_renderValidatedComponent C)
     (λ s1 r, quiet s s1 ∧ ∀ a, r = Returns a → produces C a) s.
Proof.
  unfold _renderValidatedComponent, _renderValidatedComponentWithoutOwnerOrContext.
  unfold produces.
  apply wp_bind, wp_quiet; [quiet|]. intros s1 [this|e] Hq1; [|done].
  apply wp_bind, wp_quiet; [quiet|]. intros s2 [inst|e] Hq2;
    [|split; [by eapply quiet_trans|done]].
  apply wp_bind, wp_quiet; [quiet|]. intros s3 [[]|e] Hq3;
    [|split; [by eauto using quiet_trans|done]].
  assert (quiet s s3) by eauto using quiet_trans.
  destruct (body C) as [? ? m|fn].
  - destruct (render m (view_of inst)) as [a|e] eqn:Hr; cbn [liftOutcome].
    + split; [done|]. intros ? [= <-]. eauto.
    + split; [done|]. discriminate.
  - destruct (fn (inst_props inst) (inst_context inst)) as [a|e] eqn:Hr;
      cbn [liftOutcome].
    + split; [done|]. intros ? [= <-]. eauto.
    + split; [done|]. discriminate.
Qed.

Lemma wp_constructComponent (C : componentOf rendered) doConstruct props context s :
  wp (_constructComponent C doConstruct props context)
     (λ s1 r, quiet s s1 ∧ ∀ a, r = Returns (ConstructedElement a) → produces C a) s.
Proof.
  unfold _constructComponent, _constructComponentWithoutOwner, produces.
  apply wp_bind, wp_quiet; [quiet|]. intros s1 [this|e] Hq1; [|done].
  apply wp_bind, wp_quiet; [quiet|]. intros s2 [[]|e] Hq2;
    [|split; [by eapply quiet_trans|done]].
  assert (quiet s s2) by eauto using quiet_trans.
  destruct (body C) as [? ctor m|fn].
  - destruct (ctor props context) as [a|e]; cbn [liftOutcome]; unfold wp, bind, ret, throw;
      cbn [fst snd]; split; try done.
  - destruct (fn props context) as [a|e] eqn:Hr; cbn [liftOutcome];
      unfold wp, bind, ret, throw; cbn [fst snd]; split; try done.
    intros ? [= <-]. eauto.
Qed.

Lemma wp_ReactReconciler_mountComponent (mountChild : mounter)
    hostParent hostContainerInfo context s0 s :
  goodMounter mountChild → advance s0 s →
  wp (ReactReconciler_mountComponent mountChild hostParent hostContainerInfo context)
     (mounted s0) s.
Proof.
  intros Hgood Ha0. destruct s as [this w].
  unfold wp, ReactReconciler_mountComponent. cbn [fst snd].
  specialize (Hgood hostParent hostContainerInfo context w).
  destruct (mountChild hostParent hostContainerInfo context w) as [[child w'] r].
  cbn [fst snd] in *. destruct Hgood as [Ha Hr].
  eapply mounted_advance; [exact Ha0|]. split.
  - split; [reflexivity|exact Ha].
  - intros Hret. exists child. split; [reflexivity|]. by apply Hr.
Qed.

Lemma performInitialMount_mounted (Component : componentOf rendered)
    (renderedElement : option rendered) hostParent hostContainerInfo context s0 s :
  goodComponent Component →
  (∀ r, renderedElement = Some r → goodMounter r.2) →
  advance s0 s →
  wp (performInitialMount Component renderedElement
        hostParent hostContainerInfo context) (mounted s0) s.
Proof.
  intros HC Hre Ha. unfold performInitialMount.
  adv. adv. adv.
  apply wp_bind.
  lazymatch goal with
  | |- wp _ _ ?s1 =>
      assert (wp (match renderedElement with
                  | Some r => ret r
                  | None => _renderValidatedComponent Component
                  end)
                 (λ s' r, advance s0 s' ∧ ∀ a, r = Returns a → goodMounter a.2) s1)
        as Hrender
  end.
  { destruct renderedElement as [r|].
    - apply wp_ret. split; [done|]. intros ? [= <-]. by apply Hre.
    - eapply wp_mono; [apply wp_renderValidatedComponent|].
      intros s' r [Hq Hr]. split.
      + eapply advance_trans; [exact Ha|by apply quiet_advance].
      + intros r' ->. apply HC. by apply Hr. }
  eapply wp_mono; [exact Hrender|]. clear Hrender Ha.
  intros s' [r|e] [Ha Hr]; cbv beta iota zeta; [|by apply mounted_throws].
  specialize (Hr r eq_refl).
  adv. adv. adv. adv.
  apply wp_bind.
  eapply wp_mono; [by apply wp_ReactReconciler_mountComponent|].
  intros s'' [m|e] Hm; cbv beta iota; [|exact Hm].
  adm. apply wp_ret. exact Hm.
Qed.

Lemma performInitialMountWithErrorHandling_mounted (Component : componentOf rendered)
    (renderedElement : option rendered) hostParent hostContainerInfo context s0 s :
  goodComponent Component →
  (∀ r, renderedElement = Some r → goodMounter r.2) →
  advance s0 s →
  wp (performInitialMountWithErrorHandling Component renderedElement
        hostParent hostContainerInfo context) (mounted s0) s.
Proof.
  intros HC Hre Ha. unfold performInitialMountWithErrorHandling.
  adv. apply wp_tryCatch.
  eapply wp_mono; [by apply performInitialMount_mounted|].
  intros sA [m|e] Hm; [exact Hm|].
  apply mounted_is_advance in Hm.
  adv. adv. adv. adv. adv. adv. adv. adv.
  by apply performInitialMount_mounted.
Qed.

Lemma mountComposite_stamped (Component : componentOf rendered)
    hostParent hostContainerInfo context this w :
  goodComponent Component →
  wp (mountComposite Component hostParent hostContainerInfo context)
     (stampedAt (nextMountID w) w) (this, w).
Proof.
  intros HC. unfold mountComposite.
  apply wp_bind, wp_assign. cbn [fst snd].
  apply wp_bind, wp_getWorld. cbn [fst snd].
  apply wp_bind, wp_modifyWorld. cbn [fst snd].
  apply wp_bind, wp_assign. cbn [fst snd].
  apply wp_bind, wp_emit. cbn [fst snd].
  set (s1 := (set_mountOrder (nextMountID w) (set_context context this),
              set_trace
                (trace (set_nextMountID (S (nextMountID w)) w)
                 ++ [EvMountOrder (nextMountID w)])
                (set_nextMountID (S (nextMountID w)) w))).
  eapply wp_mono with (Q := mounted s1).
  2:{ intros s' r [[Ho (Hn & rest & Ht & Hs)] Hr]. subst s1. cbn in *.
      split_and!; [done|lia| |done].
      exists rest. split; [by rewrite Ht, <- app_assoc|].
      intros k Hk. apply Hs in Hk. lia. }
  assert (advance s1 s1) as Ha by apply advance_refl.
  adv. adv. adv. adv.
  apply wp_bind.
  lazymatch goal with
  | |- wp (_constructComponent ?C ?d ?p ?c) _ ?s =>
      eapply wp_mono; [apply (wp_constructComponent C d p c s)|]
  end.
  intros sB [inst|e] [Hq Hprod]; cbv beta iota zeta.
  2:{ apply mounted_throws. eapply advance_trans; [exact Ha|by apply quiet_advance]. }
  assert (advance s1 sB) as Ha2
    by (eapply advance_trans; [exact Ha|by apply quiet_advance]).
  clear Ha Hq. rename Ha2 into Ha.
  assert (∀ re sC, (∀ x, re = Some x → goodMounter x.2) → advance s1 sC →
    wp (let* inst := thisInstance in
        do when (match inst_state inst with JUndefined => true | _ => false end)
             (assignInst (set_inst_state JNull)) ;;;
        do assign (set_pendingStateQueue None) ;;;
        do assign (set_pendingReplaceState false) ;;;
        do assign (set_pendingForceUpdate false) ;;;
        let* markup :=
          (if bool_decide (is_Some (method unstable_handleError inst)) then
             performInitialMountWithErrorHandling Component re
               hostParent hostContainerInfo context
           else
             performInitialMount Component re
               hostParent hostContainerInfo context) in
        do match method componentDidMount inst with
           | Some _ =>
               let* this := getThis in
               do getReactMountReady_enqueue (DidMount (_mountOrder this)) ;;;
               emit (EvEnqueueDidMount (_mountOrder this))
           | None => ret tt
           end ;;;
        ret markup) (mounted s1) sC) as Htail.
  { clear - HC. intros re sC Hre Ha.
    adv. adv. adv. adv. adv.
    apply wp_bind.
    lazymatch goal with
    | |- wp (if ?b then _ else _) _ _ =>
        eapply wp_mono;
          [destruct b;
           [by apply performInitialMountWithErrorHandling_mounted
           |by apply performInitialMount_mounted]|]
    end.
    intros sD [m|e] Hm; cbv beta iota; [|exact Hm].
    adm. apply wp_ret. exact Hm. }
  apply wp_bind. destruct inst as [state|r].
  - adv. adv. apply wp_ret. cbv beta iota. apply Htail; [|done]. intros ? [=].
  - adv. adv. apply wp_ret. cbv beta iota. apply Htail; [|done].
    intros ? [= <-]. apply HC. by apply Hprod.
Qed.

Lemma produces_component_map {E F} (f : E → F) (type : componentOf E) (r : F) :
  produces (component_map f type) r → ∃ e, produces type e ∧ r = f e.
Proof.
  unfold produces, component_map. cbn [body].
  destruct (body type) as [? ? m|fn].
  - intros [v Hv]. cbn [render methods_map] in Hv.
    destruct (render m v) as [e|x] eqn:Hr; [|discriminate].
    injection Hv as <-. eauto.
  - intros (props & context & Hfn).
    destruct (fn props context) as [e|x] eqn:Hr; [|discriminate].
    injection Hfn as <-. eauto.
Qed.

Lemma parentsFirst_host tag key children :
  parentsFirst (IHost tag key children) ↔ Forall parentsFirst children.
Proof.
  cbn [parentsFirst]. induction children as [|child children IH]; cbn [fold_right].
  - split; [constructor|done].
  - rewrite Forall_cons. tauto.
Qed.

Lemma within_host lo hi tag key children :
  within lo hi (IHost tag key children) ↔ Forall (within lo hi) children.
Proof.
  unfold within. cbn [mountOrders]. rewrite Forall_forall. split.
  - intros H child Hchild k Hk. apply H.
    apply list_elem_of_In, in_flat_map. exists child.
    split; by apply list_elem_of_In.
  - intros H k Hk. apply list_elem_of_In, in_flat_map in Hk as (child & Hc & Hk).
    eapply H; apply list_elem_of_In; eauto.
Qed.

Lemma mountChildren_good hostParent hostContainerInfo context (children : list mounter) :
  Forall goodMounter children →
  ∀ w, advance_world w (mountChildren hostParent hostContainerInfo context children w).1.2
       ∧ (returned (mountChildren hostParent hostContainerInfo context children w).2 = true →
          Forall (within (nextMountID w)
                    (nextMountID
                       (mountChildren hostParent hostContainerInfo context children w).1.2))
                 (mountChildren hostParent hostContainerInfo context children w).1.1
          ∧ Forall parentsFirst
              (mountChildren hostParent hostContainerInfo context children w).1.1).
Proof.
  induction 1 as [|mountChild children Hchild _ IH]; intros w; cbn [mountChildren].
  - cbn [fst snd]. split; [apply advance_world_refl|]. intros _. split; constructor.
  - specialize (Hchild hostParent hostContainerInfo context w).
    destruct (mountChild hostParent hostContainerInfo context w)
      as [[child w1] [m|e]]; cbn [fst snd] in *.
    + destruct Hchild as [Ha1 Hr1]. specialize (Hr1 eq_refl) as [Hw1 Hp1].
      specialize (IH w1).
      destruct (mountChildren hostParent hostContainerInfo context children w1)
        as [[rest' w2] [ms|e]]; cbn [fst snd] in *.
      * destruct IH as [Ha2 Hr2]. specialize (Hr2 eq_refl) as [Hw2 Hp2].
        split; [by eapply advance_world_trans|]. intros _. split.
        -- constructor.
           ++ eapply within_weaken; [exact Hw1|lia|apply Ha2].
           ++ eapply Forall_impl; [exact Hw2|]. intros i Hi.
              eapply within_weaken; [exact Hi|apply Ha1|lia].
        -- by constructor.
      * destruct IH as [Ha2 _]. split; [by eapply advance_world_trans|]. discriminate.
    + destruct Hchild as [Ha1 _]. split; [done|discriminate].
Qed.

(** Every mount only stamps with the values the counter goes through, and
    what it returns has its parents first. *)
Lemma mountComponent_good (node : element) : goodMounter (mountComponent node).
Proof.
  induction node as [|tag key children IH|id type key props IH] using element_ind'.
  - intros hp hci ctx w. cbn. split; [apply advance_world_refl|].
    intros _. split; [|done]. intros k Hk. inversion Hk.
  - intros hp hci ctx w. cbn [mountComponent]. unfold mountHost.
    assert (Forall goodMounter (map mountComponent children)) as Hgood.
    { apply Forall_map. exact IH. }
    pose proof (mountChildren_good hp hci ctx _ Hgood
                  (set_trace (trace w ++ [EvHostMount tag]) w)) as [Ha Hr].
    assert (advance_world w (set_trace (trace w ++ [EvHostMount tag]) w)) as Ha0.
    { apply quiet_advance_world. split; [reflexivity|].
      exists [EvHostMount tag]. split; [reflexivity|].
      intros k Hk. apply list_elem_of_singleton in Hk. discriminate. }
    destruct (mountChildren hp hci ctx (map mountComponent children) _)
      as [[children' w'] [ms|e]]; cbn [fst snd] in *.
    + split; [by eapply advance_world_trans|]. intros _.
      destruct (Hr eq_refl) as [Hw Hp]. split.
      * by apply within_host.
      * by apply parentsFirst_host.
    + split; [by eapply advance_world_trans|]. discriminate.
  - intros hp hci ctx w. cbn [mountComponent].
    assert (goodComponent (component_map (λ e, (e, mountComponent e)) type)) as HC.
    { intros r Hr. apply produces_component_map in Hr as (e & He & ->).
      cbn [snd]. by apply IH. }
    pose proof (mountComposite_stamped _ hp hci ctx
                  (construct (CElement id type key props)) w HC) as Hwp.
    unfold wp in Hwp.
    destruct (mountComposite _ hp hci ctx (construct (CElement id type key props), w))
      as [[this w'] r]; cbn [fst snd] in *.
    destruct Hwp as (Ho & Hn & (rest & Ht & Hs) & Hr). cbn [fst snd] in *. split.
    + split; [lia|]. exists (EvMountOrder (nextMountID w) :: rest). split; [done|].
      intros k Hk. apply elem_of_cons in Hk as [[= ->]|Hk]; [lia|].
      apply Hs in Hk. lia.
    + intros Hret. destruct (Hr Hret) as (child & Hc & Hw & Hp). split.
      * intros k. cbn [mountOrders]. rewrite Hc, Ho.
        intros Hk. apply elem_of_cons in Hk as [->|Hk]; [lia|].
        apply Hw in Hk. lia.
      * cbn [parentsFirst]. rewrite Hc, Ho. split; [|done].
        intros k Hk. apply Hw in Hk. lia.
Qed.

(** *** Ancestors are stamped before their descendants *)

Lemma mountOrders_child (parent child : instance) :
  child_of parent child → ∀ k, k ∈ mountOrders child → k ∈ mountOrders parent.
Proof.
  intros [c child' Hc|tag key children child' Hin] k Hk; cbn [mountOrders].
  - rewrite Hc. by apply elem_of_cons; right.
  - apply list_elem_of_In, in_flat_map. exists child'.
    split; by apply list_elem_of_In.
Qed.

Lemma mountOrders_in_tree (root i : instance) :
  in_tree root i → ∀ k, k ∈ mountOrders i → k ∈ mountOrders root.
Proof.
  induction 1 as [|x y z Hxy _ IH]; [done|].
  intros k Hk. eapply mountOrders_child; eauto.
Qed.

Lemma parentsFirst_child (parent child : instance) :
  parentsFirst parent → child_of parent child → parentsFirst child.
Proof.
  intros Hp Hchild. revert Hp.
  destruct Hchild as [c child' Hc|tag key children child' Hin]; intros Hp.
  - cbn [parentsFirst] in Hp. rewrite Hc in Hp. apply Hp.
  - apply parentsFirst_host in Hp. rewrite Forall_forall in Hp. by apply Hp.
Qed.

Lemma parentsFirst_in_tree (root i : instance) :
  parentsFirst root → in_tree root i → parentsFirst i.
Proof.
  intros Hp Hi. induction Hi as [|x y z Hxy _ IH]; [done|].
  apply IH. by eapply parentsFirst_child.
Qed.

Lemma parentsFirst_descendant (root : instance) (a b : composite) :
  parentsFirst root →
  in_tree root (IComposite a) →
  descendant_of (IComposite a) (IComposite b) →
  _mountOrder a < _mountOrder b.
Proof.
  intros Hroot Ha Hab.
  pose proof (parentsFirst_in_tree _ _ Hroot Ha) as Hpa.
  assert (∃ child, child_of (IComposite a) child ∧ in_tree child (IComposite b))
    as (child & Hchild & Hb).
  { inversion Hab as [? ? Hstep|? y ? Hstep Hrest]; subst.
    - exists (IComposite b). split; [done|apply rtc_refl].
    - exists y. split; [done|by apply tc_rtc]. }
  inversion Hchild as [c child' Hc|]; subst.
  cbn [parentsFirst] in Hpa. rewrite Hc in Hpa. destruct Hpa as [Hlt _].
  apply Hlt. eapply mountOrders_in_tree; [exact Hb|].
  cbn [mountOrders]. apply elem_of_cons. by left.
Qed.

(** Whatever is mounted with success has every ancestor stamped below each
    of its descendants. *)
Lemma mountComponent_parentsFirst (node : element) hostParent hostContainerInfo
    context w root w' m (a b : composite) :
  mountComponent node hostParent hostContainerInfo context w = (root, w', Returns m) →
  in_tree root (IComposite a) →
  descendant_of (IComposite a) (IComposite b) →
  nextMountID w ≤ _mountOrder a ∧ _mountOrder a < _mountOrder b
  ∧ _mountOrder b < nextMountID w'.
Proof.
  intros Hrun Ha Hab.
  pose proof (mountComponent_good node hostParent hostContainerInfo context w) as [_ Hr].
  rewrite Hrun in Hr. cbn [fst snd returned] in Hr.
  destruct (Hr eq_refl) as [Hw Hp].
  assert (in_tree root (IComposite b)) as Hb.
  { eapply rtc_trans; [exact Ha|by apply tc_rtc]. }
  split_and!.
  - eapply Hw, mountOrders_in_tree; [exact Ha|].
    cbn [mountOrders]. apply elem_of_cons. by left.
  - by eapply parentsFirst_descendant.
  - eapply Hw, mountOrders_in_tree; [exact Hb|].
    cbn [mountOrders]. apply elem_of_cons. by left.
Qed.

(** *** The stamp is the first step of a mount *)

(** C7, as amended.  The mount of a composite element stamps the instance
    first, with the value of the counter, which it increments: the stamp is
    the first event of the mount and occurs once, before the constructor,
    [render], the mount of the child and the enqueueing of
    [componentDidMount]; and every instance mounted below gets a greater
    stamp. *)
Theorem mountOrder_stamped_first (id : nat) (type : componentOf element)
    (key : option string) (props : objref) hostParent hostContainerInfo context
    (w : world) :
  let run := mountComponent (EComposite id type key props)
               hostParent hostContainerInfo context w in
  stampedFirst (nextMountID w) (newEvents w run.1.2)
  ∧ nextMountID w < nextMountID run.1.2
  ∧ ∃ this, run.1.1 = IComposite this
            ∧ _mountOrder this = nextMountID w
            ∧ (returned run.2 = true →
               ∃ child, _renderedComponent this = Some child
                        ∧ ∀ k, k ∈ mountOrders child → nextMountID w < k).
Proof.
  cbv zeta. cbn [mountComponent].
  assert (goodComponent (component_map (λ e, (e, mountComponent e)) type)) as HC.
  { intros r Hr. apply produces_component_map in Hr as (e & He & ->).
    apply mountComponent_good. }
  pose proof (mountComposite_stamped _ hostParent hostContainerInfo context
                (construct (CElement id type key props)) w HC) as Hwp.
  unfold wp in Hwp.
  destruct (mountComposite _ _ _ _ _) as [[this w'] r]; cbn [fst snd] in *.
  destruct Hwp as (Ho & Hn & (rest & Ht & Hs) & Hr). cbn [fst snd] in *.
  split_and!; [|done|].
  - exists rest. unfold newEvents. rewrite Ht, drop_app_length. split; [done|].
    intros Hin. apply Hs in Hin. lia.
  - exists this. split_and!; [done..|].
    intros Hret. destruct (Hr Hret) as (child & Hc & Hw & _).
    exists child. split; [done|]. intros k Hk. apply Hw in Hk. lia.
Qed.

(** *** The stamp is not the last step of a mount *)

Import Examples.

Example mount_Plain_trace :
  (mount (EComposite 10 Plain None noProps)).1.2.(trace)
  = [EvMountOrder 1; EvConstruct 1; EvRender 1; EvInstantiateChild 1 HOST;
     EvHostMount "div"; EvChildMounted 1; EvEnqueueDidMount 1].
Proof. vm_compute. reflexivity. Qed.

(** C7, refuted as stated: in the mount of [Plain] the stamp of the instance
    is the first event, before its render, the mount of its child and the
    enqueueing of [componentDidMount]. *)
Lemma mountOrder_not_stamped_last :
  ¬ stampedLast 1
      (newEvents initialWorld (mount (EComposite 10 Plain None noProps)).1.2).
Proof.
  assert (newEvents initialWorld (mount (EComposite 10 Plain None noProps)).1.2
          = [EvMountOrder 1; EvConstruct 1; EvRender 1; EvInstantiateChild 1 HOST;
             EvHostMount "div"; EvChildMounted 1; EvEnqueueDidMount 1]) as E
    by (vm_compute; reflexivity).
  intros H. rewrite E in H.
  specialize (H 0 2 eq_refl (or_introl eq_refl)). lia.
Qed.

(** *** The recovery of a failed mount *)

(** C2, on the scenario of the specification: [Boundary] declares the error
    hook and its [render] throws on the first attempt and would succeed on
    the second.  The mount rolls back, calls the hook once, takes a new
    checkpoint and then throws a [TypeError] on the absent child; [render]
    is not tried again and the instance does not end mounted. *)
Theorem mount_Boundary_fails :
  (mount (EComposite 10 Boundary None noProps)).2
  = Throws (TypeError "Cannot read property 'unmountComponent' of null")
  ∧ (mount (EComposite 10 Boundary None noProps)).1.2.(trace)
    = [EvMountOrder 1; EvConstruct 1; EvCheckpoint 1 0; EvRender 1;
       EvRollback 1 0; EvHandleError 1 (UserError 7); EvEnqueueUpdate 1;
       EvCheckpoint 1 0]
  ∧ ∃ this, (mount (EComposite 10 Boundary None noProps)).1.1 = IComposite this
            ∧ _renderedComponent this = None.
Proof.
  split_and!.
  - vm_compute. reflexivity.
  - vm_compute. reflexivity.
  - assert (match (mount (EComposite 10 Boundary None noProps)).1.1 with
            | IComposite this => bool_decide (is_Some (_renderedComponent this))
            | _ => true
            end = false) as H by (vm_compute; reflexivity).
    destruct (mount (EComposite 10 Boundary None noProps)).1.1 as [| |this];
      [done..|].
    exists this. split; [done|].
    destruct (_renderedComponent this); [done|reflexivity].
Qed.

(** When it is the mount of the child that throws, the recovery goes
    through: the hook is called once, the child is unmounted, and the second
    render is mounted. *)
Example mount_BoundaryOfChild_recovers :
  (mount (EComposite 10 BoundaryOfChild None noProps)).2 = Returns (MHost "div" [])
  ∧ (mount (EComposite 10 BoundaryOfChild None noProps)).1.2.(trace)
    = [EvMountOrder 1; EvConstruct 1; EvCheckpoint 1 0; EvRender 1;
       EvInstantiateChild 1 COMPOSITE; EvMountOrder 2; EvConstruct 2; EvRender 2;
       EvRollback 1 0; EvHandleError 1 (UserError 9); EvEnqueueUpdate 1;
       EvCheckpoint 1 0; EvUnmount 2 true; EvRollback 1 0; EvRender 1;
       EvInstantiateChild 1 HOST; EvHostMount "div"; EvChildMounted 1;
       EvEnqueueDidMount 1].
Proof. split; vm_compute; reflexivity. Qed.

(** The updater calls of a hook return, and touch neither the public
    instance nor the rendered component. *)
Lemma applyEffects_run (effs : list effect) (s : composite * world) :
  (applyEffects effs s).2 = Returns tt
  ∧ _instance (applyEffects effs s).1.1 = _instance s.1
  ∧ _renderedComponent (applyEffects effs s).1.1 = _renderedComponent s.1.
Proof.
  revert s. induction effs as [|eff effs IH]; intros [this w]; [done|].
  cbn [applyEffects]. unfold bind.
  assert ((applyEffect eff (this, w)).2 = Returns tt
          ∧ _instance (applyEffect eff (this, w)).1.1 = _instance this
          ∧ _renderedComponent (applyEffect eff (this, w)).1.1
            = _renderedComponent this) as (Hr & Hi & Hc).
  { destruct eff; done. }
  destruct (applyEffect eff (this, w)) as [s1 r1]. cbn [fst snd] in *. subst r1.
  destruct (IH s1) as (Hr' & Hi' & Hc'). split_and!; congruence.
Qed.

Lemma runHook_returns (h : hookResult) (s : composite * world) :
  completion h = Returns tt →
  (runHook h s).2 = Returns tt
  ∧ _instance (runHook h s).1.1 = _instance s.1
  ∧ _renderedComponent (runHook h s).1.1 = _renderedComponent s.1.
Proof.
  intros Hc. unfold runHook, bind. destruct (applyEffects_run (effects h) s) as (Hr & Hi & Hch).
  destruct (applyEffects (effects h) s) as [s1 r1]. cbn [fst snd] in *. subst r1.
  rewrite Hc. done.
Qed.

Lemma mergePendingStateIfAny_returns (s : composite * world) :
  is_Some (_instance s.1) →
  (mergePendingStateIfAny s).2 = Returns tt
  ∧ _renderedComponent (mergePendingStateIfAny s).1.1 = _renderedComponent s.1.
Proof.
  destruct s as [this w]. intros [inst Hinst]. cbn [fst] in Hinst.
  destruct this. cbn in Hinst. subst.
  unfold mergePendingStateIfAny, _processPendingState. exec.
  cbn [_pendingStateQueue _pendingReplaceState _instance
       set_pendingStateQueue set_pendingReplaceState].
  repeat case_match; simplify_eq; cbn; done.
Qed.

(** C10, refuted.  When the first attempt of the mount of a unit that
    declares the error hook throws before a child is stored in
    [_renderedComponent], the recovery calls the hook and then throws a
    [TypeError] of its own, on the absent child. *)
Theorem recovery_throws_on_absent_child (Component : componentOf rendered)
    (renderedElement : option rendered) hostParent hostContainerInfo context
    (s s1 : composite * world) (e : error) (inst : publicInstance)
    (hook : error → view → hookResult) :
  performInitialMount Component renderedElement hostParent hostContainerInfo context
    (transaction_checkpoint s).1 = (s1, Throws e) →
  _renderedComponent s1.1 = None →
  _instance s1.1 = Some inst →
  method unstable_handleError inst = Some hook →
  completion (hook e (view_of inst)) = Returns tt →
  (performInitialMountWithErrorHandling Component renderedElement
     hostParent hostContainerInfo context s).2
  = Throws (TypeError "Cannot read property 'unmountComponent' of null").
Proof.
  intros Hrun Hchild Hinst Hhook Hcompletion.
  unfold performInitialMountWithErrorHandling. unfold bind at 1.
  assert ((transaction_checkpoint s).2
          = Returns (length (reactMountReady s.2))) as Hcp by done.
  destruct (transaction_checkpoint s) as [s0 r0]. cbn [fst snd] in *. subst r0.
  unfold tryCatch. rewrite Hrun.
  destruct s1 as [this1 w1]. cbn [fst snd] in *.
  unfold transaction_rollback at 1. exec. rewrite Hinst, Hhook. exec.
  cbn [_mountOrder _instance].
  match goal with
  | |- context [runHook ?h ?sx] =>
      destruct (runHook_returns h sx Hcompletion) as (Hr & Hi & Hc);
      destruct (runHook h sx) as [[this2 w2] r2]
  end.
  cbn [fst snd] in *. subst r2.
  destruct (mergePendingStateIfAny_returns (this2, w2)) as (Hr & Hc').
  { cbn [fst]. rewrite Hi, Hinst. eauto. }
  destruct (mergePendingStateIfAny (this2, w2)) as [[this3 w3] r3].
  cbn [fst snd] in *. subst r3.
  unfold transaction_checkpoint. exec.
  unfold renderedComponent_unmountComponent. cbn [fst snd].
  rewrite Hc', Hc, Hchild. reflexivity.
Qed.

Lemma recovery_throws_on_absent_child_witness :
  (performInitialMountWithErrorHandling (withMounts BoundaryWillMount) None
     None None (Some emptyObject)
     (atInitialMount BoundaryWillMount (methods_of_class BoundaryWillMount))).2
  = Throws (TypeError "Cannot read property 'unmountComponent' of null").
Proof.
  eapply (recovery_throws_on_absent_child (withMounts BoundaryWillMount) None
            None None (Some emptyObject)
            (atInitialMount BoundaryWillMount (methods_of_class BoundaryWillMount))
            _ (UserError 8) _ rememberError).
  - vm_compute. reflexivity.
  - reflexivity.
  - reflexivity.
  - reflexivity.
  - reflexivity.
Defined.

(** The same on the whole mount: a failure in [componentWillMount], and the
    mount ends with the [TypeError] of the recovery. *)
Example mount_BoundaryWillMount_fails :
  (mount (EComposite 10 BoundaryWillMount None noProps)).2
  = Throws (TypeError "Cannot read property 'unmountComponent' of null")
  ∧ (mount (EComposite 10 BoundaryWillMount None noProps)).1.2.(trace)
    = [EvMountOrder 1; EvConstruct 1; EvCheckpoint 1 0; EvComponentWillMount 1;
       EvRollback 1 0; EvHandleError 1 (UserError 8); EvEnqueueUpdate 1;
       EvCheckpoint 1 0].
Proof. split; vm_compute; reflexivity. Qed.

Example atInitialMount_reached :
  (mountComposite (withMounts BoundaryWillMount) None None (Some emptyObject)
     (construct (CElement 10 BoundaryWillMount None noProps), initialWorld)).2
  = (performInitialMountWithErrorHandling (withMounts BoundaryWillMount) None
       None None (Some emptyObject)
       (atInitialMount BoundaryWillMount (methods_of_class BoundaryWillMount))).2.
Proof. vm_compute. reflexivity. Qed.

(** *** Unmounting *)

Lemma unmountComponent_unmounted (safely : bool) (this : composite) (w : world) :
  _renderedComponent this = None →
  unmountComponent safely (IComposite this) w
  = (IComposite this,
     set_trace (trace w ++ [EvUnmount (_mountOrder this) safely]) w, Returns tt).
Proof.
  intros Hc. cbn [unmountComponent]. unfold unmountComposite. exec.
  rewrite Hc. reflexivity.
Qed.

(** The steps of a method, one at a time. *)
Lemma bind_getThis {B} (k : composite → M B) s : bind getThis k s = k s.1 s.
Proof. reflexivity. Qed.

Lemma bind_emit {B} ev (k : unit → M B) s :
  bind (emit ev) k s = k tt (s.1, set_trace (trace s.2 ++ [ev]) s.2).
Proof. reflexivity. Qed.

Lemma bind_assign {B} f (k : unit → M B) s :
  bind (assign f) k s = k tt (f s.1, s.2).
Proof. reflexivity. Qed.

Lemma bind_thisInstance {B} (k : publicInstance → M B) s inst :
  _instance s.1 = Some inst → bind thisInstance k s = k inst s.
Proof. destruct s as [this w]. cbn [fst]. intros H. unfold thisInstance. exec. by rewrite H. Qed.

Lemma bind_ret {A B} (a : A) (k : A → M B) s : bind (ret a) k s = k a s.
Proof. reflexivity. Qed.

Lemma bind_returns {A B} (m : M A) (k : A → M B) s s1 a :
  m s = (s1, Returns a) → bind m k s = k a s1.
Proof. intros H. unfold bind. by rewrite H. Qed.

Lemma bind_throws {A B} (m : M A) (k : A → M B) s s1 e :
  m s = (s1, Throws e) → bind m k s = (s1, Throws e).
Proof. intros H. unfold bind. by rewrite H. Qed.

Lemma unmountComposite_release (safely : bool) (child : instance)
    (s : composite * world) :
  _renderedComponent s.1 = Some child →
  (let* this := getThis in
   do when (bool_decide (is_Some (_renderedComponent this)))
        (do ReactReconciler_unmountComponent (Some (unmountComponent safely child)) ;;;
         do assign (set_renderedNodeType None) ;;;
         do assign (set_renderedComponent None) ;;;
         assign (set_instance None)) ;;;
   do assign (set_pendingStateQueue None) ;;;
   do assign (set_pendingReplaceState false) ;;;
   do assign (set_pendingForceUpdate false) ;;;
   do assign (set_pendingCallbacks None) ;;;
   do assign (set_pendingElement None) ;;;
   do assign (set_context None) ;;;
   do assign (set_rootNodeID 0) ;;;
   assign (set_topLevelWrapper None)) s
  = match unmountComponent safely child s.2 with
    | (child', w2, Returns _) => ((released s.1, w2), Returns tt)
    | (child', w2, Throws e) =>
        ((set_renderedComponent (Some child') s.1, w2), Throws e)
    end.
Proof.
  destruct s as [this1 w1]. cbn [fst snd]. intros Hc1. exec. rewrite Hc1.
  rewrite bool_decide_eq_true_2 by eauto.
  unfold ReactReconciler_unmountComponent. exec.
  destruct (unmountComponent safely child w1) as [[child' w2] [[]|e]]; reflexivity.
Qed.

Lemma willUnmount_run (safely : bool) (this : composite) (inst : publicInstance)
    (w : world) :
  _instance this = Some inst →
  match method componentWillUnmount inst with
  | Some hook =>
      if negb (inst_calledComponentWillUnmount inst) then
        do assignInst (set_inst_calledComponentWillUnmount true) ;;;
        do emit (EvComponentWillUnmount (_mountOrder this) safely) ;;;
        if safely then
          let name := (getName this +:+ ".componentWillUnmount()")%string in
          invokeGuardedCallback name (runHook (hook (view_of inst)))
        else
          runHook (hook (view_of inst))
      else ret tt
  | None => ret tt
  end (this, w)
  = willUnmountStep safely this inst w.
Proof.
  intros Hinst. unfold willUnmountStep.
  destruct (method componentWillUnmount inst) as [hook|]; [|reflexivity].
  destruct (inst_calledComponentWillUnmount inst); [reflexivity|]. cbn [negb].
  unfold bind at 1. unfold assignInst at 1, assign at 1. cbn [fst snd].
  rewrite Hinst. cbn [fmap option_fmap option_map].
  unfold bind at 1. unfold emit at 1, modifyWorld at 1. cbn [fst snd].
  destruct safely; cbv zeta;
    unfold invokeGuardedCallback, tryCatch, runHook, bind; unfold composite in *;
    match goal with |- context [applyEffects ?effs ?s] =>
      pose proof (applyEffects_run effs s) as (Hr & _ & _);
      destruct (applyEffects effs s) as [s2 r2] end;
    cbn [fst snd] in *; subst r2;
    destruct (completion (hook (view_of inst))) as [[]|e]; reflexivity.
Qed.

Lemma willUnmountStep_child (safely : bool) (this : composite)
    (inst : publicInstance) (w : world) :
  _renderedComponent (willUnmountStep safely this inst w).1.1
  = _renderedComponent this.
Proof.
  unfold willUnmountStep.
  destruct (method componentWillUnmount inst) as [hook|]; [|reflexivity].
  destruct (inst_calledComponentWillUnmount inst); [reflexivity|]. cbv zeta.
  match goal with |- context [applyEffects ?effs ?s] =>
    pose proof (applyEffects_run effs s) as (_ & _ & Hc) end.
  destruct (completion (hook (view_of inst))) as [[]|e]; [|destruct safely];
    exact Hc.
Qed.

Lemma unmountComponent_mounted (safely : bool) (this : composite) (w : world)
    (child : instance) (inst : publicInstance) :
  _renderedComponent this = Some child →
  _instance this = Some inst →
  unmountComponent safely (IComposite this) w = unmountSpec safely this inst child w.
Proof.
  intros Hc Hinst. cbn [unmountComponent]. rewrite Hc.
  unfold unmountComposite, unmountSpec.
  rewrite bind_getThis, bind_emit. cbn [fst snd]. rewrite Hc.
  rewrite bool_decide_eq_true_2 by eauto. cbn [negb].
  match goal with |- context [bind thisInstance ?k ?s] =>
    rewrite (bind_thisInstance k s inst Hinst) end.
  unfold bind at 1. rewrite (willUnmount_run safely this inst _ Hinst).
  match goal with |- context [willUnmountStep safely this inst ?w0] =>
    pose proof (willUnmountStep_child safely this inst w0) as Hc1;
    destruct (willUnmountStep safely this inst w0) as [[this1 w1] [[]|e]] end;
    [|reflexivity].
  cbn [fst snd] in Hc1. rewrite Hc in Hc1.
  rewrite (unmountComposite_release safely child (this1, w1) Hc1). cbn [fst snd].
  destruct (unmountComponent safely child w1) as [[child' w2] [[]|e]]; reflexivity.
Qed.

(** *** [componentWillUnmount] is called at most once *)

Lemma willUnmountCalls_app (id : nat) (t1 t2 : list event) :
  willUnmountCalls id (t1 ++ t2) = willUnmountCalls id t1 + willUnmountCalls id t2.
Proof. induction t1 as [|ev t1 IH]; cbn; [done|]. rewrite IH. lia. Qed.

(** The updater calls of a hook call no [componentWillUnmount] and keep the
    stamp of [this]. *)
Lemma applyEffects_trace (effs : list effect) (s : composite * world) :
  _mountOrder (applyEffects effs s).1.1 = _mountOrder s.1
  ∧ ∃ rest, trace (applyEffects effs s).1.2 = trace s.2 ++ rest
            ∧ ∀ id, willUnmountCalls id rest = 0.
Proof.
  revert s. induction effs as [|eff effs IH]; intros [this w].
  { split; [done|]. exists []. by rewrite app_nil_r. }
  cbn [applyEffects]. unfold bind.
  assert ((applyEffect eff (this, w)).2 = Returns tt
          ∧ _mountOrder (applyEffect eff (this, w)).1.1 = _mountOrder this
          ∧ trace (applyEffect eff (this, w)).1.2
            = trace w ++ [EvEnqueueUpdate (_mountOrder this)]) as (Hr & Hm & Ht).
  { destruct eff; done. }
  destruct (applyEffect eff (this, w)) as [s1 r1]. cbn [fst snd] in *. subst r1.
  destruct (IH s1) as (Hm' & rest & Ht' & Hn). split; [congruence|].
  exists (EvEnqueueUpdate (_mountOrder this) :: rest).
  rewrite Ht', Ht, <- app_assoc. split; [done|].
  intros id. cbn. apply Hn.
Qed.

Lemma willUnmountStep_counted (id : nat) (safely : bool) (this : composite)
    (inst : publicInstance) (w : world) :
  _renderedComponent (willUnmountStep safely this inst w).1.1
  = _renderedComponent this
  ∧ _mountOrder (willUnmountStep safely this inst w).1.1 = _mountOrder this
  ∧ ∃ rest,
      trace (willUnmountStep safely this inst w).1.2 = trace w ++ rest
      ∧ (_instance this = Some inst →
         ∃ inst1, _instance (willUnmountStep safely this inst w).1.1 = Some inst1
                  ∧ willUnmountCalls id rest + awaits id (_mountOrder this) inst1
                    ≤ awaits id (_mountOrder this) inst).
Proof.
  split; [apply willUnmountStep_child|].
  unfold willUnmountStep, awaits.
  destruct (method componentWillUnmount inst) as [hook|] eqn:Hhook.
  2:{ split; [done|]. exists []. rewrite app_nil_r. split; [done|].
      intros Hinst. exists inst. rewrite Hhook. by cbn. }
  destruct (inst_calledComponentWillUnmount inst) eqn:Hcalled.
  { split; [done|]. exists []. rewrite app_nil_r. split; [done|].
    intros Hinst. exists inst. rewrite Hhook, Hcalled. by cbn. }
  cbv zeta.
  match goal with |- context [applyEffects ?effs ?s] =>
    pose proof (applyEffects_run effs s) as (_ & Hi & _);
    pose proof (applyEffects_trace effs s) as (Hm & rest & Ht & Hn);
    destruct (applyEffects effs s) as [[this2 w2] r2] end.
  cbn [fst snd] in *.
  assert (∃ inst1, _instance this2 = Some inst1
                   ∧ awaits id (_mountOrder this) inst1 = 0) as (inst1 & Hi1 & Ha1).
  { eexists. split; [exact Hi|]. unfold awaits. cbn.
    by rewrite andb_false_r. }
  unfold awaits in Ha1.
  assert (willUnmountCalls id
            (EvComponentWillUnmount (_mountOrder this) safely :: rest)
          ≤ (if bool_decide (_mountOrder this = id) && bool_decide (is_Some (Some hook))
                && negb false then 1 else 0)) as Hle.
  { cbn [willUnmountCalls isWillUnmount]. rewrite Hn.
    rewrite (bool_decide_eq_true_2 (is_Some (Some hook))) by eauto.
    destruct (Nat.eqb_spec (_mountOrder this) id) as [->|Hne].
    - rewrite bool_decide_eq_true_2 by done. cbn. lia.
    - rewrite bool_decide_eq_false_2 by done. cbn. lia. }
  assert (trace w2
          = trace w ++ EvComponentWillUnmount (_mountOrder this) safely :: rest)
    as Ht' by (rewrite Ht; cbn [trace set_trace]; by rewrite <- app_assoc).
  remember (EvComponentWillUnmount (_mountOrder this) safely :: rest) as evs.
  clear Heqevs Ht.
  destruct (completion (hook (view_of inst))) as [[]|e]; [|destruct safely];
    cbn [fst snd]; (split; [done|]); exists evs; (split; [done|]);
    intros _; exists inst1; (split; [done|]); lia.
Qed.

(** One unmount: the calls it makes and the instances it leaves waiting are
    no more than the instances that were waiting. *)
Lemma unmountComponent_counted (id : nat) (safely : bool) (i : instance) (w : world) :
  ∃ rest, trace (unmountComponent safely i w).1.2 = trace w ++ rest
          ∧ willUnmountCalls id rest
            + awaitingWillUnmount id (unmountComponent safely i w).1.1
            ≤ awaitingWillUnmount id i.
Proof.
  revert w. induction i as [|tag key children IH|this IH] using instance_ind';
    intros w.
  - exists []. rewrite app_nil_r. split; [done|]. cbn. lia.
  - cbn [unmountComponent].
    assert (∀ w0, ∃ rest,
              trace (unmountChildren (unmountComponent safely) children w0).1.2
              = trace w0 ++ rest
              ∧ willUnmountCalls id rest
                + fold_right (λ child n, awaitingWillUnmount id child + n) 0
                    (unmountChildren (unmountComponent safely) children w0).1.1
                ≤ fold_right (λ child n, awaitingWillUnmount id child + n) 0 children)
      as Hchildren.
    { induction IH as [|child children Hchild _ IHchildren]; intros w0.
      - exists []. rewrite app_nil_r. split; [done|]. cbn. lia.
      - cbn [unmountChildren]. destruct (Hchild w0) as (rest1 & Ht1 & Hn1).
        destruct (unmountComponent safely child w0) as [[child' w1] [[]|e]];
          cbn [fst snd] in *.
        + destruct (IHchildren w1) as (rest2 & Ht2 & Hn2).
          destruct (unmountChildren _ children w1) as [[rest' w2] r];
            cbn [fst snd] in *.
          exists (rest1 ++ rest2). rewrite Ht2, Ht1, <- app_assoc.
          split; [done|]. rewrite willUnmountCalls_app. cbn [fold_right]. lia.
        + exists rest1. split; [done|]. cbn [fold_right]. lia. }
    destruct (Hchildren (set_trace (trace w ++ [EvHostUnmount tag safely]) w))
      as (rest & Ht & Hn).
    destruct (unmountChildren _ children _) as [[children' w'] [[]|e]];
      cbn [fst snd] in *;
      exists (EvHostUnmount tag safely :: rest);
      (split; [cbn [trace set_trace] in Ht; by rewrite Ht, <- app_assoc|]);
      cbn [willUnmountCalls isWillUnmount awaitingWillUnmount fold_right]; lia.
  - destruct (_renderedComponent this) as [child|] eqn:Hc.
    2:{ rewrite unmountComponent_unmounted by done. cbn [fst snd].
        exists [EvUnmount (_mountOrder this) safely]. split; [done|].
        cbn [awaitingWillUnmount]. rewrite Hc. cbn. lia. }
    destruct (_instance this) as [inst|] eqn:Hinst.
    2:{ cbn [unmountComponent]. rewrite Hc. unfold unmountComposite.
        rewrite bind_getThis, bind_emit. cbn [fst snd]. rewrite Hc.
        rewrite bool_decide_eq_true_2 by eauto. cbn [negb].
        unfold bind at 1. unfold thisInstance. exec. rewrite Hinst. cbn [fst snd].
        exists [EvUnmount (_mountOrder this) safely]. split; [done|].
        cbn [willUnmountCalls isWillUnmount]. lia. }
    rewrite (unmountComponent_mounted safely this w child inst Hc Hinst).
    unfold unmountSpec.
    match goal with |- context [willUnmountStep safely this inst ?w0] =>
      pose proof (willUnmountStep_counted id safely this inst w0)
        as (Hc1 & Hm1 & rest1 & Ht1 & Hown);
      destruct (willUnmountStep safely this inst w0) as [[this1 w1] r1] end.
    cbn [fst snd] in *. destruct (Hown Hinst) as (inst1 & Hi1 & Hn1).
    assert (awaitingWillUnmount id (IComposite this)
            = awaits id (_mountOrder this) inst + awaitingWillUnmount id child) as Hthis.
    { cbn [awaitingWillUnmount]. by rewrite Hc, Hinst. }
    rewrite Hthis. clear Hthis.
    destruct r1 as [[]|e].
    + destruct (IH child eq_refl w1) as (rest2 & Ht2 & Hn2).
      destruct (unmountComponent safely child w1) as [[child' w2] [[]|e]];
        cbn [fst snd] in *;
        exists (EvUnmount (_mountOrder this) safely :: rest1 ++ rest2);
        (split; [cbn [trace set_trace] in Ht1; by rewrite Ht2, Ht1, <- !app_assoc|]);
        cbn [willUnmountCalls isWillUnmount]; rewrite willUnmountCalls_app.
      * cbn [awaitingWillUnmount released _renderedComponent
               set_topLevelWrapper set_rootNodeID set_context set_pendingElement
               set_pendingCallbacks set_pendingForceUpdate set_pendingReplaceState
               set_pendingStateQueue set_instance set_renderedComponent
               set_renderedNodeType]. lia.
      * cbn [awaitingWillUnmount _renderedComponent _instance _mountOrder
               set_renderedComponent]. rewrite Hi1, Hm1. lia.
    + cbn [fst snd].
      exists (EvUnmount (_mountOrder this) safely :: rest1).
      split; [cbn [trace set_trace] in Ht1; by rewrite Ht1, <- app_assoc|].
      cbn [willUnmountCalls isWillUnmount awaitingWillUnmount].
      rewrite Hc1, Hc, Hi1, Hm1.
      pose proof (Nat.le_0_l (awaitingWillUnmount id child)). lia.
Qed.

Lemma unmountRepeatedly_counted (id : nat) (flags : list bool) (i : instance)
    (w : world) :
  ∃ rest, trace (unmountRepeatedly flags i w).2 = trace w ++ rest
          ∧ willUnmountCalls id rest
            + awaitingWillUnmount id (unmountRepeatedly flags i w).1
            ≤ awaitingWillUnmount id i.
Proof.
  revert i w. induction flags as [|safely flags IH]; intros i w.
  { exists []. rewrite app_nil_r. split; [done|]. cbn. lia. }
  cbn [unmountRepeatedly].
  destruct (unmountComponent_counted id safely i w) as (rest1 & Ht1 & Hn1).
  destruct (unmountComponent safely i w) as [[i1 w1] r1]. cbn [fst snd] in *.
  destruct (IH i1 w1) as (rest2 & Ht2 & Hn2).
  exists (rest1 ++ rest2). rewrite Ht2, Ht1, <- app_assoc. split; [done|].
  rewrite willUnmountCalls_app. lia.
Qed.

(** No more instances wait for their [componentWillUnmount] under a name
    than there are instances of that name. *)
Lemma awaitingWillUnmount_stamps (id : nat) (i : instance) :
  awaitingWillUnmount id i ≤ length (filter (λ k, k = id) (mountOrders i)).
Proof.
  induction i as [|tag key children IH|this IH] using instance_ind'.
  - done.
  - cbn [awaitingWillUnmount mountOrders].
    induction IH as [|child children Hchild _ IHchildren]; [done|].
    cbn [fold_right flat_map]. rewrite filter_app, length_app. lia.
  - cbn [awaitingWillUnmount mountOrders].
    destruct (_renderedComponent this) as [child|]; [|lia].
    specialize (IH child eq_refl). rewrite filter_cons.
    assert (match _instance this with
            | Some inst => awaits id (_mountOrder this) inst
            | None => 0
            end ≤ if decide (_mountOrder this = id) then 1 else 0) as Hown.
    { destruct (_instance this) as [inst|]; [|destruct (decide _); lia].
      unfold awaits. destruct (decide (_mountOrder this = id)).
      - rewrite bool_decide_eq_true_2 by done. repeat case_match; lia.
      - rewrite bool_decide_eq_false_2 by done. cbn. lia. }
    destruct (decide (_mountOrder this = id)); cbn [length]; lia.
Qed.

Lemma NoDup_filter_eq (id : nat) (l : list nat) :
  NoDup l → length (filter (λ k, k = id) l) ≤ 1.
Proof.
  induction 1 as [|k l Hk _ IH]; [cbn; lia|].
  rewrite filter_cons. destruct (decide (k = id)) as [->|]; [|done].
  cbn [length].
  assert (length (filter (λ k, k = id) l) = 0) as ->; [|lia].
  clear IH. induction l as [|k l IH]; [done|].
  rewrite filter_cons. apply not_elem_of_cons in Hk as [Hne Hk].
  destruct (decide (k = id)); [congruence|by apply IH].
Qed.

(** C9.  The unmount of a mounted composite instance is the unmount of the
    specification: if the instance defines [componentWillUnmount] and the
    hook has not been called for it, the hook is called, through the guarded
    call when [safely], which records what the hook throws and goes on, and
    directly when not, so that what it throws ends the unmount; then the
    rendered component is unmounted with the same flag.  And over any
    sequence of unmounts of the tree, whatever their flags and outcomes, the
    hook of each instance is called at most once. *)
Theorem unmountComponent_willUnmount (safely : bool) (this : composite)
    (inst : publicInstance) (child : instance) (w : world) (flags : list bool) :
  _renderedComponent this = Some child →
  _instance this = Some inst →
  NoDup (mountOrders (IComposite this)) →
  unmountComponent safely (IComposite this) w = unmountSpec safely this inst child w
  ∧ ∀ id, willUnmountCalls id
            (newEvents w (unmountRepeatedly flags (IComposite this) w).2) ≤ 1.
Proof.
  intros Hc Hinst Hstamps. split; [by apply unmountComponent_mounted|].
  intros id.
  destruct (unmountRepeatedly_counted id flags (IComposite this) w)
    as (rest & Ht & Hn).
  unfold newEvents. rewrite Ht, drop_app_length.
  pose proof (awaitingWillUnmount_stamps id (IComposite this)).
  pose proof (NoDup_filter_eq id _ Hstamps). lia.
Qed.

Lemma unmountComponent_willUnmount_witness :
  unmountComponent false (IComposite mountedOuter) initialWorld
  = unmountSpec false mountedOuter
      {| inst_props := noProps; inst_context := emptyObject; inst_state := JNull;
         inst_calledComponentWillUnmount := false;
         inst_methods := OfClass (methods_of_class Outer) |}
      (IComposite mountedOuterChild) initialWorld
  ∧ ∀ id, willUnmountCalls id
            (newEvents initialWorld
               (unmountRepeatedly [false; true; false] (IComposite mountedOuter)
                  initialWorld).2) ≤ 1.
Proof.
  apply (unmountComponent_willUnmount false mountedOuter _
           (IComposite mountedOuterChild) initialWorld [false; true; false]).
  - reflexivity.
  - reflexivity.
  - apply (bool_decide_unpack _). vm_compute. exact I.
Defined.

(** The three unmounts of the tree of [Outer]: the first, not safe, stops at
    the hook of [Grumpy], which throws; the two after it do not call the
    hook again. *)
Example unmount_Outer_trace :
  (newEvents initialWorld
     (unmountRepeatedly [false; true; false] (IComposite mountedOuter)
        initialWorld).2)
  = [EvUnmount 1 false; EvUnmount 2 false; EvComponentWillUnmount 2 false;
     EvUnmount 1 true; EvUnmount 2 true; EvHostUnmount "div" true;
     EvUnmount 1 false].
Proof. vm_compute. reflexivity. Qed.
End CompositeFacts.

(* ================================================================== *)
(** ** Facts about CallbackQueue *)
(* ================================================================== *)

Module CallbackQueueFacts.
Import CallbackQueue CallbackQueueSpec.

Lemma enqueue_draining callbacks contexts entries s pending cb context :
  draining callbacks contexts entries s pending →
  draining callbacks contexts entries (enqueue cb context s)
           (pending ++ [(cb, context)])
  ∧ calls (enqueue cb context s) = calls s
  ∧ _arg (this (enqueue cb context s)) = _arg (this s).
Proof.
  intros (Hcbs & Hctxs & Hholds & Hc & Hx). unfold holds in Hholds.
  unfold draining, enqueue, holds.
  destruct s as [[c x arg] carrays xarrays cs]; cbn in *.
  destruct c as [c|], x as [x|]; try done; cbn.
  - destruct Hholds as [Hpc Hpx]. unfold array. cbn. rewrite Hpc, Hpx. cbn.
    rewrite !fmap_app. cbn.
    split_and!; try done; simplify_map_eq; done.
  - subst pending. unfold array. cbn.
    assert (fresh (dom carrays) ≠ callbacks) as Hfc.
    { intros Heq. apply (is_fresh (dom carrays)). rewrite Heq.
      apply elem_of_dom. eauto. }
    assert (fresh (dom xarrays) ≠ contexts) as Hfx.
    { intros Heq. apply (is_fresh (dom xarrays)). rewrite Heq.
      apply elem_of_dom. eauto. }
    split_and!; try done; simplify_map_eq; try done; try congruence.
Qed.

Lemma invoke_draining callbacks contexts entries s pending cb context arg :
  draining callbacks contexts entries s pending →
  draining callbacks contexts entries (invoke cb context arg s)
           (pending ++ enqueued_by cb)
  ∧ calls (invoke cb context arg s) = calls s ++ [Called (name_of cb) context arg]
  ∧ _arg (this (invoke cb context arg s)) = _arg (this s).
Proof.
  intros Hs. unfold invoke, enqueued_by.
  assert (∀ body s0 pending0,
            draining callbacks contexts entries s0 pending0 →
            let s1 := foldl (λ s a, match a with
                                    | Enqueue cb' context' => enqueue cb' context' s
                                    end) s0 body in
            draining callbacks contexts entries s1
              (pending0
               ++ ((λ a, match a with Enqueue cb' context' => (cb', context') end)
                   <$> body))
            ∧ calls s1 = calls s0 ∧ _arg (this s1) = _arg (this s0)) as Hbody.
  { clear. induction body as [|[cb' context'] body IH]; intros s0 pending0 Hs0.
    - cbn. by rewrite app_nil_r.
    - cbn [foldl fmap list_fmap].
      destruct (enqueue_draining _ _ _ _ _ cb' context' Hs0) as (Hs1 & Hc1 & Ha1).
      destruct (IH _ _ Hs1) as (Hs2 & Hc2 & Ha2). cbv zeta in *.
      rewrite <- app_assoc in Hs2. split_and!; [done|congruence..]. }
  apply (Hbody (body_of cb)
           (set_calls (calls s ++ [Called (name_of cb) context arg]) s) pending).
  exact Hs.
Qed.

(** The loop of [notifyAll] over what is left to call, [todo]. *)
Lemma notifyAll_loop_draining callbacks contexts arg (todo called : list (callback * nat))
    (s : state) (pending : list (callback * nat)) (fuel : nat) :
  draining callbacks contexts (called ++ todo) s pending →
  length todo < fuel →
  ∃ s', notifyAll_loop fuel callbacks contexts arg (length called) s
        = Some (s', Returns tt)
        ∧ draining callbacks contexts (called ++ todo) s'
            (pending ++ (todo ≫= enqueued_by ∘ fst))
        ∧ calls s' = calls s
                     ++ ((λ e, Called (name_of e.1) (Some e.2) arg) <$> todo)
        ∧ _arg (this s') = _arg (this s).
Proof.
  revert called s pending fuel.
  induction todo as [|[cb context] todo IH]; intros called s pending fuel Hs Hfuel;
    (destruct fuel as [|fuel]; [cbn in Hfuel; lia|]);
    pose proof Hs as (Hcbs & Hctxs & _); cbn [notifyAll_loop]; unfold array;
    rewrite Hcbs, Hctxs; cbn [default from_option id];
    rewrite !length_fmap, length_app.
  - rewrite bool_decide_eq_false_2 by (cbn; lia).
    exists s. cbn. rewrite app_nil_r in Hs. rewrite !app_nil_r. done.
  - rewrite bool_decide_eq_true_2 by (cbn; lia).
    rewrite !list_lookup_fmap, !lookup_app_r, Nat.sub_diag by lia. cbn.
    destruct (invoke_draining _ _ _ _ _ cb (Some context) arg Hs) as (Hs1 & Hc1 & Ha1).
    replace (called ++ (cb, context) :: todo)
      with ((called ++ [(cb, context)]) ++ todo) in * by (by rewrite <- app_assoc).
    destruct (IH (called ++ [(cb, context)]) _ _ fuel Hs1) as (s' & Hrun & Hs' & Hc' & Ha');
      [cbn in Hfuel; lia|].
    rewrite length_app, Nat.add_1_r in Hrun.
    exists s'. split_and!; [done| | |congruence].
    + rewrite <- (app_assoc pending) in Hs'. exact Hs'.
    + rewrite Hc', Hc1, <- app_assoc. done.
Qed.

(** C6, as amended.  [notifyAll] on a queue that holds [entries] calls each
    callback of [entries] once, in the order of insertion, with its context
    and the argument of the queue, and nothing else; it leaves the arrays it
    drained empty; and what the callbacks enqueued meanwhile was not called
    and is what the queue holds afterwards, in new arrays: the queue no
    longer refers to the arrays it drained.  On an empty queue it calls
    nothing and the queue stays empty. *)
Theorem notifyAll_drains (s : state) (entries : list (callback * nat))
    (fuel : nat) :
  holds s entries →
  length entries < fuel →
  ∃ s', notifyAll fuel s = Some (s', Returns tt)
        ∧ calls s' = calls s ++ callsOf (_arg (this s)) entries
        ∧ holds s' (reentrant entries)
        ∧ (∀ ref, _callbacks (this s) = Some ref →
                  callbackArrays s' !! ref = Some []
                  ∧ _callbacks (this s') ≠ Some ref)
        ∧ (∀ ref, _contexts (this s) = Some ref →
                  contextArrays s' !! ref = Some []
                  ∧ _contexts (this s') ≠ Some ref).
Proof.
  intros Hholds Hfuel. unfold notifyAll, holds in *.
  destruct (_callbacks (this s)) as [callbacks|] eqn:Hc,
           (_contexts (this s)) as [contexts|] eqn:Hx; try done.
  2:{ subst entries. exists s. unfold callsOf, reentrant, holds.
      rewrite Hc, Hx. cbn. rewrite app_nil_r. done. }
  destruct Hholds as [Hcbs Hctxs].
  match goal with |- context [notifyAll_loop fuel callbacks contexts ?arg 0 ?s0] =>
    destruct (notifyAll_loop_draining callbacks contexts arg entries [] s0 [] fuel)
      as (s1 & Hrun & (Hcbs1 & Hctxs1 & Hholds1 & Hc1 & Hx1) & Hcalls & Harg);
      [by split_and!|done|]
  end.
  cbn [length] in Hrun. rewrite Hrun.
  eexists. split; [reflexivity|]. cbn. unfold holds in *.
  split_and!; [done|by destruct (_callbacks (this s1)), (_contexts (this s1));
                      simplify_map_eq| |].
  - intros ref [= <-]. unfold array. rewrite Hcbs1. simplify_map_eq. done.
  - intros ref [= <-]. unfold array. rewrite Hctxs1. simplify_map_eq. done.
Qed.

Lemma notifyAll_drains_witness :
  ∃ s', notifyAll 2 reentrantQueue = Some (s', Returns tt)
        ∧ calls s' = calls reentrantQueue
                     ++ callsOf (_arg (this reentrantQueue))
                          [(Callback 1 [Enqueue (Callback 2 []) 7], 5)]
        ∧ holds s' (reentrant [(Callback 1 [Enqueue (Callback 2 []) 7], 5)])
        ∧ (∀ ref, _callbacks (this reentrantQueue) = Some ref →
                  callbackArrays s' !! ref = Some []
                  ∧ _callbacks (this s') ≠ Some ref)
        ∧ (∀ ref, _contexts (this reentrantQueue) = Some ref →
                  contextArrays s' !! ref = Some []
                  ∧ _contexts (this s') ≠ Some ref).
Proof.
  apply (notifyAll_drains reentrantQueue
           [(Callback 1 [Enqueue (Callback 2 []) 7], 5)] 2).
  - vm_compute. split; reflexivity.
  - simpl. lia.
Defined.

(** C6, refuted as stated: the callback of [reentrantQueue] enqueues another
    during the drain, and after the drain the queue refers to other arrays
    than those it had, which are left empty. *)
Lemma reentrant_enqueue_not_same_buffer :
  ∃ s', notifyAll 2 reentrantQueue = Some (s', Returns tt)
        ∧ holds s' [(Callback 2 [], 7)]
        ∧ ¬ appendedToSameBuffer reentrantQueue s'.
Proof.
  eexists. split; [vm_compute; reflexivity|]. split.
  - vm_compute. split; reflexivity.
  - intros [H _]. vm_compute in H. discriminate.
Qed.

End CallbackQueueFacts.

(* ================================================================== *)
(** ** Facts about ReactUpdates *)
(* ================================================================== *)

Module ReactUpdatesFacts.
Import ReactUpdates ReactUpdatesSpec.

(** *** Logs and weights *)

Lemma reconciled_app (l1 l2 : list event) :
  reconciled (l1 ++ l2) = reconciled l1 ++ reconciled l2.
Proof. induction l1 as [|[] l1 IH]; cbn; congruence. Qed.

Lemma scheduled_app (l1 l2 : list event) :
  scheduled (l1 ++ l2) = scheduled l1 ++ scheduled l2.
Proof. induction l1 as [|[] l1 IH]; cbn; congruence. Qed.

Lemma asapCalls_app (l1 l2 : list event) :
  asapCalls (l1 ++ l2) = asapCalls l1 ++ asapCalls l2.
Proof. induction l1 as [|[| |[]] l1 IH]; cbn; congruence. Qed.

Lemma callbackWeight_body (name : nat) (body : list action) :
  callbackWeight (Callback name body) = S (actionsWeight body).
Proof.
  reflexivity.
Qed.

Lemma componentsWeight_insert (m : gmap nat component) (c : nat) (x : component) :
  componentsWeight (<[c := x]> m) + componentWeight (default unmetComponent (m !! c))
  = componentsWeight m + componentWeight x.
Proof.
  unfold componentsWeight.
  assert (∀ (m' : gmap nat component) (j1 j2 : nat) (z1 z2 : component) (y : nat),
            j1 ≠ j2 → m' !! j1 = Some z1 → m' !! j2 = Some z2 →
            componentWeight z1 + (componentWeight z2 + y)
            = componentWeight z2 + (componentWeight z1 + y)) as Hcomm
    by (intros; lia).
  destruct (m !! c) as [old|] eqn:Hc; cbn [default from_option id].
  - rewrite <- insert_delete_eq.
    rewrite (map_fold_insert_L _ _ _ _ _ (Hcomm _)) by apply lookup_delete_eq.
    rewrite (map_fold_delete_L _ _ c old m (Hcomm _) Hc). lia.
  - rewrite (map_fold_insert_L _ _ _ _ _ (Hcomm _)) by done. cbn. lia.
Qed.

Lemma componentWeight_set_pendingCallbacks (v : option (list callback))
    (c : component) :
  componentWeight (set_pendingCallbacks v c) + callbacksWeight (_pendingCallbacks c)
  = componentWeight c + callbacksWeight v.
Proof.
  unfold componentWeight. cbn [updates _pendingCallbacks set_pendingCallbacks]. lia.
Qed.

Lemma callbacksWeight_snoc (callbacks : option (list callback)) (cb : callback) :
  callbacksWeight (Some (default [] callbacks ++ [cb]))
  = callbacksWeight callbacks + callbackWeight cb.
Proof.
  unfold callbacksWeight. cbn [default from_option id].
  rewrite sum_list_with_app. cbn [sum_list_with]. lia.
Qed.

Lemma potential_assignComponent (c : nat) (f : component → component) (s : state) :
  potential (assignComponent c f s) + componentWeight (component_of s c)
  = potential s + componentWeight (f (component_of s c)).
Proof.
  unfold potential, assignComponent. cbn.
  pose proof (componentsWeight_insert (components s) c (f (component_of s c))) as H.
  unfold component_of in *. lia.
Qed.

Lemma component_of_assignComponent (c c' : nat) (f : component → component)
    (s : state) :
  component_of (assignComponent c f s) c'
  = if decide (c = c') then f (component_of s c) else component_of s c'.
Proof.
  unfold component_of, assignComponent. cbn. rewrite lookup_insert.
  by destruct (decide (c = c')).
Qed.

(** *** Runs within a batch *)

Lemma within_batch_refl (s : state) :
  isBatchingUpdates s = true → within_batch [] [] 0 0 s s.
Proof.
  intros HB. split_and!; [done..|by exists []; rewrite app_nil_r|lia|].
  exists []. rewrite !app_nil_r. split_and!; [done..|by right].
Qed.

Lemma within_batch_trans recs1 recs2 calls1 calls2 pot1 pot2 gain1 gain2 s s1 s2 :
  within_batch recs1 calls1 pot1 gain1 s s1 →
  within_batch recs2 calls2 pot2 gain2 s1 s2 →
  within_batch (recs1 ++ recs2) (calls1 ++ calls2) (pot1 + pot2) (gain1 + gain2)
               s s2.
Proof.
  intros (HB1 & Hn1 & Hm1 & (more1 & Hd1) & Hp1 & evs1 & Hl1 & Hr1 & Hc1 & Hq1 & Hf1)
         (HB2 & Hn2 & Hm2 & (more2 & Hd2) & Hp2 & evs2 & Hl2 & Hr2 & Hc2 & Hq2 & Hf2).
  split_and!; [done|congruence|intros c; by rewrite Hm2, Hm1| |lia|].
  { exists (more1 ++ more2). by rewrite Hd2, Hd1, <- app_assoc. }
  exists (evs1 ++ evs2). rewrite reconciled_app, asapCalls_app, scheduled_app.
  split_and!; [by rewrite Hl2, Hl1, <- app_assoc|congruence|congruence| |].
  - intros Hwf. destruct (Hq1 Hwf) as [Hwf1 He1]. destruct (Hq2 Hwf1) as [Hwf2 He2].
    split; [done|]. by rewrite He2, He1, <- app_assoc.
  - destruct Hf2 as [?|[Hf2 Hs2]]; [by left|].
    destruct Hf1 as [?|[Hf1 Hs1]]; [left; congruence|].
    right. rewrite Hs1, Hs2. split; [congruence|done].
Qed.

Lemma within_batch_weaken recs calls pot pot' gain gain' s s' :
  within_batch recs calls pot gain s s' → pot + gain' ≤ pot' + gain →
  within_batch recs calls pot' gain' s s'.
Proof.
  intros (HB & Hn & Hm & Hd & Hp & Hevs) ?. split_and!; [done..|lia|done].
Qed.

Lemma assignComponent_within (c : nat) (f : component → component) (gain : nat)
    (s : state) :
  isBatchingUpdates s = true →
  (∀ x, _mountOrder (f x) = _mountOrder x) →
  componentWeight (f (component_of s c)) + gain ≤ componentWeight (component_of s c) →
  within_batch [] [] 0 gain s (assignComponent c f s).
Proof.
  intros HB Hf Hw.
  split_and!; [done..| |by exists []; rewrite app_nil_r| |].
  - intros c'. rewrite component_of_assignComponent.
    destruct (decide _) as [<-|]; [apply Hf|done].
  - pose proof (potential_assignComponent c f s). lia.
  - exists []. rewrite !app_nil_r. split_and!; [done..|by right].
Qed.

Section Flush.

Variable flush : state → run.

Lemma enqueueUpdate_batching_within (c : nat) (s : state) :
  isBatchingUpdates s = true →
  within_batch [] [] 1 0 s (enqueueUpdate_batching c s).
Proof.
  intros HB. unfold enqueueUpdate_batching. cbv zeta.
  set (s1 := set_dirtyComponents (dirtyComponents s ++ [c]) s).
  assert (within_batch [] [] 1 0 s s1) as H1.
  { split_and!; [done..|by exists [c]| |].
    { unfold s1, potential.
      cbn [dirtyComponents components asapCallbackQueue asapEnqueued
           set_dirtyComponents].
      rewrite length_app. cbn [length]. lia. }
    exists []. rewrite !app_nil_r. split_and!; [done..|by right]. }
  destruct (_updateBatchNumber (component_of s1 c)); [done|].
  apply (within_batch_trans [] [] [] [] 1 0 0 0 _ _ _ H1).
  split_and!; [done..| |by exists []; rewrite app_nil_r| |].
  - intros c'. rewrite component_of_assignComponent. by destruct (decide _) as [<-|].
  - pose proof (potential_assignComponent c
                  (set_updateBatchNumber (Some (updateBatchNumber s1 + 1))) s1) as Hp.
    change (componentWeight (set_updateBatchNumber _ (component_of s1 c)))
      with (componentWeight (component_of s1 c)) in Hp. lia.
  - exists []. rewrite !app_nil_r. split_and!; [done..|by right].
Qed.

Lemma enqueueUpdate_within (c : nat) (s : state) :
  isBatchingUpdates s = true →
  ∃ s', enqueueUpdate flush c s = Some (s', Returns tt)
        ∧ within_batch [] [] 1 0 s s'.
Proof.
  intros HB. unfold enqueueUpdate. rewrite HB. cbn.
  eexists. split; [reflexivity|]. by apply enqueueUpdate_batching_within.
Qed.

Lemma entries_enqueue (cb : callback) (context : nat) (q : queue) :
  wfQueue q →
  wfQueue (queue_enqueue cb context q)
  ∧ entries (queue_enqueue cb context q) = entries q ++ [(cb, context)].
Proof.
  unfold wfQueue, entries, queue_enqueue. cbn.
  destruct (_callbacks q) as [callbacks|], (_contexts q) as [contexts|];
    try done; cbn [default from_option id].
  intros Hlen. rewrite !length_app. split; [cbn; lia|].
  exact (zip_with_app pair callbacks [cb] contexts [context] Hlen).
Qed.

Lemma callbacksWeight_enqueue (cb : callback) (context : nat) (q : queue) :
  callbacksWeight (_callbacks (queue_enqueue cb context q))
  = callbacksWeight (_callbacks q) + callbackWeight cb.
Proof.
  unfold callbacksWeight, queue_enqueue. cbn.
  rewrite sum_list_with_app. cbn. lia.
Qed.

Lemma asap_within (cb : callback) (context : nat) (s : state) :
  isBatchingUpdates s = true →
  within_batch [] [] (S (callbackWeight cb)) 0 s (asap cb context s).
Proof.
  intros HB. unfold asap. cbv zeta.
  split_and!; [done..|by exists []; rewrite app_nil_r| |].
  - unfold potential. cbn [dirtyComponents components asapCallbackQueue asapEnqueued
                            set_log set_asapCallbackQueue set_asapEnqueued].
    rewrite callbacksWeight_enqueue. destruct (asapEnqueued s); lia.
  - exists [AsapScheduled cb context]. split_and!; [done..| |by left].
    intros Hwf. by apply entries_enqueue.
Qed.

Lemma enqueueCallback_within (c : nat) (cb : callback) (s : state) :
  isBatchingUpdates s = true →
  ∃ s', enqueueCallback flush c cb s = Some (s', Returns tt)
        ∧ within_batch [] [] (S (callbackWeight cb)) 0 s s'.
Proof.
  intros HB. unfold enqueueCallback. cbv zeta.
  match goal with |- context [enqueueUpdate flush c ?s1] =>
    assert (within_batch [] [] (callbackWeight cb) 0 s s1) as H1;
    [|destruct (enqueueUpdate_within c s1) as (s' & Hrun & H2); [apply H1|]]
  end.
  { split_and!; [done..| |by exists []; rewrite app_nil_r| |].
    - intros c'. rewrite component_of_assignComponent. by destruct (decide _) as [<-|].
    - match goal with |- context [assignComponent c ?f s] =>
        pose proof (potential_assignComponent c f s) as Hp end.
      cbv beta in Hp.
      pose proof (componentWeight_set_pendingCallbacks
                    (Some (default [] (_pendingCallbacks (component_of s c)) ++ [cb]))
                    (component_of s c)) as Hw.
      rewrite callbacksWeight_snoc in Hw. lia.
    - exists []. rewrite !app_nil_r. split_and!; [done..|by right]. }
  exists s'. split; [done|].
  pose proof (within_batch_trans _ _ _ _ _ _ _ _ _ _ _ H1 H2) as H.
  cbn in H. eapply within_batch_weaken; [exact H|lia].
Qed.

Lemma runAction_within (a : action) (s : state) :
  isBatchingUpdates s = true →
  ∃ s', runAction flush a s = Some (s', Returns tt)
        ∧ within_batch [] [] (actionWeight a) 0 s s'.
Proof.
  intros HB. destruct a as [c|c cb|cb context]; cbn [runAction actionWeight].
  - by apply enqueueUpdate_within.
  - by apply enqueueCallback_within.
  - eexists. split; [reflexivity|]. by apply asap_within.
Qed.

Lemma runActions_within (body : list action) (s : state) :
  isBatchingUpdates s = true →
  ∃ s', runActions flush body s = Some (s', Returns tt)
        ∧ within_batch [] [] (actionsWeight body) 0 s s'.
Proof.
  revert s. induction body as [|a body IH]; intros s HB; cbn [runActions].
  { exists s. split; [done|]. by apply within_batch_refl. }
  destruct (runAction_within a s HB) as (s1 & Hrun1 & H1). rewrite Hrun1.
  cbn [andThen].
  destruct (IH s1) as (s2 & Hrun2 & H2); [apply H1|].
  exists s2. split; [done|].
  exact (within_batch_trans _ _ _ _ _ _ _ _ _ _ _ H1 H2).
Qed.

Lemma log_within (ev : event) (s : state) :
  isBatchingUpdates s = true →
  scheduled [ev] = [] →
  within_batch (reconciled [ev]) (asapCalls [ev]) 0 0 s (set_log (log s ++ [ev]) s).
Proof.
  intros HB Hev. split_and!; [done..|by exists []; rewrite app_nil_r|done|].
  exists [ev]. rewrite Hev, app_nil_r. split_and!; [done..|by right].
Qed.

Lemma invoke_within (from : origin) (cb : callback) (context : option nat)
    (s : state) :
  isBatchingUpdates s = true →
  ∃ s', invoke flush from cb context s = Some (s', Returns tt)
        ∧ within_batch [] (callsFrom from [(cb, context)]) (callbackWeight cb) 1 s s'.
Proof.
  intros HB. unfold invoke.
  pose proof (log_within (Called from cb context) s HB eq_refl) as H1.
  destruct (runActions_within (body_of cb) _ (proj1 H1)) as (s' & Hrun & H2).
  exists s'. split; [done|].
  pose proof (within_batch_trans _ _ _ _ _ _ _ _ _ _ _ H1 H2) as H.
  destruct cb as [name body]. rewrite callbackWeight_body.
  cbn [reconciled app body_of] in H. rewrite app_nil_r in H.
  eapply within_batch_weaken.
  - destruct from; exact H.
  - lia.
Qed.

Lemma callsFrom_app (from : origin) (l1 l2 : list (callback * option nat)) :
  callsFrom from l1 ++ callsFrom from l2 = callsFrom from (l1 ++ l2).
Proof. by destruct from. Qed.

Lemma notifyAll_loop_within (from : origin) (callbacks : list callback)
    (called todo : list nat) (s : state) :
  isBatchingUpdates s = true →
  length callbacks = length todo →
  ∃ s', notifyAll_loop flush from callbacks (called ++ todo) (length called) s
        = Some (s', Returns tt)
        ∧ within_batch [] (callsFrom from (due (zip callbacks todo)))
            (sum_list_with callbackWeight callbacks) (length callbacks) s s'.
Proof.
  revert called todo s.
  induction callbacks as [|cb callbacks IH]; intros called [|context todo] s HB Hlen;
    try done; cbn [notifyAll_loop].
  { exists s. split; [done|]. destruct from; by apply within_batch_refl. }
  rewrite lookup_app_r, Nat.sub_diag by lia. cbn [lookup list_lookup].
  destruct (invoke_within from cb (Some context) s HB) as (s1 & Hrun1 & H1).
  rewrite Hrun1. cbn [andThen].
  destruct (IH (called ++ [context]) todo s1) as (s2 & Hrun2 & H2);
    [apply H1|by injection Hlen|].
  rewrite length_app, Nat.add_1_r, <- app_assoc in Hrun2.
  exists s2. split; [done|].
  pose proof (within_batch_trans _ _ _ _ _ _ _ _ _ _ _ H1 H2) as H.
  rewrite callsFrom_app in H. exact H.
Qed.

Lemma notifyAll_within (from : origin) (q : queue) (s : state) :
  isBatchingUpdates s = true →
  wfQueue q →
  ∃ s', notifyAll flush from q s = Some (s', Returns tt)
        ∧ within_batch [] (callsFrom from (due (entries q)))
            (callbacksWeight (_callbacks q)) (length (entries q)) s s'.
Proof.
  intros HB Hwf. unfold notifyAll, wfQueue, entries, callbacksWeight in *.
  destruct (_callbacks q) as [callbacks|], (_contexts q) as [contexts|];
    try done; cbn [default from_option id].
  - destruct (notifyAll_loop_within from callbacks [] contexts s HB Hwf)
      as (s' & Hrun & H).
    exists s'. split; [done|]. by rewrite length_zip_with_l_eq.
  - exists s. split; [done|]. destruct from; by apply within_batch_refl.
Qed.

Lemma performUpdateIfNecessary_within (c batch : nat) (s : state) :
  isBatchingUpdates s = true →
  ∃ s', ReactReconciler_performUpdateIfNecessary flush c batch s
        = Some (s', Returns tt)
        ∧ within_batch [c] [] 0 0 s s'.
Proof.
  intros HB. unfold ReactReconciler_performUpdateIfNecessary. cbv zeta.
  pose proof (log_within (Reconciled c batch) s HB eq_refl) as H1.
  cbn [reconciled asapCalls] in H1.
  set (s1 := set_log (log s ++ [Reconciled c batch]) s) in *.
  pose proof (assignComponent_within c (set_updateBatchNumber None) 0 s1
                (proj1 H1) (λ _, eq_refl) (Nat.eq_le_incl _ _ (Nat.add_0_r _))) as H2.
  set (s2 := assignComponent c (set_updateBatchNumber None) s1) in *.
  pose proof (within_batch_trans _ _ _ _ _ _ _ _ _ _ _ H1 H2) as H12.
  destruct (updates (component_of s2 c)) as [|update rest] eqn:Hupdates.
  { exists s2. split; [done|]. exact H12. }
  assert (componentWeight (set_updates rest (component_of s2 c)) + actionsWeight update
          ≤ componentWeight (component_of s2 c)) as Hw.
  { unfold componentWeight. cbn [updates _pendingCallbacks set_updates].
    rewrite Hupdates. cbn [sum_list_with]. lia. }
  pose proof (assignComponent_within c (set_updates rest) _ s2 (proj1 H2)
                (λ _, eq_refl) Hw) as H3.
  destruct (runActions_within update _ (proj1 H3)) as (s' & Hrun & H4).
  exists s'. split; [done|].
  pose proof (within_batch_trans _ _ _ _ _ _ _ _ _ _ _ H12
                (within_batch_trans _ _ _ _ _ _ _ _ _ _ _ H3 H4)) as H.
  eapply within_batch_weaken; [exact H|lia].
Qed.

Lemma foldl_queue_enqueue (callbacks : list callback) (context : nat) (q : queue) :
  callbacksWeight (_callbacks (foldl (λ q cb, queue_enqueue cb context q) q callbacks))
  = callbacksWeight (_callbacks q) + sum_list_with callbackWeight callbacks
  ∧ (wfQueue q →
     wfQueue (foldl (λ q cb, queue_enqueue cb context q) q callbacks)).
Proof.
  revert q. induction callbacks as [|cb callbacks IH]; intros q; cbn [foldl].
  { cbn. split; [lia|done]. }
  destruct (IH (queue_enqueue cb context q)) as [Hw Hwf].
  rewrite Hw, callbacksWeight_enqueue. cbn [sum_list_with]. split; [lia|].
  intros Hq. by apply Hwf, entries_enqueue.
Qed.

Lemma runBatchedUpdates_loop_within (n i : nat) (tr : transaction) (s : state) :
  isBatchingUpdates s = true →
  i + n ≤ length (dirtyComponents s) →
  ∃ tr' s', runBatchedUpdates_loop flush n i tr s = Some (tr', s', Returns tt)
            ∧ within_batch (take n (drop i (dirtyComponents s))) []
                (callbacksWeight (_callbacks (callbackQueue tr)))
                (callbacksWeight (_callbacks (callbackQueue tr'))) s s'
            ∧ dirtyComponentsLength tr' = dirtyComponentsLength tr
            ∧ (wfQueue (callbackQueue tr) → wfQueue (callbackQueue tr')).
Proof.
  revert i tr s. induction n as [|n IH]; intros i tr s HB Hlen;
    cbn [runBatchedUpdates_loop].
  { exists tr, s. split_and!; [done| |done..].
    eapply within_batch_weaken; [by apply within_batch_refl|lia]. }
  destruct (lookup_lt_is_Some_2 (dirtyComponents s) i) as [c Hc]; [lia|].
  rewrite Hc. cbv zeta.
  set (callbacks := _pendingCallbacks (component_of s c)).
  pose proof (componentWeight_set_pendingCallbacks None (component_of s c)) as Hw.
  change (callbacksWeight None) with 0 in Hw. fold callbacks in Hw.
  pose proof (assignComponent_within c (set_pendingCallbacks None)
                (callbacksWeight callbacks) s HB (λ _, eq_refl)
                ltac:(lia)) as H1.
  clear Hw.
  set (s1 := assignComponent c (set_pendingCallbacks None) s) in *.
  destruct (performUpdateIfNecessary_within c (updateBatchNumber s1) s1 (proj1 H1))
    as (s2 & Hrun & H2).
  rewrite Hrun.
  pose proof (within_batch_trans _ _ _ _ _ _ _ _ _ _ _ H1 H2) as H12.
  destruct H12 as (HB2 & Hn2 & Hm2 & (more & Hd2) & Hp2 & Hevs2).
  match goal with |- context [runBatchedUpdates_loop flush n (S i) ?tr1 s2] =>
    destruct (IH (S i) tr1 s2) as (tr' & s' & Hrun' & H3 & Htr & Hwf);
    [done|rewrite Hd2, length_app; lia|];
    destruct (foldl_queue_enqueue (default [] callbacks) c (callbackQueue tr))
      as [Hw1 Hwf1]
  end.
  cbn [callbackQueue dirtyComponentsLength] in *.
  exists tr', s'. split_and!; [done| |done|by intros ?; apply Hwf, Hwf1].
  assert (take (S n) (drop i (dirtyComponents s))
          = [c] ++ take n (drop (S i) (dirtyComponents s2))) as ->.
  { rewrite Hd2, drop_app_le, take_app_le by (rewrite ?length_drop; lia).
    apply take_drop_middle in Hc. rewrite <- Hc at 1.
    rewrite drop_app_length'; [done|]. rewrite length_take. lia. }
  pose proof (within_batch_trans _ _ _ _ _ _ _ _ _ _ _
                (conj HB2 (conj Hn2 (conj Hm2 (conj (ex_intro _ more Hd2)
                   (conj Hp2 Hevs2))))) H3) as H.
  cbn [app] in H. eapply within_batch_weaken; [exact H|].
  fold (callbacksWeight callbacks) in Hw1. lia.
Qed.

(** *** The order of a pass *)

Lemma sortBy_mountOrder (s : state) (l : list nat) :
  sortBy (λ c1 c2, mountOrderComparator (component_of s c1) (component_of s c2)) l
  ≡ₚ l
  ∧ StronglySorted (byMountOrder s)
      (sortBy (λ c1 c2, mountOrderComparator (component_of s c1) (component_of s c2))
              l).
Proof.
  unfold sortBy.
  set (cmp := λ c1 c2, mountOrderComparator (component_of s c1) (component_of s c2)).
  split; [apply merge_sort_Permutation|].
  assert (∀ x y, sortsBefore cmp x y ↔ byMountOrder s x y) as Hiff.
  { intros x y. unfold cmp, sortsBefore, byMountOrder, mountOrderComparator. lia. }
  assert (StronglySorted (sortsBefore cmp)
            (@merge_sort nat (sortsBefore cmp) (sortsBefore_dec cmp) l)) as Hsorted.
  { apply StronglySorted_merge_sort.
    - intros x y z. rewrite !Hiff. unfold byMountOrder. lia.
    - intros x y. rewrite !Hiff. unfold byMountOrder. lia. }
  rewrite <- (list_fmap_id (merge_sort _ l)).
  apply (StronglySorted_fmap id (sortsBefore cmp)); [|exact Hsorted].
  intros x y. apply Hiff.
Qed.

Lemma StronglySorted_lookup {A} (R : relation A) (l : list A) (i j : nat) (x y : A) :
  StronglySorted R l → l !! i = Some x → l !! j = Some y → i < j → R x y.
Proof.
  intros Hl. revert i j. induction Hl as [|z l Hl IH Hz]; intros i j Hi Hj Hij; [done|].
  destruct i as [|i], j as [|j]; try lia; cbn in *.
  - injection Hi as <-. rewrite Forall_forall in Hz.
    by eapply Hz, list_elem_of_lookup_2.
  - eapply IH; [done..|lia].
Qed.

Lemma runBatchedUpdates_pass (tr : transaction) (s : state) :
  isBatchingUpdates s = true →
  dirtyComponentsLength tr = Some (length (dirtyComponents s)) →
  let sorted :=
    sortBy (λ c1 c2, mountOrderComparator (component_of s c1) (component_of s c2))
           (dirtyComponents s) in
  ∃ tr' s', runBatchedUpdates flush tr s = Some (tr', s', Returns tt)
            ∧ within_batch sorted []
                (callbacksWeight (_callbacks (callbackQueue tr)))
                (callbacksWeight (_callbacks (callbackQueue tr')))
                (set_updateBatchNumber_ (updateBatchNumber s + 1)
                   (set_dirtyComponents sorted s)) s'
            ∧ dirtyComponentsLength tr' = dirtyComponentsLength tr
            ∧ (wfQueue (callbackQueue tr) → wfQueue (callbackQueue tr')).
Proof.
  intros HB Htr sorted. unfold runBatchedUpdates. rewrite Htr. cbv zeta.
  cbn [default from_option id]. fold sorted.
  assert (length sorted = length (dirtyComponents s)) as Hlen
    by apply Permutation_length, sortBy_mountOrder.
  match goal with |- context [runBatchedUpdates_loop flush _ 0 tr ?s0] =>
    destruct (runBatchedUpdates_loop_within (length (dirtyComponents s)) 0 tr s0)
      as (tr' & s' & Hrun & H & Htr' & Hwf); [exact HB|cbn; lia|]
  end.
  exists tr', s'. split_and!; [done| |congruence|done].
  cbn [dirtyComponents set_updateBatchNumber_ set_dirtyComponents] in H.
  rewrite drop_0, <- Hlen, firstn_all in H. exact H.
Qed.

End Flush.

(** *** The parts of a flush *)

Lemma due_app (l1 l2 : list (callback * nat)) : due (l1 ++ l2) = due l1 ++ due l2.
Proof. apply fmap_app. Qed.

Lemma progress_refl (s : state) : batching s → progress 0 0 s s.
Proof.
  intros Hs. split_and!; [done|lia|]. exists []. rewrite app_nil_r.
  split; [done|]. unfold accounted. cbn. by rewrite app_nil_r.
Qed.

Lemma progress_trans pot1 pot2 gain1 gain2 s s1 s2 :
  progress pot1 gain1 s s1 → progress pot2 gain2 s1 s2 →
  progress (pot1 + pot2) (gain1 + gain2) s s2.
Proof.
  intros (_ & Hp1 & evs1 & Hl1 & Ha1) (Hs2 & Hp2 & evs2 & Hl2 & Ha2).
  split_and!; [done|lia|]. exists (evs1 ++ evs2).
  split; [by rewrite Hl2, Hl1, <- app_assoc|].
  unfold accounted in *.
  rewrite scheduled_app, asapCalls_app, due_app, <- !app_assoc, <- Ha2.
  by rewrite !app_assoc, Ha1.
Qed.

Lemma progress_weaken pot pot' gain gain' s s' :
  progress pot gain s s' → pot + gain' ≤ pot' + gain → progress pot' gain' s s'.
Proof. intros (Hs & Hp & Hevs) ?. split_and!; [done|lia|done]. Qed.

Lemma within_batch_progress recs pot gain s s' :
  batching s → within_batch recs [] pot gain s s' → progress pot gain s s'.
Proof.
  intros (_ & Hwf & Hq) (HB & _ & _ & _ & Hp & evs & Hl & _ & Hc & Hq' & Hf').
  destruct (Hq' Hwf) as [Hwf' He].
  split_and!; [split_and!; [done..|]|done|].
  - destruct Hf' as [?|[Hf' Hs]]; [by left|].
    destruct Hq as [?|Hq]; [left; congruence|].
    right. by rewrite He, Hq, Hs.
  - exists evs. split; [done|]. unfold accounted. by rewrite Hc, He, due_app.
Qed.

Lemma set_dirtyComponents_progress (l : list nat) (gain : nat) (s : state) :
  batching s → length l + gain ≤ length (dirtyComponents s) →
  progress 0 gain s (set_dirtyComponents l s).
Proof.
  intros Hs Hlen. split_and!; [done| |].
  - unfold potential.
    cbn [dirtyComponents components asapCallbackQueue asapEnqueued
         set_dirtyComponents]. lia.
  - exists []. rewrite app_nil_r. split; [done|]. unfold accounted. cbn.
    by rewrite app_nil_r.
Qed.

Lemma set_updateBatchNumber_progress (n : nat) (s : state) :
  batching s → progress 0 0 s (set_updateBatchNumber_ n s).
Proof.
  intros Hs. split_and!; [done|unfold potential; cbn; lia|].
  exists []. rewrite app_nil_r. split; [done|]. unfold accounted. cbn.
  by rewrite app_nil_r.
Qed.

(** The drain of the asap queue: the queue is taken and replaced by an
    empty one, and the flag is cleared, before the callbacks are called. *)
Lemma asap_drain_progress (flush : state → run) (s : state) :
  batching s →
  asapEnqueued s = true →
  ∃ s', notifyAll flush FromAsap (asapCallbackQueue s)
          (set_asapCallbackQueue emptyQueue (set_asapEnqueued false s))
        = Some (s', Returns tt)
        ∧ progress 0 1 s s'.
Proof.
  intros (HB & Hwf & _) Hflag.
  destruct (notifyAll_within flush FromAsap (asapCallbackQueue s)
              (set_asapCallbackQueue emptyQueue (set_asapEnqueued false s)) HB Hwf)
    as (s' & Hrun & HB' & _ & _ & _ & Hp & evs & Hl & _ & Hc & Hq' & Hf').
  exists s'. split; [done|]. destruct (Hq' I) as [Hwf' He]. cbn in He.
  split_and!; [split_and!; [done..|]| |].
  - destruct Hf' as [?|[_ Hs]]; [by left|]. right. by rewrite He, Hs.
  - revert Hp. unfold potential.
    cbn [dirtyComponents components asapCallbackQueue asapEnqueued
         set_asapCallbackQueue set_asapEnqueued]. rewrite Hflag.
    change (callbacksWeight (_callbacks emptyQueue)) with 0. lia.
  - exists evs. split; [done|]. unfold accounted. by rewrite Hc, He.
Qed.

Lemma perform_runBatchedUpdates_progress (flush flushAgain : state → run)
    (bound : nat) (s : state) :
  (∀ s0, batching s0 → potential s0 < bound →
         ∃ s', flushAgain s0 = Some (s', Returns tt) ∧ progress 0 0 s0 s') →
  batching s →
  dirtyComponents s ≠ [] →
  potential s ≤ bound →
  ∃ s', perform_runBatchedUpdates flush flushAgain s = Some (s', Returns tt)
        ∧ progress 0 1 s s'.
Proof.
  intros Hagain Hs Hdirty Hbound. unfold perform_runBatchedUpdates. cbv zeta.
  match goal with |- context [runBatchedUpdates flush ?tr0 s] =>
    destruct (runBatchedUpdates_pass flush tr0 s (proj1 Hs) eq_refl)
      as (tr & s1 & Hrun & H1 & Htr & Hwf)
  end.
  rewrite Hrun. cbn [andFinally]. rewrite Htr.
  cbn [dirtyComponentsLength default from_option id callbackQueue] in *.
  change (callbacksWeight (_callbacks (queue_reset emptyQueue))) with 0 in H1.
  specialize (Hwf I).
  set (sorted := sortBy _ (dirtyComponents s)) in *.
  assert (length sorted = length (dirtyComponents s)) as Hlen
    by apply Permutation_length, sortBy_mountOrder.
  assert (0 < length (dirtyComponents s)) as Hpos
    by (destruct (dirtyComponents s); [done|cbn; lia]).
  assert (progress 0 0 s
            (set_updateBatchNumber_ (updateBatchNumber s + 1)
               (set_dirtyComponents sorted s))) as H0.
  { apply (progress_trans 0 0 0 0 _ (set_dirtyComponents sorted s)).
    - apply set_dirtyComponents_progress; [done|lia].
    - by apply set_updateBatchNumber_progress. }
  pose proof (within_batch_progress _ _ _ _ _ (proj1 H0) H1) as H1'.
  pose proof (progress_trans _ _ _ _ _ _ _ H0 H1') as H01.
  destruct H1 as (_ & _ & _ & (more & Hd1) & _).
  cbn [dirtyComponents set_updateBatchNumber_ set_dirtyComponents] in Hd1.
  assert (length (dirtyComponents s) ≤ length (dirtyComponents s1)) as Hle
    by (rewrite Hd1, length_app; lia).
  assert (∃ s2, (if bool_decide (length (dirtyComponents s)
                                  ≠ length (dirtyComponents s1))
                 then flushAgain
                        (set_dirtyComponents
                           (drop (length (dirtyComponents s)) (dirtyComponents s1)) s1)
                 else done (set_dirtyComponents [] s1)) = Some (s2, Returns tt)
                ∧ progress 0 (length (dirtyComponents s)) s1 s2) as (s2 & Hrun2 & H2).
  { destruct (bool_decide _) eqn:Hb.
    - match goal with |- context [flushAgain ?s0] =>
        assert (progress 0 (length (dirtyComponents s)) s1 s0) as H2
          by (apply set_dirtyComponents_progress;
              [apply H01|rewrite length_drop; lia]);
        destruct (Hagain s0) as (s2 & Hrun2 & H3); [apply H2| |]
      end.
      { destruct H01 as (_ & Hp01 & _), H2 as (_ & Hp2 & _). lia. }
      exists s2. split; [done|].
      pose proof (progress_trans _ _ _ _ _ _ _ H2 H3) as H.
      eapply progress_weaken; [exact H|lia].
    - eexists. split; [reflexivity|].
      apply bool_decide_eq_false in Hb.
      apply set_dirtyComponents_progress; [apply H01|cbn; lia]. }
  rewrite Hrun2. cbn [andThen].
  destruct (notifyAll_within flush FromFlushTransaction (callbackQueue tr) s2
              (proj1 (proj1 H2)) Hwf) as (s3 & Hrun3 & H3).
  exists s3. split; [done|].
  pose proof (within_batch_progress _ _ _ _ _ (proj1 H2) H3) as H3'.
  pose proof (progress_trans _ _ _ _ _ _ _ H01
                (progress_trans _ _ _ _ _ _ _ H2 H3')) as H.
  eapply progress_weaken; [exact H|lia].
Qed.

(** The flush returns, with fuel above the potential. *)
Lemma flushBatchedUpdates_progress (fuel : nat) (s : state) :
  batching s →
  potential s < fuel →
  ∃ s', flushBatchedUpdates fuel s = Some (s', Returns tt)
        ∧ progress 0 0 s s'
        ∧ dirtyComponents s' = []
        ∧ asapEnqueued s' = false.
Proof.
  revert s. induction fuel as [|fuel IH]; intros s Hs Hfuel; [lia|].
  cbn [flushBatchedUpdates].
  destruct (bool_decide (dirtyComponents s ≠ [])) eqn:Hdirty;
    [apply bool_decide_eq_true in Hdirty|apply bool_decide_eq_false in Hdirty];
    cbn [orb].
  - destruct (perform_runBatchedUpdates_progress
                (flushBatchedUpdates fuel) (flushBatchedUpdates fuel) fuel s)
      as (s1 & Hrun1 & H1); [|done|done|lia|].
    { intros s0 Hs0 Hp0. destruct (IH s0 Hs0 Hp0) as (s' & ? & ? & _). eauto. }
    rewrite Hrun1. cbn [andThen].
    assert (∃ s2, (if asapEnqueued s1
                   then notifyAll (flushBatchedUpdates fuel) FromAsap
                          (asapCallbackQueue s1)
                          (set_asapCallbackQueue emptyQueue
                             (set_asapEnqueued false s1))
                   else done s1) = Some (s2, Returns tt)
                  ∧ progress 0 0 s1 s2) as (s2 & Hrun2 & H2).
    { destruct (asapEnqueued s1) eqn:Hflag.
      - destruct (asap_drain_progress (flushBatchedUpdates fuel) s1 (proj1 H1) Hflag)
          as (s2 & Hrun2 & H2).
        exists s2. split; [done|]. eapply progress_weaken; [exact H2|lia].
      - exists s1. split; [done|]. apply progress_refl, H1. }
    cbv zeta. cbn [asapCallbackQueue set_asapEnqueued]. rewrite Hrun2.
    cbn [andThen].
    pose proof (progress_trans _ _ _ _ _ _ _ H1 H2) as H12.
    destruct (IH s2) as (s3 & Hrun3 & H3 & Hd3 & Hf3); [apply H2| |].
    { destruct H12 as (_ & Hp & _). lia. }
    exists s3. split_and!; [done| |done..].
    pose proof (progress_trans _ _ _ _ _ _ _ H12 H3) as H.
    eapply progress_weaken; [exact H|lia].
  - apply dec_stable in Hdirty.
    destruct (asapEnqueued s) eqn:Hflag.
    + cbn [andThen done]. cbv zeta.
      destruct (asap_drain_progress (flushBatchedUpdates fuel) s Hs Hflag)
        as (s2 & Hrun2 & H2).
      rewrite Hflag. cbn [asapCallbackQueue set_asapEnqueued]. rewrite Hrun2.
      cbn [andThen].
      destruct (IH s2) as (s3 & Hrun3 & H3 & Hd3 & Hf3); [apply H2| |].
      { destruct H2 as (_ & Hp & _). lia. }
      exists s3. split_and!; [done| |done..].
      pose proof (progress_trans _ _ _ _ _ _ _ H2 H3) as H.
      eapply progress_weaken; [exact H|lia].
    + exists s. split_and!; [done|by apply progress_refl|done..].
Qed.

Lemma newLog_app (s s' : state) (evs : list event) :
  log s' = log s ++ evs → newLog s s' = evs.
Proof. intros H. unfold newLog. by rewrite H, drop_app_length. Qed.


(** *** What the user code passes to [asap] *)

Lemma scheduled_scheduling (pairs : list (callback * nat)) :
  scheduled (scheduling pairs) = pairs.
Proof.
  induction pairs as [|[cb context] pairs IH]; [done|].
  change (scheduling ((cb, context) :: pairs))
    with (AsapScheduled cb context :: scheduling pairs).
  cbn [scheduled]. by rewrite IH.
Qed.

Lemma requested_scheduling (pending : nat → list (list action))
    (pairs : list (callback * nat)) :
  requested pending (scheduling pairs) = [].
Proof. induction pairs as [|[cb context] pairs IH]; [done|]. exact IH. Qed.

Lemma remaining_scheduling (pending : nat → list (list action))
    (pairs : list (callback * nat)) :
  remaining pending (scheduling pairs) = pending.
Proof. induction pairs as [|[cb context] pairs IH]; [done|]. exact IH. Qed.

Lemma requested_ext (p p' : nat → list (list action)) (evs : list event) :
  (∀ c, p c = p' c) → requested p evs = requested p' evs.
Proof.
  revert p p'. induction evs as [|[c batch|cb context|from cb context] evs IH];
    intros p p' Hp; cbn [requested]; [done| |by apply IH|by f_equal; apply IH].
  rewrite Hp. f_equal. apply IH. intros c'.
  destruct (decide (c = c')) as [<-|Hne].
  - by rewrite !fn_lookup_insert.
  - by rewrite !fn_lookup_insert_ne.
Qed.

Lemma remaining_ext (p p' : nat → list (list action)) (evs : list event) :
  (∀ c, p c = p' c) → ∀ c, remaining p evs c = remaining p' evs c.
Proof.
  revert p p'. induction evs as [|[c batch|cb context|from cb context] evs IH];
    intros p p' Hp; cbn [remaining]; [done| |by apply IH..].
  apply IH. intros c'. rewrite Hp.
  destruct (decide (c = c')) as [<-|Hne].
  - by rewrite !fn_lookup_insert.
  - by rewrite !fn_lookup_insert_ne.
Qed.

Lemma requested_app (p : nat → list (list action)) (evs1 evs2 : list event) :
  requested p (evs1 ++ evs2)
  = requested p evs1 ++ requested (remaining p evs1) evs2.
Proof.
  revert p. induction evs1 as [|[c batch|cb context|from cb context] evs1 IH];
    intros p; cbn [app requested remaining]; [done| |done|].
  - by rewrite IH, app_assoc.
  - by rewrite IH, app_assoc.
Qed.

Lemma remaining_app (p : nat → list (list action)) (evs1 evs2 : list event) :
  remaining p (evs1 ++ evs2) = remaining (remaining p evs1) evs2.
Proof.
  revert p. induction evs1 as [|[c batch|cb context|from cb context] evs1 IH];
    intros p; cbn [app remaining]; done.
Qed.

Lemma traced_trans (s s1 s2 : state) : traced s s1 → traced s1 s2 → traced s s2.
Proof.
  intros (HB1 & evs1 & Hl1 & Hs1 & Hr1) (HB2 & evs2 & Hl2 & Hs2 & Hr2).
  split; [done|]. exists (evs1 ++ evs2). split_and!.
  - by rewrite Hl2, Hl1, <- app_assoc.
  - rewrite scheduled_app, requested_app, Hs1, Hs2. f_equal.
    by apply requested_ext.
  - intros c. rewrite remaining_app, Hr2. by apply remaining_ext.
Qed.

(** A step that leaves the log and the updates as they are. *)
Lemma traced_silent (s s' : state) :
  isBatchingUpdates s' = true →
  log s' = log s →
  (∀ c, pendingUpdates s' c = pendingUpdates s c) →
  traced s s'.
Proof.
  intros HB Hl Hp. split; [done|]. exists []. by rewrite app_nil_r.
Qed.

Lemma pendingUpdates_assignComponent (c c' : nat) (f : component → component)
    (s : state) :
  (∀ x, updates (f x) = updates x) →
  pendingUpdates (assignComponent c f s) c' = pendingUpdates s c'.
Proof.
  intros Hf. unfold pendingUpdates. rewrite component_of_assignComponent.
  destruct (decide (c = c')) as [<-|]; [apply Hf|done].
Qed.

Lemma enqueueUpdate_batching_silent (c : nat) (s : state) :
  isBatchingUpdates (enqueueUpdate_batching c s) = isBatchingUpdates s
  ∧ log (enqueueUpdate_batching c s) = log s
  ∧ ∀ c', pendingUpdates (enqueueUpdate_batching c s) c' = pendingUpdates s c'.
Proof.
  unfold enqueueUpdate_batching. cbv zeta.
  destruct (_updateBatchNumber _); [done|].
  split_and!; [done..|]. intros c'.
  by rewrite pendingUpdates_assignComponent.
Qed.

Section Traced.

Variable flush : state → run.

(** Within a batch, user code that calls the scheduler has [asap] note what
    it is passed, and nothing else is logged. *)
Lemma runActions_scheduling (body : list action) (s : state) :
  isBatchingUpdates s = true →
  ∃ s', runActions flush body s = Some (s', Returns tt)
        ∧ isBatchingUpdates s' = true
        ∧ log s' = log s ++ scheduling (asapsOf body)
        ∧ ∀ c, pendingUpdates s' c = pendingUpdates s c.
Proof.
  revert s. induction body as [|a body IH]; intros s HB; cbn [runActions].
  { exists s. by rewrite app_nil_r. }
  assert (∃ s1, runAction flush a s = Some (s1, Returns tt)
                ∧ isBatchingUpdates s1 = true
                ∧ log s1 = log s ++ scheduling (asapsOf [a])
                ∧ ∀ c, pendingUpdates s1 c = pendingUpdates s c)
    as (s1 & Hrun1 & HB1 & Hl1 & Hp1).
  { destruct a as [c|c cb|cb context]; cbn [runAction].
    - unfold enqueueUpdate. rewrite HB. cbn [negb].
      destruct (enqueueUpdate_batching_silent c s) as (? & ? & ?).
      eexists. split; [reflexivity|]. rewrite app_nil_r.
      split_and!; [congruence|done..].
    - unfold enqueueCallback, enqueueUpdate. cbv zeta.
      cbn [isBatchingUpdates assignComponent set_components]. rewrite HB.
      cbn [negb].
      match goal with |- context [enqueueUpdate_batching c ?s0] =>
        destruct (enqueueUpdate_batching_silent c s0) as (HB0 & Hl0 & Hp0)
      end.
      eexists. split; [reflexivity|]. rewrite app_nil_r.
      split_and!; [by rewrite HB0|by rewrite Hl0|].
      intros c'. rewrite Hp0. by apply pendingUpdates_assignComponent.
    - eexists. split; [reflexivity|]. done. }
  rewrite Hrun1. cbn [andThen].
  destruct (IH s1 HB1) as (s2 & Hrun2 & HB2 & Hl2 & Hp2).
  exists s2. split_and!; [done..| |].
  - rewrite Hl2, Hl1, <- app_assoc. f_equal.
    unfold scheduling, asapsOf. rewrite <- fmap_app. f_equal.
    by destruct a.
  - intros c. by rewrite Hp2.
Qed.

Lemma invoke_traced (from : origin) (cb : callback) (context : option nat)
    (s : state) :
  isBatchingUpdates s = true →
  ∃ s', invoke flush from cb context s = Some (s', Returns tt) ∧ traced s s'.
Proof.
  intros HB. unfold invoke.
  destruct (runActions_scheduling (body_of cb)
              (set_log (log s ++ [Called from cb context]) s) HB)
    as (s' & Hrun & HB' & Hl & Hp).
  exists s'. split; [done|]. split; [done|].
  exists (Called from cb context :: scheduling (asapsOf (body_of cb))).
  split_and!.
  - cbn [log set_log] in Hl. by rewrite Hl, <- app_assoc.
  - cbn [scheduled requested].
    by rewrite scheduled_scheduling, requested_scheduling, app_nil_r.
  - intros c. cbn [remaining]. by rewrite remaining_scheduling, Hp.
Qed.

Lemma notifyAll_loop_traced (from : origin) (callbacks : list callback)
    (contexts : list nat) (i : nat) (s : state) :
  isBatchingUpdates s = true →
  ∃ s', notifyAll_loop flush from callbacks contexts i s = Some (s', Returns tt)
        ∧ traced s s'.
Proof.
  revert i s. induction callbacks as [|cb callbacks IH]; intros i s HB;
    cbn [notifyAll_loop].
  { exists s. split; [done|]. by apply traced_silent. }
  destruct (invoke_traced from cb (contexts !! i) s HB) as (s1 & Hrun1 & H1).
  rewrite Hrun1. cbn [andThen].
  destruct (IH (S i) s1 (proj1 H1)) as (s2 & Hrun2 & H2).
  exists s2. split; [done|]. by eapply traced_trans.
Qed.

Lemma notifyAll_traced (from : origin) (q : queue) (s : state) :
  isBatchingUpdates s = true →
  ∃ s', notifyAll flush from q s = Some (s', Returns tt) ∧ traced s s'.
Proof.
  intros HB. unfold notifyAll.
  destruct (_callbacks q) as [callbacks|], (_contexts q) as [contexts|];
    try (exists s; split; [done|]; by apply traced_silent).
  by apply notifyAll_loop_traced.
Qed.

Lemma performUpdateIfNecessary_traced (c batch : nat) (s : state) :
  isBatchingUpdates s = true →
  ∃ s', ReactReconciler_performUpdateIfNecessary flush c batch s
        = Some (s', Returns tt)
        ∧ traced s s'.
Proof.
  intros HB. unfold ReactReconciler_performUpdateIfNecessary. cbv zeta.
  set (s1 := assignComponent c (set_updateBatchNumber None)
               (set_log (log s ++ [Reconciled c batch]) s)).
  assert (∀ c', pendingUpdates s1 c' = pendingUpdates s c') as Hp1.
  { intros c'. unfold s1. by rewrite pendingUpdates_assignComponent. }
  pose proof (Hp1 c) as Hc. unfold pendingUpdates at 1 in Hc.
  destruct (updates (component_of s1 c)) as [|update rest] eqn:Hupdates.
  - exists s1. split; [done|]. split; [done|].
    exists [Reconciled c batch]. split_and!; [done| |].
    + cbn [scheduled requested]. by rewrite <- Hc.
    + intros c'. cbn [remaining]. rewrite Hp1, <- Hc. cbn [tail].
      destruct (decide (c = c')) as [<-|Hne].
      * by rewrite fn_lookup_insert.
      * by rewrite fn_lookup_insert_ne.
  - destruct (runActions_scheduling update (assignComponent c (set_updates rest) s1) HB)
      as (s' & Hrun & HB' & Hl & Hp).
    exists s'. split; [done|]. split; [done|].
    exists (Reconciled c batch :: scheduling (asapsOf update)). split_and!.
    + cbn [log assignComponent set_components] in Hl. unfold s1 in Hl.
      cbn [log assignComponent set_components set_log] in Hl.
      by rewrite Hl, <- app_assoc.
    + cbn [scheduled requested]. rewrite <- Hc. cbn [head default from_option id].
      by rewrite scheduled_scheduling, requested_scheduling, app_nil_r.
    + intros c'. cbn [remaining]. rewrite remaining_scheduling, Hp, <- Hc.
      cbn [tail]. unfold pendingUpdates at 1.
      rewrite component_of_assignComponent.
      destruct (decide (c = c')) as [<-|Hne].
      * by rewrite fn_lookup_insert.
      * rewrite fn_lookup_insert_ne by done. apply Hp1.
Qed.

Lemma runBatchedUpdates_loop_traced (n i : nat) (tr tr' : transaction)
    (s s' : state) :
  isBatchingUpdates s = true →
  runBatchedUpdates_loop flush n i tr s = Some (tr', s', Returns tt) →
  traced s s'.
Proof.
  revert i tr s. induction n as [|n IH]; intros i tr s HB Hrun;
    cbn [runBatchedUpdates_loop] in Hrun.
  { injection Hrun as _ <-. by apply traced_silent. }
  destruct (dirtyComponents s !! i) as [c|]; [|done].
  set (s0 := assignComponent c (set_pendingCallbacks None) s) in *.
  assert (traced s s0) as H0.
  { apply traced_silent; [done..|]. intros c'.
    by apply pendingUpdates_assignComponent. }
  destruct (performUpdateIfNecessary_traced c (updateBatchNumber s0) s0 HB)
    as (s1 & Hrun1 & H1).
  rewrite Hrun1 in Hrun. apply IH in Hrun; [|apply H1].
  eapply traced_trans; [exact H0|]. by eapply traced_trans.
Qed.

Lemma runBatchedUpdates_traced (tr tr' : transaction) (s s' : state) :
  isBatchingUpdates s = true →
  runBatchedUpdates flush tr s = Some (tr', s', Returns tt) →
  traced s s'.
Proof.
  intros HB Hrun. unfold runBatchedUpdates in Hrun. cbv zeta in Hrun.
  apply runBatchedUpdates_loop_traced in Hrun; [|done].
  eapply traced_trans; [|exact Hrun]. by apply traced_silent.
Qed.

Lemma perform_runBatchedUpdates_traced (flushAgain : state → run) (s s' : state) :
  (∀ s0 s0', isBatchingUpdates s0 = true →
             flushAgain s0 = Some (s0', Returns tt) → traced s0 s0') →
  isBatchingUpdates s = true →
  perform_runBatchedUpdates flush flushAgain s = Some (s', Returns tt) →
  traced s s'.
Proof.
  intros Hagain HB Hrun. unfold perform_runBatchedUpdates in Hrun.
  cbv zeta in Hrun.
  match type of Hrun with context [runBatchedUpdates flush ?tr0 s] =>
    destruct (runBatchedUpdates flush tr0 s) as [[[tr s1] [[]|e]]|] eqn:Hpass
  end; [|cbn in Hrun; by repeat case_match|done].
  apply runBatchedUpdates_traced in Hpass; [|done].
  cbn [andFinally] in Hrun.
  match type of Hrun with andThen ?r _ = _ =>
    destruct r as [[s2 [[]|e]]|] eqn:Hclose; [|done..]
  end.
  cbn [andThen] in Hrun.
  assert (traced s1 s2) as H2.
  { destruct (bool_decide _).
    - eapply traced_trans; [|eapply Hagain; [|exact Hclose]; apply Hpass].
      apply traced_silent; [apply Hpass|done..].
    - injection Hclose as <-. apply traced_silent; [apply Hpass|done..]. }
  destruct (notifyAll_traced FromFlushTransaction (callbackQueue tr) s2 (proj1 H2))
    as (s3 & Hrun3 & H3).
  rewrite Hrun3 in Hrun. injection Hrun as <-.
  eapply traced_trans; [exact Hpass|]. by eapply traced_trans.
Qed.

End Traced.

(** The flush: what it logs as passed to [asap] is what the user code it
    ran passes to [asap]. *)
Lemma flushBatchedUpdates_traced (fuel : nat) (s s' : state) :
  isBatchingUpdates s = true →
  flushBatchedUpdates fuel s = Some (s', Returns tt) →
  traced s s'.
Proof.
  revert s s'. induction fuel as [|fuel IH]; intros s s' HB Hrun; [done|].
  cbn [flushBatchedUpdates] in Hrun.
  destruct (bool_decide (dirtyComponents s ≠ []) || asapEnqueued s);
    [|injection Hrun as <-; by apply traced_silent].
  match type of Hrun with andThen ?r _ = _ =>
    destruct r as [[s1 [[]|e]]|] eqn:Hrun1; [|done..]
  end.
  cbn [andThen] in Hrun.
  assert (traced s s1) as H1.
  { destruct (bool_decide (dirtyComponents s ≠ [])).
    - eapply perform_runBatchedUpdates_traced; [|done|exact Hrun1]. apply IH.
    - injection Hrun1 as <-. by apply traced_silent. }
  match type of Hrun with andThen ?r _ = _ =>
    destruct r as [[s2 [[]|e]]|] eqn:Hrun2; [|done..]
  end.
  cbn [andThen] in Hrun.
  assert (traced s1 s2) as H2.
  { destruct (asapEnqueued s1).
    - cbv zeta in Hrun2.
      match type of Hrun2 with notifyAll _ _ ?q ?s0 = _ =>
        destruct (notifyAll_traced (flushBatchedUpdates fuel) FromAsap q s0)
          as (s2' & Hrun2' & H2); [apply H1|]
      end.
      rewrite Hrun2 in Hrun2'. injection Hrun2' as <-.
      eapply traced_trans; [|exact H2]. apply traced_silent; [apply H1|done..].
    - injection Hrun2 as <-. apply traced_silent; [apply H1|done..]. }
  apply IH in Hrun; [|apply H2].
  eapply traced_trans; [exact H1|]. by eapply traced_trans.
Qed.




(** The flush of [asapPending]: the callback queued is called; what it
    passed to [asap] is called by the turn after the instance it marked
    dirty is reconciled, together with what that update passed to
    [asap]. *)
Example flush_asapPending_log :
  option_map (λ r, log r.1) (flushBatchedUpdates 9 asapPending)
  = Some [AsapScheduled (Callback 1 [Asap (Callback 2 []) 8; EnqueueUpdate 0]) 7;
          Called FromAsap (Callback 1 [Asap (Callback 2 []) 8; EnqueueUpdate 0])
            (Some 7);
          AsapScheduled (Callback 2 []) 8;
          Reconciled 0 1;
          AsapScheduled (Callback 3 []) 9;
          Called FromAsap (Callback 2 []) (Some 8);
          Called FromAsap (Callback 3 []) (Some 9)].
Proof. vm_compute. reflexivity. Qed.

(** In that flush the user code passes two callbacks to [asap]: the
    callback that was queued passes one, and the update of the instance it
    marked dirty another; the three are called, the queued one first. *)
Example flush_asapPending_requested :
  option_map (λ r, (requested (pendingUpdates asapPending) (newLog asapPending r.1),
                    asapCalls (newLog asapPending r.1)))
             (flushBatchedUpdates 9 asapPending)
  = Some ([(Callback 2 [], 8); (Callback 3 [], 9)],
          [(Callback 1 [Asap (Callback 2 []) 8; EnqueueUpdate 0], Some 7);
           (Callback 2 [], Some 8); (Callback 3 [], Some 9)]).
Proof. vm_compute. reflexivity. Qed.

(** C1.  A pass of the flush within a batch reconciles the dirty instances,
    all of them, in ascending [_mountOrder]; an instance that was mounted by
    [mountComponent] has a [_mountOrder] below that of every instance of the
    subtree it rendered; hence when [ca] and [cb] are dirty and are an
    ancestor [a] and one of its descendants [b], [ca] is reconciled before
    [cb]. *)
Theorem runBatchedUpdates_parents_first (flush : state → run) (tr : transaction)
    (s : state) (node : ReactCompositeComponent.element)
    (hostParent hostContainerInfo : option nat) (context : option objref)
    (w w' : ReactCompositeComponent.world) (root : ReactCompositeComponent.instance)
    (m : ReactCompositeComponent.markup) (a b : ReactCompositeComponent.composite)
    (ca cb : nat) :
  isBatchingUpdates s = true →
  dirtyComponentsLength tr = Some (length (dirtyComponents s)) →
  ReactCompositeComponent.mountComponent node hostParent hostContainerInfo context w
  = (root, w', Returns m) →
  CompositeSpec.in_tree root (ReactCompositeComponent.IComposite a) →
  CompositeSpec.descendant_of (ReactCompositeComponent.IComposite a)
                              (ReactCompositeComponent.IComposite b) →
  _mountOrder (component_of s ca) = ReactCompositeComponent._mountOrder a →
  _mountOrder (component_of s cb) = ReactCompositeComponent._mountOrder b →
  ca ∈ dirtyComponents s →
  cb ∈ dirtyComponents s →
  ∃ tr' s', runBatchedUpdates flush tr s = Some (tr', s', Returns tt)
            ∧ reconciled (newLog s s') ≡ₚ dirtyComponents s
            ∧ StronglySorted (byMountOrder s) (reconciled (newLog s s'))
            ∧ ReactCompositeComponent._mountOrder a
              < ReactCompositeComponent._mountOrder b
            ∧ precedes (reconciled (newLog s s')) ca cb
            ∧ ∃ i j, reconciled (newLog s s') !! i = Some ca
                     ∧ reconciled (newLog s s') !! j = Some cb
                     ∧ i < j.
Proof.
  intros HB Htr Hmount Ha Hab Hca Hcb Hdirtya Hdirtyb.
  destruct (runBatchedUpdates_pass flush tr s HB Htr)
    as (tr' & s' & Hrun & (_ & _ & _ & _ & _ & evs & Hl & Hr & _) & _).
  cbn [log set_updateBatchNumber_ set_dirtyComponents] in Hl.
  exists tr', s'. rewrite (newLog_app _ _ _ Hl), Hr.
  destruct (sortBy_mountOrder s (dirtyComponents s)) as [Hperm Hsorted].
  destruct (CompositeFacts.mountComponent_parentsFirst _ _ _ _ _ _ _ _ _ _
              Hmount Ha Hab) as (_ & Hlt & _).
  assert (precedes
            (sortBy (λ c1 c2, mountOrderComparator (component_of s c1)
                                (component_of s c2)) (dirtyComponents s))
            ca cb) as Hprec.
  { intros i j Hi Hj. destruct (decide (i < j)) as [|Hge]; [done|exfalso].
    destruct (decide (i = j)) as [->|Hne].
    - rewrite Hi in Hj. injection Hj as ->. lia.
    - pose proof (StronglySorted_lookup _ _ j i _ _ Hsorted Hj Hi ltac:(lia)) as Hle.
      unfold byMountOrder in Hle. lia. }
  split_and!; [done..|].
  rewrite <- Hperm in Hdirtya, Hdirtyb.
  apply list_elem_of_lookup_1 in Hdirtya as [i Hi], Hdirtyb as [j Hj].
  exists i, j. split_and!; [done..|]. by apply Hprec.
Qed.

Lemma runBatchedUpdates_parents_first_witness :
  ∃ tr' s', runBatchedUpdates (flushBatchedUpdates 0)
              {| dirtyComponentsLength := Some 2; callbackQueue := emptyQueue |}
              childFirst
            = Some (tr', s', Returns tt)
            ∧ reconciled (newLog childFirst s') ≡ₚ dirtyComponents childFirst
            ∧ StronglySorted (byMountOrder childFirst)
                (reconciled (newLog childFirst s'))
            ∧ ReactCompositeComponent._mountOrder Examples.mountedOuter
              < ReactCompositeComponent._mountOrder Examples.mountedOuterChild
            ∧ precedes (reconciled (newLog childFirst s')) 1 2
            ∧ ∃ i j, reconciled (newLog childFirst s') !! i = Some 1
                     ∧ reconciled (newLog childFirst s') !! j = Some 2
                     ∧ i < j.
Proof.
  apply (runBatchedUpdates_parents_first (flushBatchedUpdates 0)
           {| dirtyComponentsLength := Some 2; callbackQueue := emptyQueue |}
           childFirst
           (ReactCompositeComponent.EComposite 10 Examples.Outer None Examples.noProps)
           None None (Some emptyObject) ReactCompositeComponent.initialWorld
           Examples.worldOuter
           (ReactCompositeComponent.IComposite Examples.mountedOuter)
           (ReactCompositeComponent.MHost "div" [])
           Examples.mountedOuter Examples.mountedOuterChild 1 2).
  - reflexivity.
  - reflexivity.
  - vm_compute. reflexivity.
  - apply rtc_refl.
  - apply tc_once, CompositeSpec.child_rendered. reflexivity.
  - reflexivity.
  - reflexivity.
  - apply (bool_decide_unpack _). vm_compute. exact I.
  - apply (bool_decide_unpack _). vm_compute. exact I.
Defined.

End ReactUpdatesFacts.

(* ================================================================== *)
(** ** More facts about CallbackQueue *)
(* ================================================================== *)

Module CallbackQueueLaws.
Import CallbackQueue CallbackQueueSpec CallbackQueueFacts.

Lemma holds_enqueue (s : state) (entries : list (callback * nat)) (cb : callback)
    (context : nat) :
  holds s entries → holds (enqueue cb context s) (entries ++ [(cb, context)]).
Proof.
  unfold holds, enqueue.
  destruct s as [[c x arg] carrays xarrays cs]; cbn.
  destruct c as [c|], x as [x|]; try done; cbn.
  - intros [Hc Hx]. unfold array. cbn. rewrite Hc, Hx. cbn.
    rewrite !fmap_app. cbn. split; simplify_map_eq; done.
  - intros ->. unfold array. cbn. split; simplify_map_eq; done.
Qed.

Lemma holds_checkpoint (s : state) (entries : list (callback * nat)) :
  holds s entries → checkpoint s = length entries.
Proof.
  unfold holds, checkpoint, array.
  destruct (_callbacks (this s)) as [c|], (_contexts (this s)) as [x|]; try done.
  - intros [-> _]. cbn. by rewrite length_fmap.
  - by intros ->.
Qed.

Lemma set_length_take {A} (n : nat) (l : list (option A)) :
  n ≤ length l → set_length n l = take n l.
Proof.
  intros Hn. unfold set_length.
  replace (n - length l) with 0 by lia. cbn. by rewrite app_nil_r.
Qed.

Lemma holds_rollback (s : state) (entries : list (callback * nat)) (n : nat) :
  holds s entries → n ≤ length entries → holds (rollback n s) (take n entries).
Proof.
  unfold holds, rollback, array.
  destruct s as [[[c|] [x|] arg] carrays xarrays cs]; try done; cbn.
  - intros [Hcs Hxs] Hn. rewrite Hcs, Hxs. cbn.
    rewrite !set_length_take by (by rewrite length_fmap).
    rewrite !fmap_take. split; simplify_map_eq; done.
  - intros -> _. by rewrite take_nil.
Qed.

(** [enqueue] puts the pair at the end of what the queue holds, the
    callback and its context at one index, whether or not the queue had
    arrays; it calls nothing, and the next [checkpoint] is one more. *)
Theorem enqueue_appends (s : state) (entries : list (callback * nat))
    (cb : callback) (context : nat) :
  holds s entries →
  holds (enqueue cb context s) (entries ++ [(cb, context)])
  ∧ checkpoint (enqueue cb context s) = S (checkpoint s)
  ∧ calls (enqueue cb context s) = calls s
  ∧ _arg (this (enqueue cb context s)) = _arg (this s).
Proof.
  intros Hs. pose proof (holds_enqueue s entries cb context Hs) as Hs'.
  split_and!; [done| | |].
  - rewrite (holds_checkpoint _ _ Hs'), (holds_checkpoint _ _ Hs), length_app.
    cbn. lia.
  - unfold enqueue. by repeat case_match.
  - unfold enqueue. destruct s as [[[c|] [x|] arg] ? ? ?]; reflexivity.
Qed.

Lemma enqueue_appends_witness :
  holds (enqueue (Callback 2 []) 7 reentrantQueue)
        ([(Callback 1 [Enqueue (Callback 2 []) 7], 5)] ++ [(Callback 2 [], 7)])
  ∧ checkpoint (enqueue (Callback 2 []) 7 reentrantQueue)
    = S (checkpoint reentrantQueue)
  ∧ calls (enqueue (Callback 2 []) 7 reentrantQueue) = calls reentrantQueue
  ∧ _arg (this (enqueue (Callback 2 []) 7 reentrantQueue))
    = _arg (this reentrantQueue).
Proof.
  apply (enqueue_appends reentrantQueue
           [(Callback 1 [Enqueue (Callback 2 []) 7], 5)] (Callback 2 []) 7).
  vm_compute. split; reflexivity.
Defined.

(** [rollback(len)] with [len] within the length keeps the first [len]
    pairs and drops the rest, and [checkpoint] then gives [len]. *)
Theorem rollback_truncates (s : state) (entries : list (callback * nat)) (len : nat) :
  holds s entries →
  len ≤ length entries →
  holds (rollback len s) (take len entries)
  ∧ checkpoint (rollback len s) = len
  ∧ calls (rollback len s) = calls s.
Proof.
  intros Hs Hlen. pose proof (holds_rollback s entries len Hs Hlen) as Hs'.
  split_and!; [done| |].
  - rewrite (holds_checkpoint _ _ Hs'), length_take. lia.
  - unfold rollback. by repeat case_match.
Qed.

Lemma rollback_truncates_witness :
  holds (rollback 1 (enqueue (Callback 2 []) 7 reentrantQueue))
        (take 1 [(Callback 1 [Enqueue (Callback 2 []) 7], 5); (Callback 2 [], 7)])
  ∧ checkpoint (rollback 1 (enqueue (Callback 2 []) 7 reentrantQueue)) = 1
  ∧ calls (rollback 1 (enqueue (Callback 2 []) 7 reentrantQueue))
    = calls (enqueue (Callback 2 []) 7 reentrantQueue).
Proof.
  apply (rollback_truncates (enqueue (Callback 2 []) 7 reentrantQueue)
           [(Callback 1 [Enqueue (Callback 2 []) 7], 5); (Callback 2 [], 7)] 1).
  - vm_compute. split; reflexivity.
  - simpl. lia.
Defined.

(** What was enqueued since a checkpoint is what a rollback to it
    discards: after [n = checkpoint()], any number of [enqueue]s and
    [rollback(n)], the queue holds what it held at the checkpoint. *)
Theorem rollback_checkpoint (s : state) (entries more : list (callback * nat)) :
  holds s entries →
  checkpoint s = length entries
  ∧ holds (rollback (checkpoint s) (foldl (λ s e, enqueue e.1 e.2 s) s more))
          entries.
Proof.
  intros Hs. split; [by apply holds_checkpoint|].
  assert (holds (foldl (λ s e, enqueue e.1 e.2 s) s more) (entries ++ more)) as Hmore.
  { revert s entries Hs. induction more as [|[cb context] more IH]; intros s entries Hs.
    - by rewrite app_nil_r.
    - cbn [foldl fst snd].
      replace (entries ++ (cb, context) :: more)
        with ((entries ++ [(cb, context)]) ++ more) by (by rewrite <- app_assoc).
      by apply IH, holds_enqueue. }
  rewrite (holds_checkpoint _ _ Hs).
  pose proof (holds_rollback _ _ (length entries) Hmore) as H.
  rewrite take_app_length in H. apply H. rewrite length_app. lia.
Qed.

Lemma rollback_checkpoint_witness :
  checkpoint reentrantQueue
  = length [(Callback 1 [Enqueue (Callback 2 []) 7], 5)]
  ∧ holds (rollback (checkpoint reentrantQueue)
             (foldl (λ s e, enqueue e.1 e.2 s) reentrantQueue
                    [(Callback 2 [], 7); (Callback 3 [], 8)]))
          [(Callback 1 [Enqueue (Callback 2 []) 7], 5)].
Proof.
  apply (rollback_checkpoint reentrantQueue
           [(Callback 1 [Enqueue (Callback 2 []) 7], 5)]
           [(Callback 2 [], 7); (Callback 3 [], 8)]).
  vm_compute. split; reflexivity.
Defined.

(** *** One drain after another *)

Lemma notifyAll_run (s : state) (entries : list (callback * nat)) (fuel : nat) :
  holds s entries →
  length entries < fuel →
  ∃ s', notifyAll fuel s = Some (s', Returns tt)
        ∧ calls s' = calls s ++ callsOf (_arg (this s)) entries
        ∧ holds s' (reentrant entries)
        ∧ _arg (this s') = _arg (this s).
Proof.
  intros Hholds Hfuel. unfold notifyAll, holds in *.
  destruct (_callbacks (this s)) as [callbacks|] eqn:Hc,
           (_contexts (this s)) as [contexts|] eqn:Hx; try done.
  2:{ subst entries. exists s. unfold callsOf, reentrant, holds.
      rewrite Hc, Hx. cbn. rewrite app_nil_r. done. }
  destruct Hholds as [Hcbs Hctxs].
  match goal with |- context [notifyAll_loop fuel callbacks contexts ?arg 0 ?s0] =>
    destruct (notifyAll_loop_draining callbacks contexts arg entries [] s0 [] fuel)
      as (s1 & Hrun & (Hcbs1 & Hctxs1 & Hholds1 & Hc1 & Hx1) & Hcalls & Harg);
      [by split_and!|done|]
  end.
  cbn [length] in Hrun. rewrite Hrun.
  eexists. split; [reflexivity|]. cbn. unfold holds in *.
  split_and!; [done| |done].
  by destruct (_callbacks (this s1)), (_contexts (this s1)); simplify_map_eq.
Qed.

(** What the callbacks of a drain enqueue is what the next drain calls,
    with the same argument and in the order it was enqueued, after
    everything the first drain called; what those enqueue in turn is left
    for a third. *)
Theorem notifyAll_next_drain (s : state) (entries : list (callback * nat))
    (fuel : nat) :
  holds s entries →
  length entries < fuel →
  length (reentrant entries) < fuel →
  ∃ s1 s2, notifyAll fuel s = Some (s1, Returns tt)
           ∧ notifyAll fuel s1 = Some (s2, Returns tt)
           ∧ calls s2 = calls s ++ callsOf (_arg (this s)) entries
                        ++ callsOf (_arg (this s)) (reentrant entries)
           ∧ holds s2 (reentrant (reentrant entries)).
Proof.
  intros Hs Hfuel1 Hfuel2.
  destruct (notifyAll_run s entries fuel Hs Hfuel1) as (s1 & Hrun1 & Hc1 & Hs1 & Ha1).
  destruct (notifyAll_run s1 _ fuel Hs1 Hfuel2) as (s2 & Hrun2 & Hc2 & Hs2 & Ha2).
  exists s1, s2. split_and!; [done..| |done].
  by rewrite Hc2, Hc1, Ha1, <- app_assoc.
Qed.

Lemma notifyAll_next_drain_witness :
  ∃ s1 s2, notifyAll 2 reentrantQueue = Some (s1, Returns tt)
           ∧ notifyAll 2 s1 = Some (s2, Returns tt)
           ∧ calls s2
             = calls reentrantQueue
               ++ callsOf (_arg (this reentrantQueue))
                    [(Callback 1 [Enqueue (Callback 2 []) 7], 5)]
               ++ callsOf (_arg (this reentrantQueue))
                    (reentrant [(Callback 1 [Enqueue (Callback 2 []) 7], 5)])
           ∧ holds s2 (reentrant
                         (reentrant [(Callback 1 [Enqueue (Callback 2 []) 7], 5)])).
Proof.
  apply (notifyAll_next_drain reentrantQueue
           [(Callback 1 [Enqueue (Callback 2 []) 7], 5)] 2).
  - vm_compute. split; reflexivity.
  - simpl. lia.
  - vm_compute. lia.
Defined.

(** *** A rollback beyond the length *)

Lemma enqueue_drainingArrays callbacks contexts la lx s pending cb context :
  drainingArrays callbacks contexts la lx s pending →
  drainingArrays callbacks contexts la lx (enqueue cb context s)
                 (pending ++ [(cb, context)])
  ∧ calls (enqueue cb context s) = calls s
  ∧ _arg (this (enqueue cb context s)) = _arg (this s).
Proof.
  intros (Hcbs & Hctxs & Hholds & Hc & Hx). unfold holds in Hholds.
  unfold drainingArrays, enqueue, holds.
  destruct s as [[c x arg] carrays xarrays cs]; cbn in *.
  destruct c as [c|], x as [x|]; try done; cbn.
  - destruct Hholds as [Hpc Hpx]. unfold array. cbn. rewrite Hpc, Hpx. cbn.
    rewrite !fmap_app. cbn.
    split_and!; try done; simplify_map_eq; done.
  - subst pending. unfold array. cbn.
    assert (fresh (dom carrays) ≠ callbacks) as Hfc.
    { intros Heq. apply (is_fresh (dom carrays)). rewrite Heq.
      apply elem_of_dom. eauto. }
    assert (fresh (dom xarrays) ≠ contexts) as Hfx.
    { intros Heq. apply (is_fresh (dom xarrays)). rewrite Heq.
      apply elem_of_dom. eauto. }
    split_and!; try done; simplify_map_eq; try done; try congruence.
Qed.

Lemma invoke_drainingArrays callbacks contexts la lx s pending cb context arg :
  drainingArrays callbacks contexts la lx s pending →
  drainingArrays callbacks contexts la lx (invoke cb context arg s)
                 (pending ++ enqueued_by cb)
  ∧ calls (invoke cb context arg s) = calls s ++ [Called (name_of cb) context arg]
  ∧ _arg (this (invoke cb context arg s)) = _arg (this s).
Proof.
  intros Hs. unfold invoke, enqueued_by.
  assert (∀ body s0 pending0,
            drainingArrays callbacks contexts la lx s0 pending0 →
            let s1 := foldl (λ s a, match a with
                                    | Enqueue cb' context' => enqueue cb' context' s
                                    end) s0 body in
            drainingArrays callbacks contexts la lx s1
              (pending0
               ++ ((λ a, match a with Enqueue cb' context' => (cb', context') end)
                   <$> body))
            ∧ calls s1 = calls s0 ∧ _arg (this s1) = _arg (this s0)) as Hbody.
  { clear. induction body as [|[cb' context'] body IH]; intros s0 pending0 Hs0.
    - cbn. by rewrite app_nil_r.
    - cbn [foldl fmap list_fmap].
      destruct (enqueue_drainingArrays _ _ _ _ _ _ cb' context' Hs0)
        as (Hs1 & Hc1 & Ha1).
      destruct (IH _ _ Hs1) as (Hs2 & Hc2 & Ha2). cbv zeta in *.
      rewrite <- app_assoc in Hs2. split_and!; [done|congruence..]. }
  apply (Hbody (body_of cb)
           (set_calls (calls s ++ [Called (name_of cb) context arg]) s) pending).
  exact Hs.
Qed.

(** The loop over arrays that end in holes: it calls what comes before the
    holes and throws at the first hole. *)
Lemma notifyAll_loop_holes callbacks contexts arg (todo called : list (callback * nat))
    (pad : nat) (s : state) (pending : list (callback * nat)) (fuel : nat) :
  drainingArrays callbacks contexts
    ((Some ∘ fst <$> called ++ todo) ++ replicate (S pad) None)
    ((Some ∘ snd <$> called ++ todo) ++ replicate (S pad) None) s pending →
  length todo < fuel →
  ∃ s', notifyAll_loop fuel callbacks contexts arg (length called) s
        = Some (s', Throws (TypeError "Cannot read property 'call' of undefined"))
        ∧ calls s' = calls s
                     ++ ((λ e, Called (name_of e.1) (Some e.2) arg) <$> todo)
        ∧ drainingArrays callbacks contexts
            ((Some ∘ fst <$> called ++ todo) ++ replicate (S pad) None)
            ((Some ∘ snd <$> called ++ todo) ++ replicate (S pad) None) s'
            (pending ++ (todo ≫= enqueued_by ∘ fst)).
Proof.
  revert called s pending fuel.
  induction todo as [|[cb context] todo IH]; intros called s pending fuel Hs Hfuel;
    (destruct fuel as [|fuel]; [cbn in Hfuel; lia|]);
    pose proof Hs as (Hcbs & Hctxs & Hholds & _); cbn [notifyAll_loop]; unfold array;
    rewrite Hcbs, Hctxs; cbn [default from_option id];
    rewrite !length_app, !length_fmap, !length_app, length_replicate.
  - rewrite bool_decide_eq_true_2 by (cbn; lia).
    rewrite lookup_app_r by (rewrite length_fmap, length_app; cbn; lia).
    rewrite length_fmap, length_app. cbn [length]. rewrite Nat.add_0_r, Nat.sub_diag.
    cbn. exists s. rewrite !app_nil_r. rewrite app_nil_r in Hs. done.
  - rewrite bool_decide_eq_true_2 by (cbn; lia).
    rewrite !lookup_app_l by (rewrite length_fmap, length_app; cbn; lia).
    rewrite !list_lookup_fmap, !lookup_app_r, Nat.sub_diag by lia. cbn.
    destruct (invoke_drainingArrays _ _ _ _ _ _ cb (Some context) arg Hs)
      as (Hs1 & Hc1 & Ha1).
    replace (called ++ (cb, context) :: todo)
      with ((called ++ [(cb, context)]) ++ todo) in * by (by rewrite <- app_assoc).
    destruct (IH (called ++ [(cb, context)]) _ _ fuel Hs1) as (s' & Hrun & Hc' & Hs');
      [cbn in Hfuel; lia|].
    rewrite length_app, Nat.add_1_r in Hrun.
    exists s'. split_and!; [done| |].
    + rewrite Hc', Hc1, <- app_assoc. done.
    + rewrite <- (app_assoc pending) in Hs'. exact Hs'.
Qed.

(** [rollback(len)] with [len] above the length does not keep the queue as
    it is: it leaves holes at the end of both arrays, and the next
    [notifyAll] calls the entries and then throws a [TypeError] at the first
    hole; the arrays are not emptied, and what the callbacks enqueued is
    what the queue holds. *)
Theorem rollback_beyond_length (s : state) (entries : list (callback * nat))
    (len fuel : nat) (callbacks : nat) :
  holds s entries →
  _callbacks (this s) = Some callbacks →
  length entries < len →
  length entries < fuel →
  ∃ s', notifyAll fuel (rollback len s)
        = Some (s', Throws (TypeError "Cannot read property 'call' of undefined"))
        ∧ calls s' = calls s ++ callsOf (_arg (this s)) entries
        ∧ holds s' (reentrant entries)
        ∧ length (array (callbackArrays s') callbacks) = len.
Proof.
  intros Hs Hc Hlen Hfuel. unfold holds in Hs. rewrite Hc in Hs.
  destruct (_contexts (this s)) as [contexts|] eqn:Hx; [|done].
  destruct Hs as [Hcbs Hctxs].
  assert (∀ {A} (l : list (option A)), length l < len →
            set_length len l = l ++ replicate (S (len - S (length l))) None) as Hset.
  { intros A l Hl. unfold set_length. rewrite take_ge by lia.
    f_equal. f_equal. lia. }
  unfold notifyAll, rollback. rewrite Hc, Hx. cbn. rewrite Hc, Hx.
  match goal with |- context [notifyAll_loop fuel callbacks contexts ?arg 0 ?s0] =>
    destruct (notifyAll_loop_holes callbacks contexts arg entries []
                (len - S (length entries)) s0 [] fuel)
      as (s1 & Hrun & Hcalls & Hcbs1 & _ & Hholds1 & _); [|done|]
  end.
  { unfold array. rewrite Hcbs, Hctxs. cbn [default from_option id app].
    rewrite !Hset by (by rewrite length_fmap). rewrite !length_fmap.
    split_and!; cbn; simplify_map_eq; done. }
  cbn [length] in Hrun. rewrite Hrun.
  exists s1. split_and!; [done..|].
  unfold array. rewrite Hcbs1. cbn [default from_option id app].
  rewrite length_app, length_replicate, length_fmap. lia.
Qed.

Lemma rollback_beyond_length_witness :
  ∃ s', notifyAll 2 (rollback 3 reentrantQueue)
        = Some (s', Throws (TypeError "Cannot read property 'call' of undefined"))
        ∧ calls s' = calls reentrantQueue
                     ++ callsOf (_arg (this reentrantQueue))
                          [(Callback 1 [Enqueue (Callback 2 []) 7], 5)]
        ∧ holds s' (reentrant [(Callback 1 [Enqueue (Callback 2 []) 7], 5)])
        ∧ length (array (callbackArrays s') 0) = 3.
Proof.
  apply (rollback_beyond_length reentrantQueue
           [(Callback 1 [Enqueue (Callback 2 []) 7], 5)] 3 2 0).
  - vm_compute. split; reflexivity.
  - reflexivity.
  - simpl. lia.
  - simpl. lia.
Defined.

End CallbackQueueLaws.

(* ================================================================== *)
(** ** More facts about ReactUpdates *)
(* ================================================================== *)

Module ReactUpdatesLaws.
Import ReactUpdates ReactUpdatesSpec ReactUpdatesFacts.

(** Within a batch [enqueueUpdate] only records the instance: it goes to
    the end of [dirtyComponents], nothing is reconciled or called, and the
    instance gets the number of the coming batch unless it already has
    one; no other instance is touched. *)
Theorem enqueueUpdate_in_batch (flush : state → run) (c : nat) (s : state) :
  isBatchingUpdates s = true →
  ∃ s', enqueueUpdate flush c s = Some (s', Returns tt)
        ∧ dirtyComponents s' = dirtyComponents s ++ [c]
        ∧ log s' = log s
        ∧ updateBatchNumber s' = updateBatchNumber s
        ∧ _updateBatchNumber (component_of s' c)
          = Some (default (updateBatchNumber s + 1)
                          (_updateBatchNumber (component_of s c)))
        ∧ ∀ c', c' ≠ c → component_of s' c' = component_of s c'.
Proof.
  intros HB. unfold enqueueUpdate. rewrite HB. cbn [negb].
  eexists. split; [reflexivity|]. unfold enqueueUpdate_batching. cbv zeta.
  change (component_of (set_dirtyComponents (dirtyComponents s ++ [c]) s) c)
    with (component_of s c).
  destruct (_updateBatchNumber (component_of s c)) as [n|] eqn:Hn.
  - split_and!; [done..| |done].
    change (component_of (set_dirtyComponents (dirtyComponents s ++ [c]) s) c)
      with (component_of s c). by rewrite Hn.
  - split_and!; [done..| |].
    + rewrite component_of_assignComponent. by rewrite decide_True.
    + intros c' Hc'. rewrite component_of_assignComponent.
      by rewrite decide_False.
Qed.

Lemma enqueueUpdate_in_batch_witness :
  ∃ s', enqueueUpdate (flushBatchedUpdates 0) 1 childFirst = Some (s', Returns tt)
        ∧ dirtyComponents s' = dirtyComponents childFirst ++ [1]
        ∧ log s' = log childFirst
        ∧ updateBatchNumber s' = updateBatchNumber childFirst
        ∧ _updateBatchNumber (component_of s' 1)
          = Some (default (updateBatchNumber childFirst + 1)
                          (_updateBatchNumber (component_of childFirst 1)))
        ∧ ∀ c', c' ≠ 1 → component_of s' c' = component_of childFirst c'.
Proof.
  apply (enqueueUpdate_in_batch (flushBatchedUpdates 0) 1 childFirst).
  reflexivity.
Defined.

Lemma dirtyComponents_enqueueUpdate_batching (c : nat) (s : state) :
  dirtyComponents (enqueueUpdate_batching c s) = dirtyComponents s ++ [c].
Proof. unfold enqueueUpdate_batching. cbv zeta. by destruct (_updateBatchNumber _). Qed.

(** The transaction of a pass, with what the pass logged set apart. *)
Lemma perform_runBatchedUpdates_reconciles (flush flushAgain : state → run)
    (bound : nat) (s : state) :
  (∀ s0, batching s0 → potential s0 < bound →
         ∃ s', flushAgain s0 = Some (s', Returns tt) ∧ progress 0 0 s0 s') →
  batching s →
  dirtyComponents s ≠ [] →
  potential s ≤ bound →
  ∃ s' evs rest, perform_runBatchedUpdates flush flushAgain s = Some (s', Returns tt)
                 ∧ log s' = log s ++ evs ++ rest
                 ∧ reconciled evs ≡ₚ dirtyComponents s
                 ∧ asapCalls evs = [].
Proof.
  intros Hagain Hs Hdirty Hbound. unfold perform_runBatchedUpdates. cbv zeta.
  match goal with |- context [runBatchedUpdates flush ?tr0 s] =>
    destruct (runBatchedUpdates_pass flush tr0 s (proj1 Hs) eq_refl)
      as (tr & s1 & Hrun & H1 & Htr & Hwf)
  end.
  rewrite Hrun. cbn [andFinally]. rewrite Htr.
  cbn [dirtyComponentsLength default from_option id callbackQueue] in *.
  change (callbacksWeight (_callbacks (queue_reset emptyQueue))) with 0 in H1.
  specialize (Hwf I).
  set (sorted := sortBy _ (dirtyComponents s)) in *.
  assert (length sorted = length (dirtyComponents s)) as Hlen
    by apply Permutation_length, sortBy_mountOrder.
  assert (0 < length (dirtyComponents s)) as Hpos
    by (destruct (dirtyComponents s); [done|cbn; lia]).
  assert (progress 0 0 s
            (set_updateBatchNumber_ (updateBatchNumber s + 1)
               (set_dirtyComponents sorted s))) as H0.
  { apply (progress_trans 0 0 0 0 _ (set_dirtyComponents sorted s)).
    - apply set_dirtyComponents_progress; [done|lia].
    - by apply set_updateBatchNumber_progress. }
  pose proof (within_batch_progress _ _ _ _ _ (proj1 H0) H1) as H1'.
  pose proof (progress_trans _ _ _ _ _ _ _ H0 H1') as H01.
  destruct H1 as (_ & _ & _ & (more & Hd1) & _ & evs & Hl1 & Hr1 & Hc1 & _).
  cbn [dirtyComponents log set_updateBatchNumber_ set_dirtyComponents] in Hd1, Hl1.
  assert (length (dirtyComponents s) ≤ length (dirtyComponents s1)) as Hle
    by (rewrite Hd1, length_app; lia).
  assert (∃ s2, (if bool_decide (length (dirtyComponents s)
                                  ≠ length (dirtyComponents s1))
                 then flushAgain
                        (set_dirtyComponents
                           (drop (length (dirtyComponents s)) (dirtyComponents s1)) s1)
                 else done (set_dirtyComponents [] s1)) = Some (s2, Returns tt)
                ∧ progress 0 (length (dirtyComponents s)) s1 s2) as (s2 & Hrun2 & H2).
  { destruct (bool_decide _) eqn:Hb.
    - match goal with |- context [flushAgain ?s0] =>
        assert (progress 0 (length (dirtyComponents s)) s1 s0) as H2
          by (apply set_dirtyComponents_progress;
              [apply H01|rewrite length_drop; lia]);
        destruct (Hagain s0) as (s2 & Hrun2 & H3); [apply H2| |]
      end.
      { destruct H01 as (_ & Hp01 & _), H2 as (_ & Hp2 & _). lia. }
      exists s2. split; [done|].
      pose proof (progress_trans _ _ _ _ _ _ _ H2 H3) as H.
      eapply progress_weaken; [exact H|lia].
    - eexists. split; [reflexivity|].
      apply bool_decide_eq_false in Hb.
      apply set_dirtyComponents_progress; [apply H01|cbn; lia]. }
  rewrite Hrun2. cbn [andThen].
  destruct (notifyAll_within flush FromFlushTransaction (callbackQueue tr) s2
              (proj1 (proj1 H2)) Hwf) as (s3 & Hrun3 & H3).
  destruct H2 as (_ & _ & evs2 & Hl2 & _).
  destruct H3 as (_ & _ & _ & _ & _ & evs3 & Hl3 & _).
  exists s3, evs, (evs2 ++ evs3). split_and!; [done| | |done].
  - by rewrite Hl3, Hl2, Hl1, <- !app_assoc.
  - rewrite Hr1. apply sortBy_mountOrder.
Qed.

(** Every instance that is dirty when the flush begins is reconciled by
    it. *)
Lemma flushBatchedUpdates_reconciles (fuel : nat) (s : state) :
  batching s →
  potential s < fuel →
  ∃ s' evs, flushBatchedUpdates fuel s = Some (s', Returns tt)
            ∧ log s' = log s ++ evs
            ∧ (∀ c, c ∈ dirtyComponents s → c ∈ reconciled evs)
            ∧ batching s'
            ∧ dirtyComponents s' = []
            ∧ asapEnqueued s' = false
            ∧ accounted s s' evs.
Proof.
  intros Hs Hfuel.
  destruct (flushBatchedUpdates_progress fuel s Hs Hfuel)
    as (s' & Hrun & (Hs' & _ & evs & Hl & Ha) & Hd' & Hf').
  exists s', evs. split_and!; [done..| |done|done|done|done].
  destruct fuel as [|fuel]; [lia|]. cbn [flushBatchedUpdates] in Hrun.
  destruct (bool_decide (dirtyComponents s ≠ [])) eqn:Hdirty.
  2:{ apply bool_decide_eq_false, dec_stable in Hdirty. rewrite Hdirty.
      intros c Hc. by apply elem_of_nil in Hc. }
  apply bool_decide_eq_true in Hdirty. cbn [orb] in Hrun.
  destruct (perform_runBatchedUpdates_reconciles
              (flushBatchedUpdates fuel) (flushBatchedUpdates fuel) fuel s)
    as (s1 & evs1 & rest1 & Hrun1 & Hl1 & Hr1 & _); [|done|done|lia|].
  { intros s0 Hs0 Hp0.
    destruct (flushBatchedUpdates_progress fuel s0 Hs0 Hp0) as (s0' & ? & ? & _).
    eauto. }
  assert (∃ more, log s' = log s1 ++ more) as [more Hmore].
  { destruct (perform_runBatchedUpdates_progress
                (flushBatchedUpdates fuel) (flushBatchedUpdates fuel) fuel s)
      as (s1' & Hrun1' & H1); [|done|done|lia|].
    { intros s0 Hs0 Hp0.
      destruct (flushBatchedUpdates_progress fuel s0 Hs0 Hp0) as (s0' & ? & ? & _).
      eauto. }
    rewrite Hrun1 in Hrun1'. injection Hrun1' as <-.
    rewrite Hrun1 in Hrun. cbn [andThen] in Hrun.
    assert (∃ s2, (if asapEnqueued s1
                   then notifyAll (flushBatchedUpdates fuel) FromAsap
                          (asapCallbackQueue s1)
                          (set_asapCallbackQueue emptyQueue
                             (set_asapEnqueued false s1))
                   else done s1) = Some (s2, Returns tt)
                  ∧ progress 0 0 s1 s2) as (s2 & Hrun2 & H2).
    { destruct (asapEnqueued s1) eqn:Hflag.
      - destruct (asap_drain_progress (flushBatchedUpdates fuel) s1 (proj1 H1) Hflag)
          as (s2 & Hrun2 & H2).
        exists s2. split; [done|]. eapply progress_weaken; [exact H2|lia].
      - exists s1. split; [done|]. apply progress_refl, H1. }
    cbv zeta in Hrun. cbn [asapCallbackQueue set_asapEnqueued] in Hrun.
    rewrite Hrun2 in Hrun. cbn [andThen] in Hrun.
    destruct (flushBatchedUpdates_progress fuel s2) as (s3 & Hrun3 & H3 & _);
      [apply H2| |].
    { destruct H1 as (_ & Hp1 & _), H2 as (_ & Hp2 & _). lia. }
    rewrite Hrun3 in Hrun. injection Hrun as <-.
    destruct H2 as (_ & _ & evs2 & Hl2 & _), H3 as (_ & _ & evs3 & Hl3 & _).
    exists (evs2 ++ evs3). by rewrite Hl3, Hl2, <- app_assoc. }
  rewrite Hmore, Hl1, <- !app_assoc in Hl. apply app_inv_head in Hl. subst evs.
  intros c Hc. rewrite reconciled_app. apply elem_of_app. left. by rewrite Hr1.
Qed.

(** Within a batch, with fuel above the potential, the flush returns, and
    it has reconciled every instance that was dirty when it began; no
    instance is dirty at the end. *)
Theorem flushBatchedUpdates_reconciles_dirty (fuel : nat) (s : state) :
  batching s →
  potential s < fuel →
  ∃ s', flushBatchedUpdates fuel s = Some (s', Returns tt)
        ∧ (∀ c, c ∈ dirtyComponents s → c ∈ reconciled (newLog s s'))
        ∧ dirtyComponents s' = [].
Proof.
  intros Hs Hfuel.
  destruct (flushBatchedUpdates_reconciles fuel s Hs Hfuel)
    as (s' & evs & Hrun & Hl & Hr & _ & Hd & _).
  exists s'. by rewrite (newLog_app _ _ _ Hl).
Qed.

Lemma flushBatchedUpdates_reconciles_dirty_witness :
  ∃ s', flushBatchedUpdates 3 childFirst = Some (s', Returns tt)
        ∧ (∀ c, c ∈ dirtyComponents childFirst → c ∈ reconciled (newLog childFirst s'))
        ∧ dirtyComponents s' = [].
Proof.
  apply (flushBatchedUpdates_reconciles_dirty 3 childFirst).
  - split; [reflexivity|split; [exact I|right; reflexivity]].
  - vm_compute. lia.
Defined.

(** The strategy's [batchedUpdates], called when no batch is open: it opens
    the batch, runs [fn], flushes and closes the batch. *)
Lemma batchedUpdates_outermost (fuel pot : nat) (fn : state → run) (s s1 : state) :
  isBatchingUpdates s = false →
  wfQueue (asapCallbackQueue s) →
  asapEnqueued s = true ∨ entries (asapCallbackQueue s) = [] →
  fn (set_isBatchingUpdates true s) = Some (s1, Returns tt) →
  within_batch [] [] pot 0 (set_isBatchingUpdates true s) s1 →
  potential s + pot < fuel →
  ∃ s2 evs1 evs2,
    batchingStrategy_batchedUpdates (flushBatchedUpdates fuel) fn s
    = Some (set_isBatchingUpdates false s2, Returns tt)
    ∧ log s1 = log s ++ evs1
    ∧ log s2 = log s1 ++ evs2
    ∧ (∀ c, c ∈ dirtyComponents s1 → c ∈ reconciled evs2)
    ∧ dirtyComponents s2 = []
    ∧ asapEnqueued s2 = false
    ∧ entries (asapCallbackQueue s2) = []
    ∧ asapCalls (evs1 ++ evs2)
      = due (entries (asapCallbackQueue s) ++ scheduled (evs1 ++ evs2)).
Proof.
  intros HB Hwf Hq Hfn H1 Hfuel. unfold batchingStrategy_batchedUpdates.
  rewrite HB. cbv zeta. rewrite Hfn. cbn [andThen].
  assert (batching (set_isBatchingUpdates true s)) as Hs0 by done.
  pose proof (within_batch_progress _ _ _ _ _ Hs0 H1) as (Hs1 & Hp1 & evs1 & Hl1 & Ha1).
  change (potential (set_isBatchingUpdates true s)) with (potential s) in Hp1.
  destruct (flushBatchedUpdates_reconciles fuel s1 Hs1)
    as (s2 & evs2 & Hrun & Hl2 & Hr2 & Hs2 & Hd2 & Hf2 & Ha2); [lia|].
  rewrite Hrun. cbn [andFinally done].
  exists s2, evs1, evs2. split_and!; [done..| |].
  - destruct Hs2 as (_ & _ & [?|?]); [congruence|done].
  - assert (entries (asapCallbackQueue s2) = []) as He2
      by (destruct Hs2 as (_ & _ & [?|?]); [congruence|done]).
    unfold accounted in *. rewrite He2 in Ha2.
    change (due []) with (@nil (callback * option nat)) in Ha2.
    rewrite app_nil_r in Ha2.
    change (asapCallbackQueue (set_isBatchingUpdates true s))
      with (asapCallbackQueue s) in Ha1.
    rewrite scheduled_app, asapCalls_app, !due_app, <- Ha2.
    rewrite (app_assoc (asapCalls evs1)), <- Ha1. by rewrite <- !app_assoc.
Qed.

(** Outside a batch [enqueueUpdate] does not only record the instance: it
    opens a batch, and the flush of that batch reconciles the instance (and
    whatever that makes dirty) before [enqueueUpdate] returns; the batch is
    closed again and no instance is left dirty. *)
Theorem enqueueUpdate_outside_batch (fuel : nat) (c : nat) (s : state) :
  isBatchingUpdates s = false →
  wfQueue (asapCallbackQueue s) →
  asapEnqueued s = true ∨ entries (asapCallbackQueue s) = [] →
  potential s + 1 < fuel →
  ∃ s', enqueueUpdate (flushBatchedUpdates fuel) c s = Some (s', Returns tt)
        ∧ c ∈ reconciled (newLog s s')
        ∧ isBatchingUpdates s' = false
        ∧ dirtyComponents s' = []
        ∧ asapEnqueued s' = false.
Proof.
  intros HB Hwf Hq Hfuel. unfold enqueueUpdate. rewrite HB. cbn [negb].
  destruct (batchedUpdates_outermost fuel 1
              (λ s, done (enqueueUpdate_batching c s)) s
              (enqueueUpdate_batching c (set_isBatchingUpdates true s)) HB Hwf Hq
              eq_refl)
    as (s2 & evs1 & evs2 & Hrun & Hl1 & Hl2 & Hr & Hd & Hf & _); [|done|].
  { by apply enqueueUpdate_batching_within. }
  rewrite Hrun. eexists. split; [reflexivity|].
  split_and!; [|done..].
  unfold newLog. cbn [log set_isBatchingUpdates].
  rewrite Hl2, Hl1, <- app_assoc, drop_app_length, reconciled_app.
  apply elem_of_app. right. apply Hr.
  rewrite dirtyComponents_enqueueUpdate_batching. apply elem_of_app. right.
  by apply list_elem_of_singleton.
Qed.

Lemma enqueueUpdate_outside_batch_witness :
  ∃ s', enqueueUpdate (flushBatchedUpdates 5) 1 (set_isBatchingUpdates false childFirst)
        = Some (s', Returns tt)
        ∧ 1 ∈ reconciled (newLog (set_isBatchingUpdates false childFirst) s')
        ∧ isBatchingUpdates s' = false
        ∧ dirtyComponents s' = []
        ∧ asapEnqueued s' = false.
Proof.
  apply (enqueueUpdate_outside_batch 5 1 (set_isBatchingUpdates false childFirst)).
  - reflexivity.
  - exact I.
  - right. reflexivity.
  - vm_compute. lia.
Defined.

Lemma runActions_marks_dirty (flush : state → run) (body : list action)
    (s s1 : state) (c : nat) :
  isBatchingUpdates s = true →
  runActions flush body s = Some (s1, Returns tt) →
  c ∈ marked body →
  c ∈ dirtyComponents s1.
Proof.
  revert s. induction body as [|a body IH]; intros s HB Hrun Hc.
  { by apply elem_of_nil in Hc. }
  cbn [runActions] in Hrun.
  destruct (runAction_within flush a s HB) as (s' & Hrun' & H').
  rewrite Hrun' in Hrun. cbn [andThen] in Hrun.
  assert (c ∈ marked [a] ∨ c ∈ marked body) as [Ha|Hc'].
  { change (a :: body) with ([a] ++ body) in Hc. unfold marked in *.
    rewrite omap_app in Hc. by apply elem_of_app in Hc. }
  2:{ by eapply IH; [apply H'|..]. }
  destruct (runActions_within flush body s' (proj1 H'))
    as (s1' & Hrun1 & (_ & _ & _ & (more & Hd) & _)).
  rewrite Hrun in Hrun1. injection Hrun1 as <-. rewrite Hd.
  apply elem_of_app. left.
  destruct a as [c'|c' cb|cb context]; cbn in Ha;
    [apply list_elem_of_singleton in Ha as ->..|by apply elem_of_nil in Ha].
  - cbn [runAction] in Hrun'. unfold enqueueUpdate in Hrun'. rewrite HB in Hrun'.
    cbn [negb] in Hrun'. injection Hrun' as <-.
    rewrite dirtyComponents_enqueueUpdate_batching. apply elem_of_app. right.
    by apply list_elem_of_singleton.
  - cbn [runAction] in Hrun'. unfold enqueueCallback, enqueueUpdate in Hrun'.
    cbv zeta in Hrun'.
    cbn [isBatchingUpdates assignComponent set_components] in Hrun'.
    rewrite HB in Hrun'. cbn [negb] in Hrun'. injection Hrun' as <-.
    rewrite dirtyComponents_enqueueUpdate_batching. apply elem_of_app. right.
    by apply list_elem_of_singleton.
Qed.

(** The contract of [asap] and of the outermost [batchedUpdates]: when no
    batch is open, [batchedUpdates] of user code that calls the scheduler
    returns with the batch closed, no instance dirty and the asap queue
    empty; every instance the user code marked dirty, by [enqueueUpdate] or
    by [enqueueCallback], was reconciled; and the callbacks called from the
    asap queue before [batchedUpdates] returned are those that were queued
    before, then those the user code passes to [asap], then those that the
    callbacks called and the updates run during the flush pass to [asap],
    each once, in that order. *)
Theorem batchedUpdates_flushes (fuel : nat) (body : list action) (s : state) :
  isBatchingUpdates s = false →
  wfQueue (asapCallbackQueue s) →
  asapEnqueued s = true ∨ entries (asapCallbackQueue s) = [] →
  potential s + actionsWeight body < fuel →
  ∃ s', batchedUpdates (flushBatchedUpdates fuel)
          (runActions (flushBatchedUpdates fuel) body) s
        = Some (s', Returns tt)
        ∧ isBatchingUpdates s' = false
        ∧ dirtyComponents s' = []
        ∧ asapEnqueued s' = false
        ∧ entries (asapCallbackQueue s') = []
        ∧ (∀ c, c ∈ marked body → c ∈ reconciled (newLog s s'))
        ∧ asapCalls (newLog s s')
          = due (entries (asapCallbackQueue s) ++ asapsOf body
                 ++ requested (pendingUpdates s) (newLog s s')).
Proof.
  intros HB Hwf Hq Hfuel. unfold batchedUpdates.
  destruct (runActions_within (flushBatchedUpdates fuel) body
              (set_isBatchingUpdates true s) eq_refl) as (s1 & Hfn & H1).
  destruct (batchedUpdates_outermost fuel (actionsWeight body)
              (runActions (flushBatchedUpdates fuel) body) s s1 HB Hwf Hq Hfn H1 Hfuel)
    as (s2 & evs1 & evs2 & Hrun & Hl1 & Hl2 & Hr & Hd & Hf & He & Ha).
  rewrite Hrun. eexists. split; [reflexivity|].
  assert (newLog s (set_isBatchingUpdates false s2) = evs1 ++ evs2) as ->.
  { apply newLog_app. cbn [log set_isBatchingUpdates].
    by rewrite Hl2, Hl1, <- app_assoc. }
  split_and!; [done..| |].
  { intros c Hc. rewrite reconciled_app. apply elem_of_app. right. apply Hr.
    by eapply (runActions_marks_dirty _ body (set_isBatchingUpdates true s)). }
  (* what the user code logs, and what the flush logs *)
  destruct (runActions_scheduling (flushBatchedUpdates fuel) body
              (set_isBatchingUpdates true s) eq_refl)
    as (s1' & Hfn' & HB1 & Hl1' & Hp1).
  rewrite Hfn in Hfn'. injection Hfn' as <-.
  cbn [log set_isBatchingUpdates] in Hl1'.
  assert (evs1 = scheduling (asapsOf body)) as ->
    by (rewrite Hl1 in Hl1'; by apply app_inv_head in Hl1').
  assert (scheduled evs2 = requested (pendingUpdates s) evs2) as Hreq.
  { pose proof (within_batch_progress _ _ _ _ _
                  (conj eq_refl (conj Hwf Hq) : batching (set_isBatchingUpdates true s))
                  H1) as (Hs1 & Hp & _).
    change (potential (set_isBatchingUpdates true s)) with (potential s) in Hp.
    destruct (flushBatchedUpdates_progress fuel s1 Hs1) as (s2' & Hflush & _);
      [lia|].
    destruct (flushBatchedUpdates_traced fuel s1 s2' HB1 Hflush)
      as (_ & evs2' & Hl2' & Hreq & _).
    revert Hrun. unfold batchingStrategy_batchedUpdates. rewrite HB. cbv zeta.
    rewrite Hfn. cbn [andThen]. rewrite Hflush. cbn [andFinally done].
    intros Heq. apply (f_equal (option_map (λ r, log r.1))) in Heq.
    cbn in Heq. injection Heq as Heq.
    assert (evs2' = evs2) as ->
      by (rewrite Heq, Hl2 in Hl2'; by apply app_inv_head in Hl2').
    rewrite Hreq. by apply requested_ext. }
  rewrite Ha, scheduled_app, scheduled_scheduling, requested_app,
    requested_scheduling, remaining_scheduling, Hreq. done.
Qed.

Lemma batchedUpdates_flushes_witness :
  ∃ s', batchedUpdates (flushBatchedUpdates 15)
          (runActions (flushBatchedUpdates 15)
                      [EnqueueUpdate 0; Asap (Callback 4 [EnqueueUpdate 0]) 6])
          (set_isBatchingUpdates false asapPending)
        = Some (s', Returns tt)
        ∧ isBatchingUpdates s' = false
        ∧ dirtyComponents s' = []
        ∧ asapEnqueued s' = false
        ∧ entries (asapCallbackQueue s') = []
        ∧ (∀ c, c ∈ marked [EnqueueUpdate 0; Asap (Callback 4 [EnqueueUpdate 0]) 6]
                → c ∈ reconciled (newLog (set_isBatchingUpdates false asapPending) s'))
        ∧ asapCalls (newLog (set_isBatchingUpdates false asapPending) s')
          = due (entries (asapCallbackQueue (set_isBatchingUpdates false asapPending))
                 ++ asapsOf [EnqueueUpdate 0; Asap (Callback 4 [EnqueueUpdate 0]) 6]
                 ++ requested (pendingUpdates (set_isBatchingUpdates false asapPending))
                      (newLog (set_isBatchingUpdates false asapPending) s')).
Proof.
  apply (batchedUpdates_flushes 15
           [EnqueueUpdate 0; Asap (Callback 4 [EnqueueUpdate 0]) 6]
           (set_isBatchingUpdates false asapPending)).
  - reflexivity.
  - vm_compute. reflexivity.
  - left. reflexivity.
  - vm_compute. lia.
Defined.

(** That batch: the callback that was queued before is called first, then
    the one the user code passes to [asap], and then the two that the
    first callback and the update of the instance pass to [asap]; the
    instance is reconciled. *)
Example batchedUpdates_flushes_log :
  option_map (λ r, (asapCalls (newLog (set_isBatchingUpdates false asapPending) r.1),
                    reconciled (newLog (set_isBatchingUpdates false asapPending) r.1)))
    (batchedUpdates (flushBatchedUpdates 15)
       (runActions (flushBatchedUpdates 15)
          [EnqueueUpdate 0; Asap (Callback 4 [EnqueueUpdate 0]) 6])
       (set_isBatchingUpdates false asapPending))
  = Some ([(Callback 1 [Asap (Callback 2 []) 8; EnqueueUpdate 0], Some 7);
           (Callback 4 [EnqueueUpdate 0], Some 6);
           (Callback 3 [], Some 9);
           (Callback 2 [], Some 8)],
          [0; 0; 0]).
Proof. vm_compute. reflexivity. Qed.

End ReactUpdatesLaws.

(* ================================================================== *)
(** ** More facts about the composite component *)
(* ================================================================== *)

Module CompositeLaws.
Import ReactCompositeComponent CompositeSpec CompositeLogic CompositeNotions.
Import CompositeFacts Examples.

(** *** Unmounting twice *)

(** An unmount of a composite instance that returns leaves it released, and
    unmounting it again, with whatever flag, does nothing: the instance is
    as it was, no hook is called and no child is touched.  An unmount
    never moves the mount counter. *)
Theorem unmountComponent_again (safely safely' : bool) (this : composite)
    (w w' w'' : world) (i' : instance) :
  unmountComponent safely (IComposite this) w = (i', w', Returns tt) →
  nextMountID w' = nextMountID w
  ∧ (∃ this', i' = IComposite this' ∧ _renderedComponent this' = None
              ∧ _mountOrder this' = _mountOrder this)
  ∧ unmountComponent safely' i' w''
    = (i', set_trace (trace w'' ++ [EvUnmount (_mountOrder this) safely']) w'',
       Returns tt).
Proof.
  intros Hrun.
  pose proof (unmountComponent_quiet safely (IComposite this) w) as [Hn _].
  rewrite Hrun in Hn. cbn [fst snd] in Hn. split; [done|].
  assert (∃ this', i' = IComposite this' ∧ _renderedComponent this' = None
                   ∧ _mountOrder this' = _mountOrder this) as (this' & -> & Hc' & Hm').
  { destruct (_renderedComponent this) as [child|] eqn:Hc.
    2:{ rewrite unmountComponent_unmounted in Hrun by done.
        injection Hrun as <- _. eauto. }
    destruct (_instance this) as [inst|] eqn:Hinst.
    2:{ exfalso. revert Hrun. cbn [unmountComponent]. rewrite Hc.
        unfold unmountComposite. rewrite bind_getThis, bind_emit. cbn [fst snd].
        rewrite Hc. rewrite bool_decide_eq_true_2 by eauto. cbn [negb].
        unfold bind at 1. unfold thisInstance. exec. rewrite Hinst. cbn [fst snd].
        discriminate. }
    rewrite (unmountComponent_mounted safely this w child inst Hc Hinst) in Hrun.
    unfold unmountSpec in Hrun.
    match type of Hrun with context [willUnmountStep safely this inst ?w0] =>
      pose proof (willUnmountStep_counted 0 safely this inst w0) as (_ & Hm1 & _);
      destruct (willUnmountStep safely this inst w0) as [[this1 w1] [[]|e]]
    end; [|discriminate].
    cbn [fst snd] in Hm1.
    destruct (unmountComponent safely child w1) as [[child' w2] [[]|e]];
      [|discriminate].
    injection Hrun as <- _. exists (released this1). done. }
  split; [eauto|].
  rewrite unmountComponent_unmounted by done. by rewrite Hm'.
Qed.

Lemma unmountComponent_again_witness :
  nextMountID worldUnmountedGrumpy = nextMountID worldOuter
  ∧ (∃ this', unmountedGrumpy = IComposite this'
              ∧ _renderedComponent this' = None
              ∧ _mountOrder this' = _mountOrder mountedGrumpy)
  ∧ unmountComponent false unmountedGrumpy initialWorld
    = (unmountedGrumpy,
       set_trace (trace initialWorld ++ [EvUnmount (_mountOrder mountedGrumpy) false])
                 initialWorld,
       Returns tt).
Proof.
  apply (unmountComponent_again true false mountedGrumpy worldOuter
           worldUnmountedGrumpy initialWorld unmountedGrumpy).
  vm_compute. reflexivity.
Defined.

(** *** The state merge, without the replace flag *)

Lemma foldl_mergePartial_objects (props context : objref) (key : string)
    (partials : list objref) (acc : gmap string fval) :
  foldl (mergePartial props context) acc (JObj <$> partials) !! key
  = lastAssigned key (acc !! key) partials.
Proof.
  revert acc. induction partials as [|partial partials IH]; intros acc; [done|].
  cbn [fmap list_fmap foldl]. rewrite IH. unfold lastAssigned. cbn [foldl].
  f_equal. cbn [mergePartial Object_assign]. rewrite lookup_union.
  destruct (ofields partial !! key), (acc !! key); reflexivity.
Qed.

(** With no replace flag, [_processPendingState] on a queue gives an
    object whose identity is taken from the counter, which moves on: when
    the state and the entries were allocated before, the result is none of
    them.  When the entries are objects, each of its properties has the
    value of the last entry that has it, or else that of the state; and an
    updater function at the end of the queue is applied to what the entries
    before it accumulated. *)
Theorem processPendingState_merge (this : composite) (inst : publicInstance)
    (w : world) (props context : objref) (queue : list jsval) :
  _instance this = Some inst →
  _pendingStateQueue this = Some queue →
  _pendingReplaceState this = false →
  forallb (allocated w) (inst_state inst :: queue) = true →
  ∃ result,
    _processPendingState props context (this, w)
    = ((set_pendingStateQueue None (set_pendingReplaceState false this),
        set_nextObjectID (S (nextObjectID w)) w),
       Returns (JObj result))
    ∧ (∀ o, JObj o ∈ inst_state inst :: queue → oid result ≠ oid o)
    ∧ forallb (allocated (set_nextObjectID (S (nextObjectID w)) w))
              (JObj result :: inst_state inst :: queue) = true
    ∧ ofields result
      = foldl (mergePartial props context) (Object_assign ∅ (inst_state inst)) queue
    ∧ (∀ partials key,
         queue = JObj <$> partials →
         ofields result !! key
         = lastAssigned key (Object_assign ∅ (inst_state inst) !! key) partials)
    ∧ (∀ before f,
         queue = before ++ [JFun f] →
         let accumulated :=
           foldl (mergePartial props context) (Object_assign ∅ (inst_state inst))
                 before in
         ofields result = match f accumulated props context with
                          | Some fields => fields ∪ accumulated
                          | None => accumulated
                          end).
Proof.
  intros Hinst Hqueue Hreplace Hall.
  assert (∀ v, v ∈ inst_state inst :: queue → allocated w v = true) as Hbelow.
  { intros v Hv. apply list_elem_of_In in Hv.
    by apply (proj1 (forallb_forall _ _) Hall). }
  eexists (ObjRef (nextObjectID w) _). split_and!; [| | |reflexivity| |].
  - destruct this. cbn in Hinst, Hqueue, Hreplace. subst.
    unfold _processPendingState. exec. cbn. reflexivity.
  - intros o Ho. apply Hbelow in Ho. cbn in Ho.
    apply bool_decide_eq_true_1 in Ho. cbn [oid]. lia.
  - apply forallb_forall. intros v Hv.
    apply list_elem_of_In, elem_of_cons in Hv as [->|Hv].
    { cbn. apply bool_decide_eq_true_2. lia. }
    apply Hbelow in Hv. destruct v as [| |o|]; try done. cbn in *.
    apply bool_decide_eq_true_1 in Hv. apply bool_decide_eq_true_2. lia.
  - intros partials key ->. apply foldl_mergePartial_objects.
  - intros before f ->. cbv zeta. cbn [ofields]. by rewrite foldl_app.
Qed.

Lemma processPendingState_merge_witness :
  ∃ result,
    _processPendingState (ObjRef 100 ∅) emptyObject
      (set_pendingStateQueue
         (Some [JObj (ObjRef 8 {["count" := FNum 2]});
                JObj (ObjRef 9 {["count" := FNum 3; "flag" := FBool true]})])
         provider, set_nextObjectID 10 initialWorld)
    = ((set_pendingStateQueue None
          (set_pendingReplaceState false
             (set_pendingStateQueue
                (Some [JObj (ObjRef 8 {["count" := FNum 2]});
                       JObj (ObjRef 9 {["count" := FNum 3; "flag" := FBool true]})])
                provider)),
        set_nextObjectID (S (nextObjectID (set_nextObjectID 10 initialWorld)))
          (set_nextObjectID 10 initialWorld)),
       Returns (JObj result))
    ∧ (∀ o, JObj o ∈ inst_state providerInstance
                     :: [JObj (ObjRef 8 {["count" := FNum 2]});
                         JObj (ObjRef 9 {["count" := FNum 3; "flag" := FBool true]})] →
            oid result ≠ oid o)
    ∧ forallb (allocated
                 (set_nextObjectID (S (nextObjectID (set_nextObjectID 10 initialWorld)))
                    (set_nextObjectID 10 initialWorld)))
              (JObj result
               :: inst_state providerInstance
               :: [JObj (ObjRef 8 {["count" := FNum 2]});
                   JObj (ObjRef 9 {["count" := FNum 3; "flag" := FBool true]})])
      = true
    ∧ ofields result
      = foldl (mergePartial (ObjRef 100 ∅) emptyObject)
              (Object_assign ∅ (inst_state providerInstance))
              [JObj (ObjRef 8 {["count" := FNum 2]});
               JObj (ObjRef 9 {["count" := FNum 3; "flag" := FBool true]})]
    ∧ (∀ partials key,
         [JObj (ObjRef 8 {["count" := FNum 2]});
          JObj (ObjRef 9 {["count" := FNum 3; "flag" := FBool true]})]
         = JObj <$> partials →
         ofields result !! key
         = lastAssigned key (Object_assign ∅ (inst_state providerInstance) !! key)
                        partials)
    ∧ (∀ before f,
         [JObj (ObjRef 8 {["count" := FNum 2]});
          JObj (ObjRef 9 {["count" := FNum 3; "flag" := FBool true]})]
         = before ++ [JFun f] →
         let accumulated :=
           foldl (mergePartial (ObjRef 100 ∅) emptyObject)
                 (Object_assign ∅ (inst_state providerInstance)) before in
         ofields result = match f accumulated (ObjRef 100 ∅) emptyObject with
                          | Some fields => fields ∪ accumulated
                          | None => accumulated
                          end).
Proof.
  apply (processPendingState_merge _ providerInstance
           (set_nextObjectID 10 initialWorld) (ObjRef 100 ∅) emptyObject
           [JObj (ObjRef 8 {["count" := FNum 2]});
            JObj (ObjRef 9 {["count" := FNum 3; "flag" := FBool true]})]).
  - reflexivity.
  - reflexivity.
  - reflexivity.
  - vm_compute. reflexivity.
Defined.

(** The merge on [provider]: [count] is that of the last entry, [name] that
    of the state. *)
Example processPendingState_merge_provider :
  (λ r, match r with
        | Returns (JObj o) => (ofields o !! "count", ofields o !! "name",
                               ofields o !! "flag", oid o)
        | _ => (None, None, None, 0)
        end)
    (_processPendingState (ObjRef 100 ∅) emptyObject
       (set_pendingStateQueue
          (Some [JObj (ObjRef 8 {["count" := FNum 2]});
                 JObj (ObjRef 9 {["count" := FNum 3; "flag" := FBool true]})])
          provider, initialWorld)).2
  = (Some (FNum 3), Some (FStr "a"), Some (FBool true), 1).
Proof. vm_compute. reflexivity. Qed.

(** *** Contexts *)



(** On [provider], which declares [locale] and [user]: the masked context
    has [locale] from the context, [user] as [undefined], and not
    [secret]. *)
Example maskContext_provider :
  (λ r, match r with
        | Returns masked => (ofields masked !! "locale", ofields masked !! "user",
                             ofields masked !! "secret")
        | Throws _ => (None, None, None)
        end)
    (_maskContext (Some (ObjRef 3 {["locale" := FStr "fr"; "secret" := FNum 1]}))
       (provider, initialWorld)).2
  = (Some (FStr "fr"), Some FUndefined, None).
Proof. vm_compute. reflexivity. Qed.

(** On [inheritor], which declares [toString]: the masked context has the
    [toString] that the context inherits. *)
Example maskContext_inheritor :
  (λ r, match r with
        | Returns masked => (ofields masked !! "locale", ofields masked !! "toString",
                             ofields masked !! "valueOf")
        | Throws _ => (None, None, None)
        end)
    (_maskContext (Some (ObjRef 3 {["locale" := FStr "fr"]}))
       (inheritor, initialWorld)).2
  = (Some (FStr "fr"), Some (FBuiltin "Object.prototype.toString"), None).
Proof. vm_compute. reflexivity. Qed.

Lemma declared_keys (childContext : gmap string fval) (declared : list string) :
  forallb (hasProperty declared) (map fst (map_to_list childContext)) = true
  ↔ ∀ key, is_Some (childContext !! key) → declaredIn declared key.
Proof.
  assert (∀ key, hasProperty declared key = true ↔ declaredIn declared key) as Hhas.
  { intros key. unfold hasProperty, declaredIn.
    rewrite orb_true_iff, !bool_decide_eq_true. done. }
  rewrite forallb_forall. split.
  - intros H key [v Hv]. eapply Hhas, H, in_map_iff.
    exists (key, v). split; [done|]. by apply list_elem_of_In, elem_of_map_to_list.
  - intros H name [[key v] [<- Hin]]%in_map_iff. apply Hhas, H.
    apply list_elem_of_In, elem_of_map_to_list in Hin. cbn. eauto.
Qed.

(** [_processChildContext]: a unit without [getChildContext], or whose
    [getChildContext] gives nothing, hands the current context on, the same
    object; a child context with undeclared [childContextTypes] is an
    invariant violation, and so is one with a key that [childContextTypes]
    neither has nor inherits from [Object.prototype]; and otherwise the
    result is an object from the counter in which the child context's
    properties come over those of the current context. *)
Theorem processChildContext_cases (this : composite) (inst : publicInstance)
    (w : world) (currentContext : option objref) :
  _instance this = Some inst →
  match method getChildContext inst ≫= (λ g, g (view_of inst)) with
  | None =>
      _processChildContext currentContext (this, w)
      = ((this, w), Returns currentContext)
  | Some childContext =>
      match childContextTypes (el_type (_currentElement this)) with
      | None =>
          ∃ msg, _processChildContext currentContext (this, w)
                 = ((this, w), Throws (InvariantViolation msg))
      | Some declared =>
          ((∀ key, is_Some (childContext !! key) → declaredIn declared key) →
           ∃ merged,
             _processChildContext currentContext (this, w)
             = ((this, set_nextObjectID (S (nextObjectID w)) w),
                Returns (Some merged))
             ∧ oid merged = nextObjectID w
             ∧ ∀ key, ofields merged !! key
                      = match childContext !! key with
                        | Some v => Some v
                        | None => currentContext ≫= (λ c, ofields c !! key)
                        end)
          ∧ (∀ key, is_Some (childContext !! key) → ¬ declaredIn declared key →
             ∃ msg, _processChildContext currentContext (this, w)
                    = ((this, w), Throws (InvariantViolation msg)))
      end
  end.
Proof.
  intros Hinst. unfold _processChildContext. exec. rewrite Hinst.
  destruct (method getChildContext inst ≫= (λ g, g (view_of inst)))
    as [childContext|]; [|done].
  destruct (childContextTypes (el_type (_currentElement this))) as [declared|];
    [|eauto].
  split.
  - intros Hall. rewrite (proj2 (declared_keys childContext declared) Hall).
    unfold newObject. exec.
    eexists. split_and!; [reflexivity|reflexivity|]. intros key. cbn [ofields].
    rewrite lookup_union. destruct (childContext !! key) as [v|] eqn:Hk.
    + by destruct (from_option ofields ∅ currentContext !! key).
    + destruct currentContext as [c|]; cbn; [by destruct (ofields c !! key)|done].
  - intros key Hkey Hnot.
    destruct (forallb _ _) eqn:Hall; [|eauto].
    pose proof (proj1 (declared_keys _ _) Hall key Hkey). done.
Qed.

Lemma processChildContext_cases_witness :
  match method getChildContext providerInstance
        ≫= (λ g, g (view_of providerInstance)) with
  | None =>
      _processChildContext (Some (ObjRef 3 {["locale" := FStr "fr"]}))
        (provider, initialWorld)
      = ((provider, initialWorld), Returns (Some (ObjRef 3 {["locale" := FStr "fr"]})))
  | Some childContext =>
      match childContextTypes (el_type (_currentElement provider)) with
      | None =>
          ∃ msg, _processChildContext (Some (ObjRef 3 {["locale" := FStr "fr"]}))
                   (provider, initialWorld)
                 = ((provider, initialWorld), Throws (InvariantViolation msg))
      | Some declared =>
          ((∀ key, is_Some (childContext !! key) → declaredIn declared key) →
           ∃ merged,
             _processChildContext (Some (ObjRef 3 {["locale" := FStr "fr"]}))
               (provider, initialWorld)
             = ((provider,
                 set_nextObjectID (S (nextObjectID initialWorld)) initialWorld),
                Returns (Some merged))
             ∧ oid merged = nextObjectID initialWorld
             ∧ ∀ key, ofields merged !! key
                      = match childContext !! key with
                        | Some v => Some v
                        | None => Some (ObjRef 3 {["locale" := FStr "fr"]})
                                  ≫= (λ c, ofields c !! key)
                        end)
          ∧ (∀ key, is_Some (childContext !! key) → ¬ declaredIn declared key →
             ∃ msg, _processChildContext (Some (ObjRef 3 {["locale" := FStr "fr"]}))
                      (provider, initialWorld)
                    = ((provider, initialWorld), Throws (InvariantViolation msg)))
      end
  end.
Proof.
  apply (processChildContext_cases provider providerInstance initialWorld
           (Some (ObjRef 3 {["locale" := FStr "fr"]}))).
  reflexivity.
Defined.

(** On [inheritor], whose child context has a [valueOf] that is not
    declared: [valueOf in childContextTypes] holds all the same, and the
    result is the merged context, with that [valueOf].  On [stray], whose
    child context has a key that is neither declared nor inherited: an
    invariant violation. *)
Example processChildContext_inherited :
  (λ r, match r with
        | Returns (Some merged) =>
            Some (ofields merged !! "locale", ofields merged !! "theme",
                  ofields merged !! "valueOf")
        | _ => None
        end)
    (_processChildContext (Some (ObjRef 3 {["locale" := FStr "fr"]}))
       (inheritor, initialWorld)).2
  = Some (Some (FStr "fr"), Some (FStr "dark"), Some (FNum 0))
  ∧ (_processChildContext (Some (ObjRef 3 {["locale" := FStr "fr"]}))
       (stray, initialWorld)).2
    = Throws (InvariantViolation
                "getChildContext(): key is not defined in childContextTypes").
Proof. split; vm_compute; reflexivity. Qed.

(** *** The stamps of a mount *)

(** A mount only moves the counter up, whether it returns or throws, and
    stamps with nothing but the values the counter goes through; when it
    returns, every composite instance of the tree it leaves has a stamp
    taken from the counter during this mount, and above the stamp of each
    of its ancestors in the tree. *)
Theorem mountComponent_stamps (node : element) (hostParent hostContainerInfo : option nat)
    (context : option objref) (w : world) :
  let run := mountComponent node hostParent hostContainerInfo context w in
  nextMountID w ≤ nextMountID run.1.2
  ∧ (∃ rest, trace run.1.2 = trace w ++ rest
             ∧ ∀ k, EvMountOrder k ∈ rest → nextMountID w ≤ k < nextMountID run.1.2)
  ∧ (returned run.2 = true →
     (∀ k, k ∈ mountOrders run.1.1 → nextMountID w ≤ k < nextMountID run.1.2)
     ∧ ∀ a b, in_tree run.1.1 (IComposite a) →
              descendant_of (IComposite a) (IComposite b) →
              _mountOrder a < _mountOrder b).
Proof.
  cbv zeta.
  destruct (mountComponent_good node hostParent hostContainerInfo context w)
    as [[Hle Hrest] Hret].
  split_and!; [done..|].
  intros Hr. destruct (Hret Hr) as [Hwithin Hparents]. split; [done|].
  intros a b Ha Hab. by eapply parentsFirst_descendant.
Qed.

End CompositeLaws.

(* ================================================================== *)
(** ** Facts about ReactMount *)
(* ================================================================== *)

Module ReactMountFacts.
Import ReactMount ReactMountSpec.

Lemma charAt_eq (string1 string2 : jsstring) (i : nat) :
  charAt string1 i = charAt string2 i ↔ string1 !! i = string2 !! i.
Proof.
  unfold charAt. destruct (string1 !! i), (string2 !! i); split; congruence.
Qed.

(** The loop returns at the first index where the strings differ, and when
    it runs to the end, they agree so far. *)
Lemma firstDifferenceIndex_loop_spec (turns i : nat) (string1 string2 : jsstring) :
  take i string1 = take i string2 →
  i + turns ≤ length string1 →
  i + turns ≤ length string2 →
  match firstDifferenceIndex_loop turns i string1 string2 with
  | Some j => i ≤ j < i + turns
              ∧ take j string1 = take j string2
              ∧ string1 !! j ≠ string2 !! j
  | None => take (i + turns) string1 = take (i + turns) string2
  end.
Proof.
  revert i. induction turns as [|turns IH]; intros i Hprefix H1 H2;
    cbn [firstDifferenceIndex_loop].
  { by rewrite Nat.add_0_r. }
  destruct (bool_decide_reflect (charAt string1 i ≠ charAt string2 i)) as [Hne|Heq].
  - rewrite charAt_eq in Hne. split_and!; [lia|lia|done..].
  - apply dec_stable, charAt_eq in Heq.
    destruct (lookup_lt_is_Some_2 string1 i) as [c Hc]; [lia|].
    replace (i + S turns) with (S i + turns) in * by lia.
    specialize (IH (S i)).
    assert (take (S i) string1 = take (S i) string2) as Hprefix'.
    { assert (string2 !! i = Some c) as Hc2 by (by rewrite <- Heq).
      by rewrite (take_S_r string1 i c Hc), (take_S_r string2 i c Hc2), Hprefix. }
    specialize (IH Hprefix' H1 H2).
    destruct (firstDifferenceIndex_loop turns (S i) string1 string2) as [j|];
      [|done].
    destruct IH as (? & ? & ?). split_and!; [lia|lia|done..].
Qed.

(** What the result says of the strings. *)
Lemma firstDifferenceIndex_cases (string1 string2 : jsstring) :
  (firstDifferenceIndex string1 string2 = (-1)%Z ∧ string1 = string2)
  ∨ (∃ i, firstDifferenceIndex string1 string2 = Z.of_nat i
          ∧ take i string1 = take i string2
          ∧ string1 !! i ≠ string2 !! i).
Proof.
  unfold firstDifferenceIndex, jsstring in *. cbv zeta.
  pose proof (firstDifferenceIndex_loop_spec
                (length string1 `min` length string2) 0 string1 string2 eq_refl)
    as Hloop.
  cbn [Nat.add] in Hloop. specialize (Hloop ltac:(lia) ltac:(lia)).
  destruct (firstDifferenceIndex_loop _ 0 string1 string2) as [j|].
  - destruct Hloop as (Hj & Hprefix & Hne). right. eauto.
  - destruct (bool_decide_reflect (length string1 = length string2)) as [Hlen|Hlen].
    + rewrite <- Hlen, Nat.min_id, firstn_all in Hloop.
      rewrite Hlen, firstn_all in Hloop. by left.
    + right. eexists. split_and!; [reflexivity|done|].
      destruct (Nat.min_spec (length string1) (length string2))
        as [[Hlt ->]|[Hle ->]].
      * rewrite (lookup_ge_None_2 string1) by lia.
        destruct (lookup_lt_is_Some_2 string2 (length string1)) as [c ->];
          [lia|done].
      * rewrite (lookup_ge_None_2 string2 (length string2)) by lia.
        destruct (lookup_lt_is_Some_2 string1 (length string2)) as [c ->];
          [lia|done].
Qed.

(** The strings agree on their common prefix, and part right after it
    unless they are the same. *)
Lemma commonPrefix_parts (string1 string2 : jsstring) :
  take (commonPrefix string1 string2) string1
  = take (commonPrefix string1 string2) string2
  ∧ (string1 ≠ string2 →
     string1 !! commonPrefix string1 string2
     ≠ string2 !! commonPrefix string1 string2).
Proof.
  revert string2. induction string1 as [|unit1 rest1 IH]; intros [|unit2 rest2];
    cbn [commonPrefix]; try done.
  destruct (bool_decide_reflect (unit1 = unit2)) as [->|Hne].
  - destruct (IH rest2) as [Hprefix Hparts]. cbn. split; [by rewrite Hprefix|].
    intros Hdiff. apply Hparts. congruence.
  - split; [done|]. cbn. congruence.
Qed.

(** There is one index only at which two strings part. *)
Lemma commonPrefix_unique (string1 string2 : jsstring) (i : nat) :
  take i string1 = take i string2 →
  string1 !! i ≠ string2 !! i →
  i = commonPrefix string1 string2.
Proof.
  revert string2 i.
  induction string1 as [|unit1 rest1 IH]; intros [|unit2 rest2] [|i] Hprefix Hparts;
    cbn [commonPrefix] in *; try done.
  - destruct (bool_decide_reflect (unit1 = unit2)) as [->|Hne]; [|done].
    by cbn in Hparts.
  - cbn in Hprefix. injection Hprefix as -> Hprefix.
    rewrite bool_decide_eq_true_2 by done. f_equal. by apply IH.
Qed.

(** [firstDifferenceIndex] gives [-1] when the two strings are the same,
    and otherwise the length of their longest common prefix: the strings
    agree before that index and differ at it, be it that one of them ends
    there.  It does not depend on the order of its arguments. *)
Theorem firstDifferenceIndex_spec (string1 string2 : jsstring) :
  firstDifferenceIndex string1 string2
  = (if bool_decide (string1 = string2) then (-1)%Z
     else Z.of_nat (commonPrefix string1 string2))
  ∧ take (commonPrefix string1 string2) string1
    = take (commonPrefix string1 string2) string2
  ∧ (string1 ≠ string2 →
     string1 !! commonPrefix string1 string2
     ≠ string2 !! commonPrefix string1 string2)
  ∧ firstDifferenceIndex string1 string2 = firstDifferenceIndex string2 string1.
Proof.
  assert (∀ s1 s2 : jsstring,
            firstDifferenceIndex s1 s2
            = if bool_decide (s1 = s2) then (-1)%Z
              else Z.of_nat (commonPrefix s1 s2)) as Hvalue.
  { intros s1 s2.
    destruct (firstDifferenceIndex_cases s1 s2)
      as [[-> Heq]|(i & -> & Hprefix & Hparts)].
    - by rewrite bool_decide_eq_true_2.
    - rewrite bool_decide_eq_false_2 by (intros ->; done).
      f_equal. by apply commonPrefix_unique. }
  destruct (commonPrefix_parts string1 string2) as [Hprefix Hparts].
  split_and!; [done..|].
  rewrite !Hvalue.
  destruct (bool_decide_reflect (string1 = string2)) as [->|Hne].
  - by rewrite bool_decide_eq_true_2.
  - rewrite bool_decide_eq_false_2 by congruence. f_equal.
    apply commonPrefix_unique; [done|]. intros Heq. by apply Hparts.
Qed.

(** Two strings that part at index 2, and a string and a prefix of it. *)
Example firstDifferenceIndex_examples :
  firstDifferenceIndex [60; 100; 105; 118] [60; 100; 112] = 2%Z
  ∧ firstDifferenceIndex [60; 100] [60; 100; 105] = 2%Z
  ∧ firstDifferenceIndex [60; 100] [60; 100] = (-1)%Z
  ∧ firstDifferenceIndex [] [] = (-1)%Z.
Proof. repeat split. Qed.

End ReactMountFacts.
